(** * chowbea-axios: the operation extractor, the naming functions, the code
    emitter, the spec differ, the spec validator and the generated error
    module, embedded from [src/lib/generator.ts], [src/commands/diff.ts] and
    [src/commands/validate.ts]. *)

From Stdlib Require Import String Ascii List ZArith Bool Lia Arith.
From Stdlib Require Import Numbers.DecimalString.
From stdpp Require Import base decidable list.
From Equations Require Import Equations.
From Equations.Prop Require Import Logic.
Import ListNotations.

Local Open Scope list_scope.
Local Open Scope string_scope.

(** ** Strings

    A JavaScript string is modelled by a Rocq [string], one [ascii] per code
    unit.  Every character the code tests for (braces, [-], [_], the letters
    [a]-[z], the double quote) is ASCII, so the byte sequence of a UTF-8 text
    is cut at the same places as its UTF-16 form. *)
Module Str.

Definition is_lower (c : ascii) : bool :=
  Nat.leb 97 (nat_of_ascii c) && Nat.leb (nat_of_ascii c) 122.

Definition is_upper (c : ascii) : bool :=
  Nat.leb 65 (nat_of_ascii c) && Nat.leb (nat_of_ascii c) 90.

(** [toUpperCase] and [toLowerCase] on one code unit (ASCII letters). *)
Definition upper (c : ascii) : ascii :=
  if is_lower c then ascii_of_nat (nat_of_ascii c - 32) else c.

Definition lower (c : ascii) : ascii :=
  if is_upper c then ascii_of_nat (nat_of_ascii c + 32) else c.

Fixpoint map (f : ascii -> ascii) (s : string) : string :=
  match s with
  | EmptyString => EmptyString
  | String c s' => String (f c) (map f s')
  end.

Definition toUpperCase : string -> string := map upper.

(** The two characters outside ASCII whose lower case has an ASCII letter,
    on the UTF-8 text: the Kelvin sign U+212A (bytes E2 84 AA) lowers to
    [k], and U+0130 (bytes C4 B0) to [i] followed by U+0307 (bytes CC 87). *)
Fixpoint lowerSpecial (s : string) : string :=
  match s with
  | EmptyString => EmptyString
  | String a s1 =>
      match s1 with
      | String b s2 =>
          if Nat.eqb (nat_of_ascii a) 196 && Nat.eqb (nat_of_ascii b) 176 then
            String "i" (String (ascii_of_nat 204) (String (ascii_of_nat 135)
              (lowerSpecial s2)))
          else
            match s2 with
            | String c s3 =>
                if Nat.eqb (nat_of_ascii a) 226 && Nat.eqb (nat_of_ascii b) 132
                   && Nat.eqb (nat_of_ascii c) 170
                then String "k" (lowerSpecial s3)
                else String a (lowerSpecial s1)
            | EmptyString => String a (lowerSpecial s1)
            end
      | EmptyString => String a EmptyString
      end
  end.

(** [toLowerCase]: the ASCII capitals and the two characters above are
    lowered.  Every other character outside ASCII lowers to characters
    outside ASCII and is left as it is: the lowered text is only printed for
    the five method names and searched for ASCII words, so the ASCII letters
    of the result, and what lies between them, are all that is observed. *)
Definition toLowerCase (s : string) : string := lowerSpecial (map lower s).

(** The double quote, spliced into the emitted text. *)
Definition dq : string := String (ascii_of_nat 34) EmptyString.

(** The line feed of a template literal that spans lines. *)
Definition nl : string := String (ascii_of_nat 10) EmptyString.

(** [Array.prototype.join]. *)
Fixpoint join (sep : string) (l : list string) : string :=
  match l with
  | [] => EmptyString
  | [x] => x
  | x :: rest => x ++ sep ++ join sep rest
  end.

(** [String.prototype.includes]. *)
Fixpoint includes (s sub : string) : bool :=
  if String.prefix sub s then true
  else match s with
       | EmptyString => false
       | String _ s' => includes s' sub
       end.

(** Decimal form of an array index or of [Array.prototype.length]. *)
Definition of_nat (n : nat) : string := NilEmpty.string_of_uint (Nat.to_uint n).

(** Decimal form of an integer. *)
Definition of_Z (z : Z) : string := NilEmpty.string_of_int (Z.to_int z).

Definition mem (c : ascii) (s : string) : Prop := In c (list_ascii_of_string s).

End Str.

(** ** Path parameters: [extractPathParams]

    [pathTemplate.matchAll(/\{([^}]+)\}/g)], then the first capture group of
    every match. *)

(** [[^}]+] is greedy: the longest run of characters that are not a closing
    brace, with what follows it. *)
Fixpoint span_name (s : string) : string * string :=
  match s with
  | EmptyString => (EmptyString, EmptyString)
  | String c s' =>
      if Ascii.eqb c "}" then (EmptyString, s)
      else let '(name, rest) := span_name s' in (String c name, rest)
  end.

(** One attempt of [\{([^}]+)\}] at the start of [s]: the capture and the text
    after the match.  The run cannot be shortened to make the closing brace
    match, since the character after a shorter run is not a closing brace. *)
Definition match_placeholder (s : string) : option (string * string) :=
  match s with
  | String c s1 =>
      if Ascii.eqb c "{" then
        match span_name s1 with
        | (String n ns, String _ rest) => Some (String n ns, rest)
        | _ => None
        end
      else None
  | EmptyString => None
  end.

(** The global scan: a match resumes after itself, a failed attempt resumes
    one character further. *)
Equations? matchAll (s : string) : list string by wf (String.length s) lt :=
  matchAll EmptyString := [];
  matchAll (String c s') with inspect (match_placeholder (String c s')) := {
    | exist _ (Some (name, rest)) E => name :: matchAll rest;
    | exist _ None E => matchAll s' }.
Proof.
  assert (Hspan : forall t n r, span_name t = (n, r) ->
                    String.length t = String.length n + String.length r).
  { induction t as [|x t IH]; intros n r; simpl.
    - intros [= <- <-]; reflexivity.
    - destruct (Ascii.eqb x "}").
      + intros [= <- <-]; reflexivity.
      + destruct (span_name t) as [n0 r0]. intros [= <- <-]; simpl.
        now rewrite (IH n0 r0 eq_refl). }
  destruct (Ascii.eqb c "{"); [|discriminate E].
  destruct (span_name s') as [n r] eqn:Es.
  destruct n as [|n0 ns]; [discriminate E|].
  destruct r as [|r0 r']; [discriminate E|].
  injection E as <- <-. apply Hspan in Es. simpl in *. lia.
Qed.

Definition extractPathParams (pathTemplate : string) : list string :=
  matchAll pathTemplate.

(** ** Naming: [toCamelCase]

    [str.replace(/[-_]([a-z])/g, (_, letter) => letter.toUpperCase())]. *)
Definition is_separator (c : ascii) : bool :=
  Ascii.eqb c "-" || Ascii.eqb c "_".

Fixpoint toCamelCase (str : string) : string :=
  match str with
  | EmptyString => EmptyString
  | String c s' =>
      match s' with
      | String d rest =>
          if is_separator c && Str.is_lower d
          then String (Str.upper d) (toCamelCase rest)
          else String c (toCamelCase s')
      | EmptyString => String c EmptyString
      end
  end.

(** ** Decoded JSON documents

    The spec document is what [JSON.parse] returns.  An array or an object is
    a reference: it carries the address [loc] it was allocated at, which is
    all that [===] and a [Map] key observe of it.  The fields of an object are
    listed in the order [Object.entries] enumerates them.  Numbers are
    integers here: the code only tests a number for being zero, asks for its
    [typeof], compares it and prints it. *)
Definition loc := nat.

#[warnings="-register-all"]
Inductive value : Type :=
| VUndefined
| VNull
| VBool (b : bool)
| VNum (n : Z)
| VStr (s : string)
| VArr (l : loc) (items : list value)
| VObj (l : loc) (fields : list (string * value)).

(** What [===] (and the SameValueZero test of [Map]) observes of a value. *)
Inductive identity : Type :=
| IUndefined
| INull
| IBool (b : bool)
| INum (n : Z)
| IStr (s : string)
| IRef (l : loc).

#[global] Instance identity_eq_dec : EqDecision identity.
Proof.
  intros x y. unfold Decision.
  decide equality;
    first [apply Bool.bool_dec | apply Z.eq_dec | apply string_dec | apply Nat.eq_dec].
Defined.

Inductive error : Type :=
| TypeError.

(** A call returns a value or throws. *)
Inductive outcome (A : Type) : Type :=
| Returns (a : A)
| Throws (e : error).
Arguments Returns {A} a.
Arguments Throws {A} e.

#[global] Instance outcome_ret : MRet outcome := fun A a => Returns a.

#[global] Instance outcome_bind : MBind outcome := fun A B k m =>
  match m with
  | Returns a => k a
  | Throws e => Throws e
  end.

(** A [for ... of] loop over [l] that threads the mutated state [st]. *)
Fixpoint forOf {A S : Type} (body : S -> A -> outcome S) (l : list A) (st : S)
  : outcome S :=
  match l with
  | [] => Returns st
  | x :: rest => st' ← body st x; forOf body rest st'
  end.

Module JS.

Definition identity_of (v : value) : identity :=
  match v with
  | VUndefined => IUndefined
  | VNull => INull
  | VBool b => IBool b
  | VNum n => INum n
  | VStr s => IStr s
  | VArr l _ => IRef l
  | VObj l _ => IRef l
  end.

(** [a === b]. *)
Definition strict_eq (a b : value) : bool :=
  bool_decide (identity_of a = identity_of b).

(** [Boolean(v)], which is also what [if (v)] and [!v] test. *)
Definition truthy (v : value) : bool :=
  match v with
  | VUndefined | VNull => false
  | VBool b => b
  | VNum n => negb (Z.eqb n 0)
  | VStr s => negb (String.eqb s EmptyString)
  | VArr _ _ | VObj _ _ => true
  end.

Definition typeof (v : value) : string :=
  match v with
  | VUndefined => "undefined"
  | VNull => "object"
  | VBool _ => "boolean"
  | VNum _ => "number"
  | VStr _ => "string"
  | VArr _ _ | VObj _ _ => "object"
  end.

(** [v === null || v === undefined], the test behind [?.] and [??]. *)
Definition nullish (v : value) : bool :=
  match v with
  | VUndefined | VNull => true
  | _ => false
  end.

Definition isArray (v : value) : bool :=
  match v with
  | VArr _ _ => true
  | _ => false
  end.

Fixpoint indexed {A : Type} (i : nat) (l : list A) : list (string * A) :=
  match l with
  | [] => []
  | x :: rest => (Str.of_nat i, x) :: indexed (S i) rest
  end.

(** A UTF-16 code unit between U+D800 and U+DFFF, which UTF-8 has no form
    for, written in the three-byte form of the other code units. *)
Definition surrogate (u : N) : value :=
  VStr (String (ascii_of_N (224 + N.div u 4096))
          (String (ascii_of_N (128 + N.modulo (N.div u 64) 64))
             (String (ascii_of_N (128 + N.modulo u 64)) EmptyString))).

(** The code point, less 65536, of a character of four bytes. *)
Definition astral (a b c d : ascii) : N :=
  ((N_of_ascii a - 240) * 262144 + (N_of_ascii b - 128) * 4096
   + (N_of_ascii c - 128) * 64 + (N_of_ascii d - 128) - 65536)%N.

(** The strings [s[0]], [s[1]], ... of a string: one per UTF-16 code unit.
    A character of one, two or three bytes is one code unit; a character of
    four bytes is a pair of surrogates. *)
Fixpoint code_units (s : string) : list value :=
  match s with
  | EmptyString => []
  | String a s1 =>
      if N.ltb (N_of_ascii a) 192 then
        VStr (String a EmptyString) :: code_units s1
      else
        match s1 with
        | String b s2 =>
            if N.ltb (N_of_ascii a) 224 then
              VStr (String a (String b EmptyString)) :: code_units s2
            else
              match s2 with
              | String c s3 =>
                  if N.ltb (N_of_ascii a) 240 then
                    VStr (String a (String b (String c EmptyString)))
                      :: code_units s3
                  else
                    match s3 with
                    | String d s4 =>
                        surrogate (55296 + N.div (astral a b c d) 1024)
                          :: surrogate (56320 + N.modulo (astral a b c d) 1024)
                          :: code_units s4
                    | EmptyString =>
                        [VStr (String a (String b (String c EmptyString)))]
                    end
              | EmptyString => [VStr (String a (String b EmptyString))]
              end
        | EmptyString => [VStr (String a EmptyString)]
        end
  end.

(** The own enumerable string-keyed properties, as [Object.entries] lists
    them: the fields of an object, the elements of an array and the code
    units of a string under their indices, nothing for a boolean or a
    number. *)
Definition own_entries (v : value) : list (string * value) :=
  match v with
  | VObj _ fields => fields
  | VArr _ items => indexed 0 items
  | VStr s => indexed 0 (code_units s)
  | _ => []
  end.

Fixpoint assoc (k : string) (fields : list (string * value)) : value :=
  match fields with
  | [] => VUndefined
  | (k', v) :: rest => if String.eqb k k' then v else assoc k rest
  end.

(** The value of [v[k]] for a [v] that is neither [null] nor [undefined].
    None of the names the code reads ([paths], the five methods,
    [operationId], [requestBody], [parameters], [in], [summary], ...) is
    [length] or a member of a prototype, so a name that is not an own
    property reads as [undefined]. *)
Definition prop (v : value) (k : string) : value := assoc k (own_entries v).

(** [v[k]]: reading a property of [null] or [undefined] throws. *)
Definition get (v : value) (k : string) : outcome value :=
  if nullish v then Throws TypeError else Returns (prop v k).

(** [Object.entries(v)] and [Object.values(v)]. *)
Definition entries (v : value) : outcome (list (string * value)) :=
  if nullish v then Throws TypeError else Returns (own_entries v).

Definition values (v : value) : outcome (list value) :=
  if nullish v then Throws TypeError else Returns (List.map snd (own_entries v)).

(** [items[0]]. *)
Definition first (items : list value) : value :=
  match items with
  | [] => VUndefined
  | x :: _ => x
  end.

(** [a ?? b]. *)
Definition coalesce (a b : value) : value := if nullish a then b else a.

(** *** How a number is printed: [Number::toString]

    The nearest Number to a positive integer, ties to even: the integer kept
    to 53 significant bits. *)
Definition round53 (m : Z) : Z :=
  let bits := (Z.log2 m + 1)%Z in
  if (bits <=? 53)%Z then m
  else
    let shift := (bits - 53)%Z in
    let q := Z.shiftr m shift in
    let r := (m - Z.shiftl q shift)%Z in
    let half := Z.shiftl 1 (shift - 1) in
    let up := (half <? r)%Z || ((r =? half)%Z && Z.odd q) in
    Z.shiftl (if up then q + 1 else q)%Z shift.

Definition count_digits (m : Z) : Z := Z.of_nat (String.length (Str.of_Z m)).

(** The [k] digits [s] and the exponent [n] with [s * 10 ^ (n - k)] rounding
    to [x], if there are such: of the two candidates around [x], the nearer
    one, and the even one when they are as near. *)
Definition shortest_at (x k : Z) : option (Z * Z) :=
  let n := count_digits x in
  if (n <? k)%Z then None
  else
    let p := (10 ^ (n - k))%Z in
    let low := (x / p)%Z in
    let high := (low + 1)%Z in
    let low_ok := (round53 (low * p) =? x)%Z in
    let high_ok := (round53 (high * p) =? x)%Z in
    let above :=
      if (high =? 10 ^ k)%Z then (10 ^ (k - 1), n + 1)%Z else (high, n) in
    match low_ok, high_ok with
    | true, true =>
        let below_by := (x - low * p)%Z in
        let above_by := (high * p - x)%Z in
        if (below_by <? above_by)%Z then Some (low, n)
        else if (above_by <? below_by)%Z then Some above
        else if Z.even low then Some (low, n) else Some above
    | true, false => Some (low, n)
    | false, true => Some above
    | false, false => None
    end.

(** The least number of digits that gives [x] back; 17 always do. *)
Fixpoint shortest (fuel : nat) (k x : Z) : option (Z * Z) :=
  match fuel with
  | O => None
  | S fuel' =>
      match shortest_at x k with
      | Some found => Some found
      | None => shortest fuel' (k + 1)%Z x
      end
  end.

Fixpoint zeros (n : nat) : string :=
  match n with
  | O => EmptyString
  | S n' => String "0" (zeros n')
  end.

(** [String(z)] for an integer Number [z]: the shortest digits that give
    the Number back, followed by zeros up to 21 digits and by an exponent
    beyond.  An integer that no Number holds is printed in full. *)
Definition number_to_string (z : Z) : string :=
  if (z =? 0)%Z then "0"
  else
    let x := Z.abs z in
    (if (z <? 0)%Z then "-" else EmptyString)
      ++ match shortest 17 1 x with
         | None => Str.of_Z x
         | Some (s, n) =>
             if (n <=? 21)%Z
             then Str.of_Z s ++ zeros (Z.to_nat (n - count_digits s))
             else
               match Str.of_Z s with
               | String d rest =>
                   String d
                     (match rest with
                      | EmptyString => EmptyString
                      | _ => String "." rest
                      end)
                     ++ "e+" ++ Str.of_Z (n - 1)
               | EmptyString => EmptyString
               end
         end.

(** An own property [k] of an object. *)
Definition has_own (k : string) (fields : list (string * value)) : bool :=
  existsb (fun entry => String.eqb k (fst entry)) fields.

(** [String(v)], which is also how a template literal prints [v].  An
    array is the join of its elements, [null] and [undefined] printed as
    nothing.  A decoded object is ["[object Object]"] through
    [Object.prototype.toString], unless it has an own [toString] property:
    no decoded value is a function, so the own property is not callable, the
    inherited [valueOf] returns the object itself, and the conversion throws
    a [TypeError]. *)
Fixpoint to_string (v : value) : outcome string :=
  match v with
  | VUndefined => Returns "undefined"
  | VNull => Returns "null"
  | VBool true => Returns "true"
  | VBool false => Returns "false"
  | VNum n => Returns (number_to_string n)
  | VStr s => Returns s
  | VArr _ items =>
      let fix each (l : list value) : outcome (list string) :=
        match l with
        | [] => Returns []
        | x :: rest =>
            text ← (if nullish x then Returns EmptyString else to_string x);
            texts ← each rest;
            Returns (text :: texts)
        end in
      texts ← each items;
      Returns (Str.join "," texts)
  | VObj _ fields =>
      if has_own "toString" fields then Throws TypeError
      else Returns "[object Object]"
  end.

End JS.

(** ** The operation extractor: [parseOperations] *)

Record OperationMetadata : Type := mkOperationMetadata {
  operationId : string;
  method : string;
  path : string;
  pathParams : list string;
  hasRequestBody : bool;
  hasQueryParams : bool;
  (** [summary] and [description] are declared [string]; the extractor stores
      whatever the document holds there. *)
  summary : value;
  description : value
}.

(** A call of the logger: its level, the fields it is given and its text. *)
Inductive log_level : Type :=
| LevelWarn
| LevelDebug.

Record log_entry : Type := mkLogEntry {
  level : log_level;
  context : list (string * string);
  message : string
}.

(** The array being filled and the calls made to [logger] so far. *)
Record parse_state : Type := mkParseState {
  operations : list OperationMetadata;
  logged : list log_entry
}.

Definition METHODS : list string := ["get"; "post"; "put"; "delete"; "patch"].

(** The callback of [parameters.some(...)], on the elements in order until
    one answers [true]. *)
Fixpoint some_in_query (items : list value) : outcome bool :=
  match items with
  | [] => Returns false
  | param :: rest =>
      where_ ← JS.get param "in";
      if JS.strict_eq where_ (VStr "query") then Returns true
      else some_in_query rest
  end.

(** [parameters?.some((param) => param.in === "query") ?? false]: calling
    [some] on a value that is not an array throws, since no decoded value
    besides an array has a function under that name. *)
Definition queryParamsOf (parameters : value) : outcome bool :=
  if JS.nullish parameters then Returns false
  else match parameters with
       | VArr _ items => some_in_query items
       | _ => Throws TypeError
       end.

(** The skip test [!operation.operationId || typeof operation.operationId
    !== "string"]. *)
Definition skipsOperationId (id : value) : bool :=
  negb (JS.truthy id) || negb (String.eqb (JS.typeof id) "string").

(** The body of the inner loop, for one path item and one method. *)
Definition parseOperation (pathTemplate : string) (pathItem : value)
    (st : parse_state) (method : string) : outcome parse_state :=
  operation ← JS.get pathItem method;
  if negb (JS.truthy operation) then Returns st
  else
    id ← JS.get operation "operationId";
    if skipsOperationId id then
      Returns
        {| operations := operations st;
           logged := (logged st ++
             [ {| level := LevelWarn;
                  context := [("method", Str.toUpperCase method);
                              ("path", pathTemplate)];
                  message := "Skipping operation without operationId" |} ])%list |}
    else
      match id with
      | VStr operationId =>
          let pathParams := extractPathParams pathTemplate in
          requestBody ← JS.get operation "requestBody";
          let hasRequestBody := JS.truthy requestBody in
          parameters ← JS.get operation "parameters";
          hasQueryParams ← queryParamsOf parameters;
          summary ← JS.get operation "summary";
          description ← JS.get operation "description";
          Returns
            {| operations := (operations st ++
                 [ {| operationId := operationId;
                      method := method;
                      path := pathTemplate;
                      pathParams := pathParams;
                      hasRequestBody := hasRequestBody;
                      hasQueryParams := hasQueryParams;
                      summary := JS.coalesce summary (VStr EmptyString);
                      description := JS.coalesce description (VStr EmptyString) |} ])%list;
               logged := (logged st ++
                 [ {| level := LevelDebug;
                      context := [("operationId", operationId)];
                      message := "Found operation" |} ])%list |}
      | _ => Returns st
      end.

Definition parsePathItem (st : parse_state) (entry : string * value)
  : outcome parse_state :=
  forOf (parseOperation (fst entry) (snd entry)) METHODS st.

Definition parseOperations (spec : value) : outcome parse_state :=
  let start := {| operations := []; logged := [] |} in
  if negb (String.eqb (JS.typeof spec) "object") || JS.strict_eq spec VNull then
    Returns start
  else
    paths ← JS.get spec "paths";
    if negb (JS.truthy paths) then Returns start
    else
      pathEntries ← JS.entries paths;
      forOf parsePathItem pathEntries start.

(** ** The code emitter: the operations module

    The text of the template literals of [generateOperationsFileContent], a
    line of the source per element. *)

(** The header, up to the stamp [new Date().toISOString()]. *)
Definition header_before_stamp : string :=
  Str.join Str.nl
    [ "/**";
      " * Auto-generated API operations from OpenAPI spec.";
      " * ";
      " * This file is automatically generated by chowbea-axios CLI.";
      " * DO NOT EDIT MANUALLY - your changes will be overwritten.";
      " * ";
      " * Last generated: " ].

(** Between the stamp and [operations.length]. *)
Definition header_before_count : string :=
  Str.join Str.nl
    [ EmptyString;
      " * Total operations: " ].

(** The rest of the header: the type helpers and the opening of
    [createOperations]. *)
Definition header_after_count : string :=
  Str.join Str.nl
    [ EmptyString;
      " */";
      EmptyString;
      "/* ~ =================================== ~ */";
      "/* -- This file provides semantic operation-based API functions -- */";
      "/* -- Use apiClient.op.operationName() instead of raw paths -- */";
      "/* ~ =================================== ~ */";
      EmptyString;
      "import type { paths } from " ++ Str.dq ++ "./api.types" ++ Str.dq;
      "import type { AxiosRequestConfig } from " ++ Str.dq ++ "axios" ++ Str.dq;
      "import type { Result } from " ++ Str.dq ++ "../api.error" ++ Str.dq;
      EmptyString;
      "/* ~ =================================== ~ */";
      "/* -- Type Helpers -- */";
      "/* ~ =================================== ~ */";
      EmptyString;
      "/**";
      " * Extracts the operation definition for a given path and method.";
      " */";
      "type Operation<";
      "  P extends keyof paths,";
      "  M extends " ++ Str.dq ++ "get" ++ Str.dq ++ " | " ++ Str.dq ++ "post" ++ Str.dq ++ " | " ++ Str.dq ++ "put" ++ Str.dq ++ " | " ++ Str.dq ++ "delete" ++ Str.dq ++ " | " ++ Str.dq ++ "patch" ++ Str.dq;
      "> = paths[P][M]";
      EmptyString;
      "/**";
      " * Maps OpenAPI form-data field types to their runtime equivalents.";
      " * Uses field names to intelligently detect file upload fields vs regular string fields.";
      " * ";
      " * File field patterns: images, files, attachments, uploads, documents, photos, videos, media";
      " * Regular string fields: All other string/string[] fields remain unchanged";
      " */";
      "type MapFormDataTypes<T> = T extends Record<string, unknown>";
      "  ? {";
      "      [K in keyof T]: ";
      "        // Check if field name suggests it's a file upload field";
      "        K extends `${string}image${string}` | `${string}file${string}` | `${string}attachment${string}` | ";
      "                   `${string}upload${string}` | `${string}document${string}` | `${string}photo${string}` | ";
      "                   `${string}video${string}` | `${string}media${string}`";
      "          ? T[K] extends string[]";
      "            ? File[]  // File upload fields become File[]";
      "            : T[K] extends string";
      "              ? File | Blob  // Single file becomes File or Blob";
      "              : T[K]";
      "          : T[K];  // Non-file fields keep their original type";
      "    }";
      "  : T;";
      EmptyString;
      "/**";
      " * Extracts the request body type for a given path and method directly from OpenAPI spec.";
      " * Handles both JSON (application/json) and FormData (multipart/form-data) content types.";
      " * For form-data, maps string/string[] types to File/File[] for file upload fields.";
      " * Converts Record<string, never> (from generic object schemas) to Record<string, unknown>.";
      " */";
      "type RequestBody<";
      "  P extends keyof paths,";
      "  M extends " ++ Str.dq ++ "get" ++ Str.dq ++ " | " ++ Str.dq ++ "post" ++ Str.dq ++ " | " ++ Str.dq ++ "put" ++ Str.dq ++ " | " ++ Str.dq ++ "delete" ++ Str.dq ++ " | " ++ Str.dq ++ "patch" ++ Str.dq;
      "> = ";
      "  Operation<P, M> extends { requestBody: { content: { " ++ Str.dq ++ "application/json" ++ Str.dq ++ ": infer T } } }";
      "    ? T extends Record<string, never>";
      "      ? Record<string, unknown>";
      "      : T";
      "    : Operation<P, M> extends { requestBody?: { content: { " ++ Str.dq ++ "application/json" ++ Str.dq ++ ": infer T } } }";
      "    ? T extends Record<string, never>";
      "      ? Record<string, unknown>";
      "      : T";
      "    : Operation<P, M> extends { requestBody: { content: { " ++ Str.dq ++ "multipart/form-data" ++ Str.dq ++ ": infer T } } }";
      "    ? MapFormDataTypes<T>";
      "    : Operation<P, M> extends { requestBody?: { content: { " ++ Str.dq ++ "multipart/form-data" ++ Str.dq ++ ": infer T } } }";
      "    ? MapFormDataTypes<T>";
      "    : never";
      EmptyString;
      "/**";
      " * Extracts the response data type for a given path and method from OpenAPI spec.";
      " * Defaults to 200 status code response.";
      " */";
      "type ResponseData<";
      "  P extends keyof paths,";
      "  M extends " ++ Str.dq ++ "get" ++ Str.dq ++ " | " ++ Str.dq ++ "post" ++ Str.dq ++ " | " ++ Str.dq ++ "put" ++ Str.dq ++ " | " ++ Str.dq ++ "delete" ++ Str.dq ++ " | " ++ Str.dq ++ "patch" ++ Str.dq;
      "> = Operation<P, M> extends {";
      "  responses: { 200: { content: { " ++ Str.dq ++ "application/json" ++ Str.dq ++ ": infer T } } }";
      "}";
      "  ? T";
      "  : Operation<P, M> extends {";
      "      responses: { 201: { content: { " ++ Str.dq ++ "application/json" ++ Str.dq ++ ": infer T } } }";
      "    }";
      "  ? T";
      "  : unknown";
      EmptyString;
      "/**";
      " * Extracts query parameters for a given path and method from OpenAPI spec.";
      " */";
      "type QueryParams<";
      "  P extends keyof paths,";
      "  M extends " ++ Str.dq ++ "get" ++ Str.dq ++ " | " ++ Str.dq ++ "post" ++ Str.dq ++ " | " ++ Str.dq ++ "put" ++ Str.dq ++ " | " ++ Str.dq ++ "delete" ++ Str.dq ++ " | " ++ Str.dq ++ "patch" ++ Str.dq;
      "> = Operation<P, M> extends { parameters: { query?: infer Q } }";
      "  ? Q extends Record<string, unknown>";
      "    ? Q";
      "    : never";
      "  : never";
      EmptyString;
      "/**";
      " * Request config with typed query parameters extracted from OpenAPI spec.";
      " */";
      "type RequestConfig<";
      "  P extends keyof paths,";
      "  M extends " ++ Str.dq ++ "get" ++ Str.dq ++ " | " ++ Str.dq ++ "post" ++ Str.dq ++ " | " ++ Str.dq ++ "put" ++ Str.dq ++ " | " ++ Str.dq ++ "delete" ++ Str.dq ++ " | " ++ Str.dq ++ "patch" ++ Str.dq;
      "> = Omit<AxiosRequestConfig, " ++ Str.dq ++ "params" ++ Str.dq ++ "> & {";
      "  params?: QueryParams<P, M>";
      "}";
      EmptyString;
      "/* ~ =================================== ~ */";
      "/* -- Generated Operations -- */";
      "/* ~ =================================== ~ */";
      EmptyString;
      "/**";
      " * Collection of all API operations extracted from the OpenAPI spec.";
      " * Each operation is a typed function that wraps the underlying apiClient methods.";
      " * ";
      " * @example";
      " * ```typescript";
      " * // Using operation-based API";
      " * await apiClient.op.getUserById({ id: " ++ Str.dq ++ "123" ++ Str.dq ++ " })";
      " * ";
      " * // With query parameters";
      " * await apiClient.op.listUsers({ params: { limit: 10, offset: 0 } })";
      " * ";
      " * // With request body";
      " * await apiClient.op.createUser({ name: " ++ Str.dq ++ "John" ++ Str.dq ++ ", email: " ++ Str.dq ++ "john@example.com" ++ Str.dq ++ " })";
      " * ```";
      " */";
      "export const createOperations = (apiClient: any) => ({";
      EmptyString ].

(** The footer. *)
Definition footer : string :=
  Str.join Str.nl
    [ "}) as const";
      EmptyString;
      "/**";
      " * Type representing all available API operations.";
      " * This type is inferred from the createOperations return value for proper TypeScript support.";
      " */";
      "export type ApiOperations = ReturnType<typeof createOperations>";
      EmptyString ].

(** [generatePathParamsType]; [None] is the [null] of the source. *)
Definition generatePathParamsType (pathParams : list string) : option string :=
  match pathParams with
  | [] => None
  | _ =>
      let params :=
        Str.join ", "
          (List.map (fun param => toCamelCase param ++ ": string | number")
                    pathParams) in
      Some ("{ " ++ params ++ " }")
  end.

(** How a template literal prints a [string | null]. *)
Definition print_nullable (s : option string) : string :=
  match s with
  | Some t => t
  | None => "null"
  end.

Definition quoted (s : string) : string := Str.dq ++ s ++ Str.dq.

(** [pathParams.length > 0]. *)
Definition nonEmpty {A : Type} (l : list A) : bool := Nat.ltb 0 (List.length l).

(** The [apiClient] call of one operation, the [apiCall] variable of
    [generateOperationFunction]. *)
Definition apiCall (operation : OperationMetadata) : string :=
  let httpMethod := Str.toLowerCase (method operation) in
  let pathTemplate := path operation in
  if hasRequestBody operation then
    if nonEmpty (pathParams operation) then
      "apiClient." ++ httpMethod ++ "(" ++ quoted pathTemplate
        ++ ", data, pathParams, config)"
    else
      "apiClient." ++ httpMethod ++ "(" ++ quoted pathTemplate
        ++ ", data, config)"
  else if String.eqb httpMethod "patch" then
    if nonEmpty (pathParams operation) then
      "apiClient." ++ httpMethod ++ "(" ++ quoted pathTemplate
        ++ ", undefined, pathParams, config)"
    else
      "apiClient." ++ httpMethod ++ "(" ++ quoted pathTemplate
        ++ ", undefined, config)"
  else if nonEmpty (pathParams operation) then
    "apiClient." ++ httpMethod ++ "(" ++ quoted pathTemplate
      ++ ", pathParams, config)"
  else
    "apiClient." ++ httpMethod ++ "(" ++ quoted pathTemplate ++ ", config)".

(** The parameter list of the generated function. *)
Definition functionParams (operation : OperationMetadata) : string :=
  let httpMethod := Str.toLowerCase (method operation) in
  let pathTemplate := path operation in
  let pathParamsParam :=
    "pathParams: "
      ++ print_nullable (generatePathParamsType (pathParams operation)) in
  let dataParam :=
    "data: RequestBody<" ++ quoted pathTemplate ++ ", "
      ++ quoted httpMethod ++ ">" in
  let configParam :=
    "config?: RequestConfig<" ++ quoted pathTemplate ++ ", "
      ++ quoted httpMethod ++ ">" in
  let params :=
    List.app (if nonEmpty (pathParams operation) then [pathParamsParam] else [])
      (List.app (if hasRequestBody operation then [dataParam] else [])
         [configParam]) in
  Str.join ", " params.

(** The JSDoc comment of the generated function; the two template literals
    print a [summary] and a [description] that hold something. *)
Definition jsdoc (operation : OperationMetadata) : outcome (list string) :=
  summaryLines ←
    (if JS.truthy (summary operation) then
       text ← JS.to_string (summary operation);
       Returns ["   * " ++ text]
     else Returns []);
  descriptionLines ←
    (if JS.truthy (description operation)
        && negb (JS.strict_eq (description operation) (summary operation))
     then
       text ← JS.to_string (description operation);
       Returns ["   * " ++ text]
     else Returns []);
  Returns
    (List.app ["  /**"]
       (List.app summaryLines
          (List.app descriptionLines
             ["   * ";
              "   * @operationId " ++ operationId operation;
              "   * @method " ++ Str.toUpperCase (method operation);
              "   * @path " ++ path operation;
              "   */"]))).

Definition generateOperationFunction (operation : OperationMetadata)
  : outcome string :=
  let httpMethod := Str.toLowerCase (method operation) in
  lines ← jsdoc operation;
  let returnType :=
    "Promise<Result<ResponseData<" ++ quoted (path operation) ++ ", "
      ++ quoted httpMethod ++ ">>>" in
  Returns
    (Str.join Str.nl lines ++ Str.nl
       ++ "  " ++ operationId operation ++ ": (" ++ functionParams operation
       ++ "): " ++ returnType ++ " => " ++ apiCall operation ++ "," ++ Str.nl).

(** [operations.map((op) => generateOperationFunction(op))]. *)
Fixpoint generateOperationFunctions (operations : list OperationMetadata)
  : outcome (list string) :=
  match operations with
  | [] => Returns []
  | operation :: rest =>
      text ← generateOperationFunction operation;
      texts ← generateOperationFunctions rest;
      Returns (text :: texts)
  end.

(** [generateOperationsFileContent]; [now] is what [new
    Date().toISOString()] answers when the header is built. *)
Definition generateOperationsFileContent (now : string)
    (operations : list OperationMetadata) : outcome string :=
  let header :=
    header_before_stamp ++ now ++ header_before_count
      ++ Str.of_nat (List.length operations) ++ header_after_count in
  texts ← generateOperationFunctions operations;
  let operationFunctions := Str.join Str.nl texts in
  Returns (header ++ operationFunctions ++ footer).

(** Extraction followed by rendering, as [generate] chains them on the
    decoded spec. *)
Definition extractAndRender (now : string) (spec : value) : outcome string :=
  st ← parseOperations spec;
  generateOperationsFileContent now (operations st).

(** ** The spec differ: [Diff.extractOperations], [Diff.hasChanges] and the
    diff computation of [Diff.run] *)
Module Diff.

Record OperationInfo : Type := mkOperationInfo {
  (** Declared [string]; [extractOperations] stores any truthy value. *)
  operationId : value;
  method : string;
  path : string;
  hasRequestBody : bool;
  summary : value
}.

(** A JavaScript [Map]: the entries in insertion order, the keys compared
    as [Map] compares them. *)
Definition Map : Type := list (identity * OperationInfo).

Definition keys (m : Map) : list identity := List.map fst m.

(** [m.get(k)]; [None] is [undefined]. *)
Fixpoint map_get (k : identity) (m : Map) : option OperationInfo :=
  match m with
  | [] => None
  | (k', v) :: rest => if decide (k = k') then Some v else map_get k rest
  end.

(** [m.has(k)]. *)
Definition map_has (k : identity) (m : Map) : bool :=
  match map_get k m with
  | Some _ => true
  | None => false
  end.

(** [m.set(k, v)]: a key already present keeps its place, a new key goes
    last. *)
Fixpoint map_set (k : identity) (v : OperationInfo) (m : Map) : Map :=
  match m with
  | [] => [(k, v)]
  | (k', v') :: rest =>
      if decide (k = k') then (k, v) :: rest else (k', v') :: map_set k v rest
  end.

(** The body of the inner loop of [extractOperations]. *)
Definition extractOperation (pathTemplate : string) (pathItem : value)
    (operations : Map) (method : string) : outcome Map :=
  operation ← JS.get pathItem method;
  if negb (JS.truthy operation) then Returns operations
  else
    operationId ← JS.get operation "operationId";
    if negb (JS.truthy operationId) then Returns operations
    else
      requestBody ← JS.get operation "requestBody";
      summary ← JS.get operation "summary";
      Returns
        (map_set (JS.identity_of operationId)
           {| operationId := operationId;
              method := method;
              path := pathTemplate;
              hasRequestBody := JS.truthy requestBody;
              summary := JS.coalesce summary (VStr EmptyString) |}
           operations).

Definition extractPathItem (operations : Map) (entry : string * value)
  : outcome Map :=
  forOf (extractOperation (fst entry) (snd entry)) METHODS operations.

Definition extractOperations (spec : value) : outcome Map :=
  if negb (String.eqb (JS.typeof spec) "object") || JS.strict_eq spec VNull then
    Returns []
  else
    paths ← JS.get spec "paths";
    if negb (JS.truthy paths) then Returns []
    else
      pathEntries ← JS.entries paths;
      forOf extractPathItem pathEntries [].

(** [hasChanges]: [!==] on the four compared fields. *)
Definition hasChanges (a b : OperationInfo) : bool :=
  negb (String.eqb (method a) (method b))
  || negb (String.eqb (path a) (path b))
  || negb (Bool.eqb (hasRequestBody a) (hasRequestBody b))
  || negb (JS.strict_eq (summary a) (summary b)).

(** The three arrays [run] fills. *)
Record changes : Type := mkChanges {
  added : list OperationInfo;
  removed : list OperationInfo;
  modified : list (OperationInfo * OperationInfo)
}.

(** The first loop of [run], over the entries of [newOperations]. *)
Definition visitNew (currentOperations : Map) (acc : changes)
    (entry : identity * OperationInfo) : changes :=
  let '(id, newOp) := entry in
  match map_get id currentOperations with
  | None =>
      {| added := (added acc ++ [newOp])%list;
         removed := removed acc;
         modified := modified acc |}
  | Some currentOp =>
      if hasChanges currentOp newOp then
        {| added := added acc;
           removed := removed acc;
           modified := (modified acc ++ [(currentOp, newOp)])%list |}
      else acc
  end.

(** The second loop of [run], over the entries of [currentOperations]. *)
Definition visitCurrent (newOperations : Map) (acc : changes)
    (entry : identity * OperationInfo) : changes :=
  let '(id, currentOp) := entry in
  if negb (map_has id newOperations) then
    {| added := added acc;
       removed := (removed acc ++ [currentOp])%list;
       modified := modified acc |}
  else acc.

Definition computeChanges (currentOperations newOperations : Map) : changes :=
  let start := {| added := []; removed := []; modified := [] |} in
  let afterNew := fold_left (visitNew currentOperations) newOperations start in
  fold_left (visitCurrent newOperations) currentOperations afterNew.

End Diff.

(** ** The spec validator: [Validate.validateSpec] *)
Module Validate.

Inductive severity : Type :=
| SeverityError
| SeverityWarning.

Record ValidationIssue : Type := mkValidationIssue {
  severity_of : severity;
  path : string;
  message : string
}.

Definition missingOperationId (pathKey method : string) : ValidationIssue :=
  {| severity_of := SeverityWarning;
     path := "/paths" ++ pathKey ++ "/" ++ method;
     message :=
       "Missing operationId - operation will be skipped during generation" |}.

Definition missingResponses (pathKey method : string) : ValidationIssue :=
  {| severity_of := SeverityWarning;
     path := "/paths" ++ pathKey ++ "/" ++ method;
     message := "Missing responses definition" |}.

(** The body of the loop over the methods. *)
Definition validateOperation (pathKey : string) (pathObj : value)
    (issues : list ValidationIssue) (method : string)
  : outcome (list ValidationIssue) :=
  operation ← JS.get pathObj method;
  if negb (JS.truthy operation) then Returns issues
  else
    operationId ← JS.get operation "operationId";
    let issues1 :=
      if negb (JS.truthy operationId)
      then (issues ++ [missingOperationId pathKey method])%list
      else issues in
    responses ← JS.get operation "responses";
    let issues2 :=
      if negb (JS.truthy responses)
      then (issues1 ++ [missingResponses pathKey method])%list
      else issues1 in
    Returns issues2.

(** The body of the loop over the entries of [paths]. *)
Definition validatePathItem (issues : list ValidationIssue)
    (entry : string * value) : outcome (list ValidationIssue) :=
  let '(pathKey, pathItem) := entry in
  if negb (String.eqb (JS.typeof pathItem) "object") || JS.strict_eq pathItem VNull
  then
    Returns
      (issues ++
         [ {| severity_of := SeverityError;
              path := "/paths" ++ pathKey;
              message := "Path item must be an object" |} ])%list
  else forOf (validateOperation pathKey pathItem) METHODS issues.

Definition validateSpec (spec : value) : outcome (list ValidationIssue) :=
  if negb (String.eqb (JS.typeof spec) "object") || JS.strict_eq spec VNull then
    Returns
      [ {| severity_of := SeverityError;
           path := "/";
           message := "Spec must be a valid JSON object" |} ]
  else
    openapi ← JS.get spec "openapi";
    swagger ← JS.get spec "swagger";
    let issues1 :=
      if negb (JS.truthy openapi || JS.truthy swagger)
      then [ {| severity_of := SeverityError;
                path := "/";
                message := "Missing 'openapi' or 'swagger' version field" |} ]
      else [] in
    info ← JS.get spec "info";
    let issues2 :=
      if negb (JS.truthy info)
      then (issues1 ++
              [ {| severity_of := SeverityError;
                   path := "/info";
                   message := "Missing required 'info' object" |} ])%list
      else issues1 in
    paths ← JS.get spec "paths";
    issues3 ←
      (if JS.truthy paths then
         pathEntries ← JS.entries paths;
         forOf validatePathItem pathEntries issues2
       else
         Returns
           (issues2 ++
              [ {| severity_of := SeverityWarning;
                   path := "/paths";
                   message := "No paths defined in spec" |} ])%list);
    components ← JS.get spec "components";
    if JS.truthy components then
      schemas ← JS.get components "schemas";
      if negb (JS.truthy schemas) then
        Returns
          (issues3 ++
             [ {| severity_of := SeverityWarning;
                  path := "/components";
                  message := "No schemas defined in components" |} ])%list
      else Returns issues3
    else Returns issues3.

End Validate.

(** ** The generated error module: the functions of the template of
    [generateErrorFileContent] *)
Module ApiErrorModule.

Definition FALLBACK : string := "An unexpected error occurred".

(** [v?.[k]]. *)
Definition optional_get (v : value) (k : string) : outcome value :=
  if JS.nullish v then Returns VUndefined else JS.get v k.

(** [v[0]] on an array. *)
Definition first_item (v : value) : value :=
  match v with
  | VArr _ items => JS.first items
  | _ => VUndefined
  end.

Definition array_length (v : value) : nat :=
  match v with
  | VArr _ items => List.length items
  | _ => 0
  end.

Definition is_string (v : value) : bool := String.eqb (JS.typeof v) "string".

(** The [if (e.error) { ... }] block: [Some] is a [return]. *)
Definition fromError (e : value) : outcome (option value) :=
  error ← JS.get e "error";
  if JS.truthy error then
    if is_string error then Returns (Some error)
    else
      inner ← optional_get error "message";
      if is_string inner then Returns (Some inner) else Returns None
  else Returns None.

(** The [if (e.errors) { ... }] block. *)
Definition fromErrors (e : value) : outcome (option value) :=
  errors ← JS.get e "errors";
  if JS.truthy errors then
    if JS.isArray errors then
      let first := first_item errors in
      if is_string first then Returns (Some first)
      else
        inner ← optional_get first "message";
        if is_string inner then Returns (Some inner) else Returns None
    else if String.eqb (JS.typeof errors) "object" then
      fields ← JS.values errors;
      let firstField := JS.first fields in
      if JS.isArray firstField && Nat.ltb 0 (array_length firstField) then
        text ← JS.to_string (first_item firstField);
        Returns (Some (VStr text))
      else Returns None
    else Returns None
  else Returns None.

(** The two [detail] tests: [typeof e.detail === "string"], then
    [Array.isArray(e.detail) && e.detail[0]?.msg], which returns
    [e.detail[0].msg] as it is. *)
Definition fromDetail (e : value) : outcome (option value) :=
  detail ← JS.get e "detail";
  if is_string detail then Returns (Some detail)
  else if JS.isArray detail then
    msg ← optional_get (first_item detail) "msg";
    if JS.truthy msg then
      again ← JS.get (first_item detail) "msg";
      Returns (Some again)
    else Returns None
  else Returns None.

Definition normalizeErrorMessage (error : value) : outcome value :=
  if negb (JS.truthy error) || negb (String.eqb (JS.typeof error) "object") then
    Returns (VStr FALLBACK)
  else
    message ← JS.get error "message";
    if is_string message then Returns message
    else
      r1 ← fromError error;
      match r1 with
      | Some v => Returns v
      | None =>
          r2 ← fromErrors error;
          match r2 with
          | Some v => Returns v
          | None =>
              r3 ← fromDetail error;
              match r3 with
              | Some v => Returns v
              | None =>
                  title ← JS.get error "title";
                  if is_string title then Returns title
                  else Returns (VStr FALLBACK)
              end
          end
      end.

(** What axios hands over, as its type declarations give it. *)
Record AxiosRequestConfig : Type := mkAxiosRequestConfig {
  config_method : option string;
  config_url : option string;
  config_baseURL : option string;
  config_params : value;
  config_data : value
}.

Record AxiosResponse : Type := mkAxiosResponse {
  response_data : value;
  response_status : Z
}.

Record AxiosError : Type := mkAxiosError {
  error_code : option string;
  error_message : string;
  error_config : option AxiosRequestConfig;
  error_response : option AxiosResponse
}.

(** What a rejected request throws: an [AxiosError], another [Error], or
    any other value. *)
Inductive thrown : Type :=
| ThrownAxiosError (err : AxiosError)
| ThrownError (message : string)
| ThrownValue (v : value).

Record RequestContext : Type := mkRequestContext {
  method : string;
  url : string;
  baseURL : option string;
  params : value;
  data : value
}.

Inductive error_details : Type :=
| NetworkDetails (code : option string) (message : string)
| ResponseDetails (body : value)
| UnknownDetails (err : thrown).

Record ApiError : Type := mkApiError {
  (** Declared [string]; it is what [normalizeErrorMessage] returned. *)
  message : value;
  code : string;
  status : option Z;
  request : RequestContext;
  details : error_details
}.

(** [Result<T>]: [None] is the [null] of the [error] field. *)
Record Result : Type := mkResult {
  result_data : value;
  result_error : option ApiError
}.

Definition SENSITIVE_FIELDS : list string :=
  ["password"; "token"; "secret"; "authorization"; "apikey"; "api_key";
   "access_token"; "refresh_token"].

Definition is_sensitive (key : string) : bool :=
  existsb (fun s => Str.includes (Str.toLowerCase key) s) SENSITIVE_FIELDS.

(** [redactSensitive]; the copy [{ ...data }] is allocated at [fresh]. *)
Definition redactSensitive (fresh : loc) (data : value) : value :=
  if negb (JS.truthy data) || negb (String.eqb (JS.typeof data) "object") then data
  else
    VObj fresh
      (List.map
         (fun '(key, v) => (key, if is_sensitive key then VStr "[REDACTED]" else v))
         (JS.own_entries data)).

(** [a || b] on an optional string. *)
Definition or_default (a : option string) (b : string) : string :=
  match a with
  | Some s => if String.eqb s EmptyString then b else s
  | None => b
  end.

Definition extractRequestContext (fresh : loc) (err : AxiosError) : RequestContext :=
  let config := error_config err in
  {| method :=
       or_default (option_map Str.toUpperCase (config ≫= config_method)) "UNKNOWN";
     url := or_default (config ≫= config_url) "unknown";
     baseURL := config ≫= config_baseURL;
     params := from_option config_params VUndefined config;
     data := redactSensitive fresh (from_option config_data VUndefined config) |}.

Definition getErrorCode (status : Z) : string :=
  if Z.leb 500 status then "SERVER_ERROR"
  else if Z.eqb status 400 then "BAD_REQUEST"
  else if Z.eqb status 401 then "UNAUTHORIZED"
  else if Z.eqb status 403 then "FORBIDDEN"
  else if Z.eqb status 404 then "NOT_FOUND"
  else if Z.eqb status 409 then "CONFLICT"
  else if Z.eqb status 422 then "VALIDATION_ERROR"
  else if Z.eqb status 429 then "RATE_LIMITED"
  else "REQUEST_ERROR".

Definition is_aborted (code : option string) : bool :=
  match code with
  | Some c => String.eqb c "ECONNABORTED"
  | None => false
  end.

Definition createApiError (fresh : loc) (err : thrown) : outcome ApiError :=
  match err with
  | ThrownAxiosError axiosError =>
      let request := extractRequestContext fresh axiosError in
      match error_response axiosError with
      | None =>
          Returns
            {| message :=
                 VStr (if is_aborted (error_code axiosError)
                       then "Request timed out"
                       else "Network error - please check your connection");
               code := if is_aborted (error_code axiosError)
                       then "TIMEOUT" else "NETWORK_ERROR";
               status := None;
               request := request;
               details := NetworkDetails (error_code axiosError)
                                         (error_message axiosError) |}
      | Some response =>
          normalized ← normalizeErrorMessage (response_data response);
          Returns
            {| message := normalized;
               code := getErrorCode (response_status response);
               status := Some (response_status response);
               request := request;
               details := ResponseDetails (response_data response) |}
      end
  | _ =>
      Returns
        {| message :=
             VStr (match err with
                   | ThrownError m => m
                   | _ => "An unexpected error occurred"
                   end);
           code := "UNKNOWN_ERROR";
           status := None;
           request := {| method := "UNKNOWN"; url := "unknown";
                         baseURL := None; params := VUndefined;
                         data := VUndefined |};
           details := UnknownDetails err |}
  end.

(** How a promise settles. *)
Inductive settled (A : Type) : Type :=
| Fulfilled (a : A)
| Rejected (reason : thrown).
Arguments Fulfilled {A} a.
Arguments Rejected {A} reason.

(** [safeRequest]: [await] inside [try], [createApiError] inside [catch];
    an error thrown by the [catch] block rejects the returned promise. *)
Definition safeRequest (fresh : loc) (promise : settled AxiosResponse)
  : settled Result :=
  match promise with
  | Fulfilled response =>
      Fulfilled {| result_data := response_data response; result_error := None |}
  | Rejected err =>
      match createApiError fresh err with
      | Returns apiError =>
          Fulfilled {| result_data := VNull; result_error := Some apiError |}
      | Throws TypeError => Rejected (ThrownError "TypeError")
      end
  end.

End ApiErrorModule.

(** ** The vocabulary of the statements *)

(** [has_match s]: some [-] or [_] of [s] is immediately followed by a
    lowercase letter, that is, [/[-_]([a-z])/] matches somewhere in [s]. *)
Fixpoint has_match (s : string) : bool :=
  match s with
  | EmptyString => false
  | String c s' =>
      match s' with
      | String d _ => (is_separator c && Str.is_lower d) || has_match s'
      | EmptyString => false
      end
  end.

(** A path template as the spec describes it: literal text, then a
    placeholder, and so on, closed by literal text. *)
Fixpoint template_of (segments : list (string * string)) (tail : string) : string :=
  match segments with
  | [] => tail
  | (literal, name) :: more =>
      literal ++ "{" ++ name ++ "}" ++ template_of more tail
  end.

(** A [parameters] value the extractor can test: absent, [null], or an array
    without [null] elements. *)
Definition parameters_testable (parameters : value) : Prop :=
  JS.nullish parameters = true \/
  exists l items, parameters = VArr l items /\
                  Forall (fun param => JS.nullish param = false) items.

(** The operation under [method] is kept: it is there and its
    [operationId] passes the skip test. *)
Definition kept (pathItem : value) (method : string) : bool :=
  JS.truthy (JS.prop pathItem method)
  && negb (skipsOperationId (JS.prop (JS.prop pathItem method) "operationId")).

(** No path item is [null], and every kept operation has testable
    [parameters]. *)
Definition extractable (spec : value) : Prop :=
  forall pathTemplate pathItem,
    In (pathTemplate, pathItem) (JS.own_entries (JS.prop spec "paths")) ->
    JS.nullish pathItem = false /\
    forall method, In method METHODS -> kept pathItem method = true ->
      parameters_testable (JS.prop (JS.prop pathItem method) "parameters").

(** The (path, method) pairs of the kept operations, in document order. *)
Definition kept_operations (spec : value) : list (string * string) :=
  flat_map
    (fun '(pathTemplate, pathItem) =>
       List.map (pair pathTemplate) (List.filter (kept pathItem) METHODS))
    (JS.own_entries (JS.prop spec "paths")).

Definition place (operation : OperationMetadata) : string * string :=
  (path operation, method operation).

(** Every extracted descriptor has its [operationId] among the keys of the
    differ's map. *)
Definition covered (st : parse_state) (m : Diff.Map) : Prop :=
  forall op, In op (operations st) -> In (IStr (operationId op)) (Diff.keys m).

Definition id_of (op : Diff.OperationInfo) : identity :=
  JS.identity_of (Diff.operationId op).

Definition ids (ops : list Diff.OperationInfo) : list identity := List.map id_of ops.

Definition pair_id (change : Diff.OperationInfo * Diff.OperationInfo) : identity :=
  id_of (snd change).

(** The map is keyed by [operationId], as [extractOperations] builds it. *)
Definition keyed (m : Diff.Map) : Prop :=
  forall id op, In (id, op) m -> id = id_of op.

(** The two descriptors differ on one of the four compared fields. *)
Definition differ (a b : Diff.OperationInfo) : Prop :=
  Diff.method a <> Diff.method b \/
  Diff.path a <> Diff.path b \/
  Diff.hasRequestBody a <> Diff.hasRequestBody b \/
  JS.identity_of (Diff.summary a) <> JS.identity_of (Diff.summary b).

(** What one entry contributes to each of the three arrays. *)
Definition addedBy (current : Diff.Map) (entry : identity * Diff.OperationInfo)
  : list Diff.OperationInfo :=
  match Diff.map_get (fst entry) current with
  | None => [snd entry]
  | Some _ => []
  end.

Definition modifiedBy (current : Diff.Map) (entry : identity * Diff.OperationInfo)
  : list (Diff.OperationInfo * Diff.OperationInfo) :=
  match Diff.map_get (fst entry) current with
  | Some currentOp =>
      if Diff.hasChanges currentOp (snd entry) then [(currentOp, snd entry)] else []
  | None => []
  end.

Definition removedBy (new : Diff.Map) (entry : identity * Diff.OperationInfo)
  : list Diff.OperationInfo :=
  if Diff.map_has (fst entry) new then [] else [snd entry].

(** Where the result of [normalizeErrorMessage] may come from. *)
Definition string_result (r : option value) : Prop :=
  forall v, r = Some v -> ApiErrorModule.is_string v = true.

(** What the errors-by-field convention prints: the first item of the first
    field of [errors], [Object.values(e.errors)[0][0]]. *)
Definition fieldItem (error : value) : value :=
  ApiErrorModule.first_item
    (JS.first (List.map snd (JS.own_entries (JS.prop error "errors")))).

Ltac case_inner_string :=
  match goal with
  | |- context [ApiErrorModule.is_string (if ?c then ?a else ?b)] =>
      destruct (ApiErrorModule.is_string (if c then a else b)) eqn:?
  end.

(** ** The documents and descriptors the statements are run on *)

Definition deleteWithBodySpec : value :=
  VObj 1
    [("paths",
      VObj 2
        [("/items",
          VObj 3
            [("delete",
              VObj 4
                [("operationId", VStr "removeItems");
                 ("requestBody", VObj 5 [("content", VObj 6 [])])])])])].

Definition deleteWithBody : OperationMetadata :=
  {| operationId := "removeItems";
     method := "delete";
     path := "/items";
     pathParams := [];
     hasRequestBody := true;
     hasQueryParams := false;
     summary := VStr EmptyString;
     description := VStr EmptyString |}.

Definition numericOperationIdSpec : value :=
  VObj 1
    [("openapi", VStr "3.0.0");
     ("info", VObj 2 [("title", VStr "api")]);
     ("paths",
      VObj 3
        [("/users/{id}",
          VObj 4
            [("get",
              VObj 5
                [("operationId", VNum 5);
                 ("responses", VObj 6 [])])])])].

Definition truthyOperationIdSpec : value :=
  VObj 1
    [("paths",
      VObj 2
        [("/users",
          VObj 3
            [("get", VObj 4 [("operationId", VNum 5)]);
             ("post", VObj 5 [("operationId", VStr "createUser")])])])].

Definition objectParametersSpec : value :=
  VObj 1
    [("paths",
      VObj 2
        [("/users",
          VObj 3
            [("get", VObj 4 [("operationId", VStr "listUsers")]);
             ("post",
              VObj 5
                [("operationId", VStr "createUser");
                 ("parameters", VObj 6 [("in", VStr "query")])])])])].

(** A response body in the errors-by-field convention whose first item is
    an object with a property called [toString], and the axios error that
    carries it. *)
Definition unprintableErrorBody : value :=
  VObj 1 [("errors", VObj 2 [("f", VArr 3 [VObj 4 [("toString", VNum 1)]])])].

Definition unprintableError : ApiErrorModule.thrown :=
  ApiErrorModule.ThrownAxiosError
    {| ApiErrorModule.error_code := Some "ERR_BAD_REQUEST";
       ApiErrorModule.error_message := "Request failed with status code 422";
       ApiErrorModule.error_config := None;
       ApiErrorModule.error_response :=
         Some {| ApiErrorModule.response_data := unprintableErrorBody;
                 ApiErrorModule.response_status := 422 |} |}.

Definition malformedOperationsSpec : value :=
  VObj 1
    [("paths",
      VObj 2
        [("/users/{id}",
          VObj 3
            [("get",
              VObj 4
                [("operationId", VStr "getUser");
                 ("summary", VNum 42);
                 ("description", VArr 5 [VNull]);
                 ("parameters", VArr 6 [VObj 7 [("in", VStr "query")]])]);
             ("post", VObj 8 [("summary", VStr "no operationId")]);
             ("put", VObj 9 [("operationId", VNum 7); ("parameters", VNum 1)]);
             ("delete",
              VObj 10
                [("operationId", VStr "removeUser");
                 ("parameters", VNull);
                 ("requestBody", VStr "yes")]);
             ("patch", VStr "not an object")])])].

Definition info (id method path : string) (body : bool) (summary : string)
  : Diff.OperationInfo :=
  {| Diff.operationId := VStr id;
     Diff.method := method;
     Diff.path := path;
     Diff.hasRequestBody := body;
     Diff.summary := VStr summary |}.

Definition oldOperations : Diff.Map :=
  [(IStr "listUsers", info "listUsers" "get" "/users" false "List users");
   (IStr "createUser", info "createUser" "post" "/users" false "Create");
   (IStr "getUser", info "getUser" "get" "/users/{id}" false "Get")].

Definition newOperations : Diff.Map :=
  [(IStr "createUser", info "createUser" "post" "/users" true "Create");
   (IStr "getUser", info "getUser" "get" "/users/{id}" false "Get");
   (IStr "removeUser", info "removeUser" "delete" "/users/{id}" false "Remove")].

(** ** The validate command: what [Validate.run] does with the issues *)
Module ValidateCommand.

(** The command ends normally or throws a [ValidationError] that carries
    the lines [path: message]. *)
Inductive verdict : Type :=
| Valid
| Invalid (report : list string).

Definition is_error (issue : Validate.ValidationIssue) : bool :=
  match Validate.severity_of issue with
  | Validate.SeverityError => true
  | Validate.SeverityWarning => false
  end.

Definition is_warning (issue : Validate.ValidationIssue) : bool :=
  match Validate.severity_of issue with
  | Validate.SeverityError => false
  | Validate.SeverityWarning => true
  end.

Definition report_line (issue : Validate.ValidationIssue) : string :=
  Validate.path issue ++ ": " ++ Validate.message issue.

(** The end of [run]: [errors.length > 0 || (flags.strict && warnings.length
    > 0)] throws, with every issue under [--strict] and the errors alone
    otherwise. *)
Definition conclude (strict : bool) (issues : list Validate.ValidationIssue)
  : verdict :=
  let errors := List.filter is_error issues in
  let warnings := List.filter is_warning issues in
  if nonEmpty errors || (strict && nonEmpty warnings) then
    Invalid (List.map report_line (if strict then issues else errors))
  else Valid.

(** [validateSpec] followed by the end of [run]. *)
Definition validate (strict : bool) (spec : value) : outcome verdict :=
  issues ← Validate.validateSpec spec;
  Returns (conclude strict issues).

End ValidateCommand.

(** ** The status command: [Status.countEndpoints] *)
Module Status.

Record MethodCounts : Type := mkMethodCounts {
  get : nat;
  post : nat;
  put : nat;
  delete : nat;
  patch : nat;
  total : nat
}.

Definition zero : MethodCounts :=
  {| get := 0; post := 0; put := 0; delete := 0; patch := 0; total := 0 |}.

(** [counts[method]++; counts.total++] for one of the five methods. *)
Definition increment (method : string) (counts : MethodCounts) : MethodCounts :=
  if String.eqb method "get" then
    {| get := S (get counts); post := post counts; put := put counts;
       delete := delete counts; patch := patch counts; total := S (total counts) |}
  else if String.eqb method "post" then
    {| get := get counts; post := S (post counts); put := put counts;
       delete := delete counts; patch := patch counts; total := S (total counts) |}
  else if String.eqb method "put" then
    {| get := get counts; post := post counts; put := S (put counts);
       delete := delete counts; patch := patch counts; total := S (total counts) |}
  else if String.eqb method "delete" then
    {| get := get counts; post := post counts; put := put counts;
       delete := S (delete counts); patch := patch counts; total := S (total counts) |}
  else
    {| get := get counts; post := post counts; put := put counts;
       delete := delete counts; patch := S (patch counts); total := S (total counts) |}.

(** The body of the inner loop; [pathItem] is an object here, so reading
    [pathItem[method]] does not throw. *)
Definition countMethod (pathItem : value) (counts : MethodCounts)
    (method : string) : MethodCounts :=
  if JS.truthy (JS.prop pathItem method) then increment method counts else counts.

(** The body of the loop over [Object.values(paths)]. *)
Definition countPathItem (counts : MethodCounts) (pathItem : value) : MethodCounts :=
  if negb (String.eqb (JS.typeof pathItem) "object") || JS.strict_eq pathItem VNull
  then counts
  else fold_left (countMethod pathItem) METHODS counts.

(** [countEndpoints], from the result of [loadLocalSpec]: whatever throws
    inside the [try] throws before a count is touched, and the [catch]
    returns the counts as they are. *)
Definition countEndpoints (loaded : outcome value) : MethodCounts :=
  match loaded with
  | Throws _ => zero
  | Returns spec =>
      match JS.get spec "paths" with
      | Throws _ => zero
      | Returns paths =>
          if negb (JS.truthy paths) then zero
          else match JS.values paths with
               | Throws _ => zero
               | Returns items => fold_left countPathItem items zero
               end
      end
  end.

(** [formatTimeAgo], from [Date.now()] and [date.getTime()], both in
    milliseconds. *)
Definition formatTimeAgo (now date : Z) : string :=
  let seconds := Z.div (now - date) 1000 in
  if Z.ltb seconds 60 then Str.of_Z seconds ++ "s ago"
  else if Z.ltb seconds 3600 then Str.of_Z (Z.div seconds 60) ++ " min ago"
  else if Z.ltb seconds 86400 then Str.of_Z (Z.div seconds 3600) ++ "h ago"
  else Str.of_Z (Z.div seconds 86400) ++ "d ago".

End Status.

(** ** The type guards of the generated error module *)

(** [isSuccess]: [result.error === null]. *)
Definition isSuccess (result : ApiErrorModule.Result) : bool :=
  match ApiErrorModule.result_error result with
  | None => true
  | Some _ => false
  end.

(** [isError]: [result.error !== null]. *)
Definition isError (result : ApiErrorModule.Result) : bool :=
  negb
    match ApiErrorModule.result_error result with
    | None => true
    | Some _ => false
    end.

(** ** Calls that throw an error with a payload *)

(** A call returns or throws the error [e]. *)
Inductive result (E A : Type) : Type :=
| Ok (a : A)
| Raise (e : E).
Arguments Ok {E A} a.
Arguments Raise {E A} e.

#[global] Instance result_ret {E : Type} : MRet (result E) := fun A a => Ok a.

#[global] Instance result_bind {E : Type} : MBind (result E) := fun A B k m =>
  match m with
  | Ok a => k a
  | Raise e => Raise e
  end.

(** ** The error classes ([lib/errors.ts]) *)
Module Errors.

(** The errors the modelled code throws: a plain [Error], and the two
    subclasses of [ChowbeaAxiosError] it constructs, with the arguments of
    their constructors. *)
Inductive exception : Type :=
| Error (message : string)
| ConfigValidationError (field message : string)
| NetworkError (url message : string) (statusCode : option Z).

(** [error.message], as the constructors pass it to [super]. *)
Definition message_of (e : exception) : string :=
  match e with
  | Error message => message
  | ConfigValidationError _ message => "Invalid configuration: " ++ message
  | NetworkError _ message _ => message
  end.

End Errors.

(** ** The fetcher: [interpolateEnvVars] and [interpolateHeaders]

    The pattern of [value.replace] is a dollar sign, an optional opening
    brace, the captured name (a letter or underscore, then any run of
    letters, digits and underscores) and an optional closing brace; with the
    [i] flag the letters of both cases match, and with [g] every match is
    replaced. *)
Module Fetcher.

Definition is_digit (c : ascii) : bool :=
  Nat.leb 48 (nat_of_ascii c) && Nat.leb (nat_of_ascii c) 57.

(** [[A-Z_]] under the [i] flag. *)
Definition is_name_start (c : ascii) : bool :=
  Str.is_upper c || Str.is_lower c || Ascii.eqb c "_".

(** [[A-Z0-9_]] under the [i] flag. *)
Definition is_name_char (c : ascii) : bool := is_name_start c || is_digit c.

(** [[A-Z0-9_]*] is greedy: the longest run of name characters, with what
    follows it. *)
Fixpoint span_chars (s : string) : string * string :=
  match s with
  | EmptyString => (EmptyString, EmptyString)
  | String c s' =>
      if is_name_char c
      then let '(run, rest) := span_chars s' in (String c run, rest)
      else (EmptyString, s)
  end.

(** [\{?] and [\}?]: an optional brace at the start of [s]. *)
Definition skip_brace (brace : ascii) (s : string) : string :=
  match s with
  | String c s' => if Ascii.eqb c brace then s' else s
  | EmptyString => s
  end.

(** One attempt of the pattern at the start of [s]: the captured name and
    the text after the match.  When the name does not start right after an
    opening brace it cannot start at the brace either, so giving the brace
    back does not help. *)
Definition match_variable (s : string) : option (string * string) :=
  match s with
  | String c s1 =>
      if Ascii.eqb c "$" then
        match skip_brace "{" s1 with
        | String n s2 =>
            if is_name_start n then
              let '(run, rest) := span_chars s2 in
              Some (String n run, skip_brace "}" rest)
            else None
        | EmptyString => None
        end
      else None
  | EmptyString => None
  end.

(** The text of the [Error] the callback throws. *)
Definition notSet (varName value : string) : string :=
  "Environment variable " ++ varName ++ " is not set (referenced in: "
    ++ value ++ ")".

(** The global replacement; [env varName] is [process.env[varName]], [None]
    when it is [undefined], and [value] is the whole text, for the error. *)
Equations? replaceVariables (env : string -> option string) (value : string)
    (s : string) : result string string by wf (String.length s) lt :=
  replaceVariables env value EmptyString := Ok EmptyString;
  replaceVariables env value (String c s')
    with inspect (match_variable (String c s')) := {
    | exist _ (Some (varName, rest)) E =>
        match env varName with
        | None => Raise (notSet varName value)
        | Some envValue =>
            match replaceVariables env value rest with
            | Ok done => Ok (envValue ++ done)
            | Raise e => Raise e
            end
        end;
    | exist _ None E =>
        match replaceVariables env value s' with
        | Ok done => Ok (String c done)
        | Raise e => Raise e
        end }.
Proof.
  assert (Hspan : forall t run rest0, span_chars t = (run, rest0) ->
                    String.length rest0 <= String.length t).
  { induction t as [|x t IH]; intros run rest0; simpl.
    - intros [= <- <-]; simpl; lia.
    - destruct (is_name_char x).
      + destruct (span_chars t) as [run0 r0]. intros [= <- <-].
        pose proof (IH run0 r0 eq_refl). lia.
      + intros [= <- <-]; simpl; lia. }
  assert (Hskip : forall b t, String.length (skip_brace b t) <= String.length t).
  { intros b [|x t]; simpl; [lia|]. destruct (Ascii.eqb x b); simpl; lia. }
  destruct (Ascii.eqb c "$"); [|discriminate E].
  pose proof (Hskip "{"%char s') as H1.
  destruct (skip_brace "{" s') as [|n s2]; [discriminate E|].
  destruct (is_name_start n); [|discriminate E].
  destruct (span_chars s2) as [run rest0] eqn:Es.
  injection E as <- <-. apply Hspan in Es.
  pose proof (Hskip "}"%char rest0) as H2. simpl in *. lia.
Qed.

Definition interpolateEnvVars (env : string -> option string) (value : string)
  : result string string :=
  replaceVariables env value value.

(** [result[key] = value] on the object being filled: a key already there
    keeps its place, a new key goes last, and a string assigned to
    [__proto__] is dropped by the setter of [Object.prototype]. *)
Fixpoint assign (key value : string) (object : list (string * string))
  : list (string * string) :=
  match object with
  | [] => [(key, value)]
  | (k, v) :: rest =>
      if String.eqb key k then (k, value) :: rest
      else (k, v) :: assign key value rest
  end.

Definition set_property (key value : string) (object : list (string * string))
  : list (string * string) :=
  if String.eqb key "__proto__" then object else assign key value object.

(** The body of the loop of [interpolateHeaders]. *)
Definition interpolateHeader (env : string -> option string)
    (object : list (string * string)) (entry : string * string)
  : result string (list (string * string)) :=
  interpolated ← interpolateEnvVars env (snd entry);
  Ok (set_property (fst entry) interpolated object).

Fixpoint forEachHeader (env : string -> option string)
    (entries : list (string * string)) (object : list (string * string))
  : result string (list (string * string)) :=
  match entries with
  | [] => Ok object
  | entry :: rest =>
      object' ← interpolateHeader env object entry;
      forEachHeader env rest object'
  end.

(** [interpolateHeaders]; an object is the list of its entries in the order
    they were added. *)
Definition interpolateHeaders (env : string -> option string)
    (headers : list (string * string)) : result string (list (string * string)) :=
  forEachHeader env headers [].

(** *** [fetchOpenApiSpec]

    Numbers are integers.  What the function does to the outside is the
    trace of its requests and waits; the logger's lines are not part of it. *)

Record CacheMetadata : Type := mkCacheMetadata {
  hash : string;
  timestamp : Z;
  cache_endpoint : string
}.

Record FetchResult : Type := mkFetchResult {
  buffer : string;
  result_hash : string;
  hasChanged : bool;
  fromCache : bool
}.

Record RetryConfig : Type := mkRetryConfig {
  maxAttempts : Z;
  baseDelay : Z;
  backoffMultiplier : Z
}.

Definition DEFAULT_RETRY_CONFIG : RetryConfig :=
  {| maxAttempts := 3; baseDelay := 1000; backoffMultiplier := 2 |}.

(** The options the function reads; an optional one is [None] when it is
    left out. *)
Record Options : Type := mkOptions {
  endpoint : string;
  force : option bool;
  retryConfig : option RetryConfig;
  headers : option (list (string * string))
}.

(** What one request comes to: a response, whose body is read when it is
    [ok], or a rejection of [fetch] or of [arrayBuffer] with the message of
    what was thrown. *)
Inductive reply : Type :=
| Response (ok : bool) (status : Z) (statusText : string) (body : string)
| Rejection (message : string).

(** What the function finds around it: the environment, what
    [loadCacheMetadata(cachePath)] and [loadCachedSpec(specPath)] resolve to
    ([None] for [null]; neither of them throws), the reply to the request
    number [attempt] sent with [headers], and [computeHash]. *)
Record World : Type := mkWorld {
  env : string -> option string;
  existingCache : option CacheMetadata;
  cachedSpec : option string;
  network : Z -> list (string * string) -> reply;
  computeHash : string -> string
}.

Inductive event : Type :=
| Requested (attempt : Z) (sent : list (string * string))
| Slept (ms : Z).

(** The headers of the request: [Accept], then [Object.assign] of the
    interpolated headers of the options. *)
Definition requestHeaders (w : World) (o : Options)
  : result Errors.exception (list (string * string)) :=
  let base := [("Accept", "application/json")] in
  match headers o with
  | Some given =>
      match interpolateHeaders (env w) given with
      | Ok interpolated =>
          Ok (fold_left (fun object entry => set_property (fst entry) (snd entry) object)
                interpolated base)
      | Raise message =>
          Raise (Errors.Error ("Failed to interpolate headers: " ++ message))
      end
  | None => Ok base
  end.

(** The body of the [try] block of one attempt. *)
Definition attemptOnce (w : World) (o : Options) (sent : list (string * string))
    (attempt : Z) : result Errors.exception FetchResult :=
  match network w attempt sent with
  | Rejection message => Raise (Errors.Error message)
  | Response ok status statusText body =>
      if negb ok then
        Raise (Errors.NetworkError (endpoint o)
                 ("HTTP " ++ Str.of_Z status ++ ": " ++ statusText)
                 (Some status))
      else
        let fetchedHash := computeHash w body in
        Ok {| buffer := body;
              result_hash := fetchedHash;
              hasChanged :=
                match force o with Some f => f | None => false end
                || match existingCache w with
                   | None => true
                   | Some cache => negb (String.eqb (hash cache) fetchedHash)
                   end;
              fromCache := false |}
  end.

(** [baseDelay * backoffMultiplier ** (attempt - 1)]. *)
Definition delayMs (cfg : RetryConfig) (attempt : Z) : Z :=
  baseDelay cfg * backoffMultiplier cfg ^ (attempt - 1).

(** The [for] loop, entered with [attempt]: the trace so far and either the
    result returned from inside the loop or the last error when the loop
    ends. *)
Equations? attempts (w : World) (o : Options) (cfg : RetryConfig)
    (sent : list (string * string)) (attempt : Z)
    (lastError : option Errors.exception) (trace : list event)
  : list event * (FetchResult + option Errors.exception)
  by wf (Z.to_nat (maxAttempts cfg + 1 - attempt)) lt :=
  attempts w o cfg sent attempt lastError trace
    with inspect (Z.leb attempt (maxAttempts cfg)) := {
    | exist _ true E =>
        match attemptOnce w o sent attempt with
        | Ok fetched => (List.app trace [Requested attempt sent], inl fetched)
        | Raise e =>
            attempts w o cfg sent (attempt + 1) (Some e)
              (if Z.ltb attempt (maxAttempts cfg)
               then List.app trace
                      [Requested attempt sent; Slept (delayMs cfg attempt)]
               else List.app trace [Requested attempt sent])
        end;
    | exist _ false E => (trace, inr lastError) }.
Proof.
  apply Z.leb_le in E. lia.
Qed.

(** [lastError?.message] in a template. *)
Definition lastMessage (lastError : option Errors.exception) : string :=
  match lastError with
  | Some e => Errors.message_of e
  | None => "undefined"
  end.

Definition fetchOpenApiSpec (w : World) (o : Options)
  : list event * result Errors.exception FetchResult :=
  let cfg :=
    match retryConfig o with
    | Some given => given
    | None => DEFAULT_RETRY_CONFIG
    end in
  match requestHeaders w o with
  | Raise e => ([], Raise e)
  | Ok sent =>
      match attempts w o cfg sent 1 None [] with
      | (trace, inl fetched) => (trace, Ok fetched)
      | (trace, inr lastError) =>
          match cachedSpec w, existingCache w with
          | Some cached, Some cache =>
              (trace, Ok {| buffer := cached;
                            result_hash := hash cache;
                            hasChanged := false;
                            fromCache := true |})
          | _, _ =>
              (trace,
               Raise (Errors.NetworkError (endpoint o)
                        ("Failed to fetch OpenAPI spec after "
                           ++ Str.of_Z (maxAttempts cfg) ++ " attempts: "
                           ++ lastMessage lastError)
                        None))
          end
      end
  end.

End Fetcher.

(** ** The configuration loader: [validateConfig] ([lib/config.ts])

    The value validated is what [toml.parse] returns.  A string is the UTF-8
    text of the JavaScript string. *)
Module Config.

(** What the validation throws: a native error of a property read, or one of
    the classes of [lib/errors.ts]. *)
Inductive thrown : Type :=
| Native (e : error)
| Thrown (e : Errors.exception).

Definition reading {A : Type} (m : outcome A) : result thrown A :=
  match m with
  | Returns a => Ok a
  | Throws e => Raise (Native e)
  end.

Definition invalid {A : Type} (field message : string) : result thrown A :=
  Raise (Thrown (Errors.ConfigValidationError field message)).

(** The white space and line terminators [trim] removes, as the bytes of
    their UTF-8 encoding: TAB, LF, VT, FF, CR and SP; U+00A0; U+1680,
    U+2000 to U+200A, U+2028, U+2029, U+202F, U+205F, U+3000 and U+FEFF. *)
Definition space1 (a : ascii) : bool :=
  let n := nat_of_ascii a in
  (Nat.leb 9 n && Nat.leb n 13) || Nat.eqb n 32.

Definition space2 (a b : ascii) : bool :=
  Nat.eqb (nat_of_ascii a) 194 && Nat.eqb (nat_of_ascii b) 160.

Definition space3 (a b c : ascii) : bool :=
  let x := nat_of_ascii a in
  let y := nat_of_ascii b in
  let z := nat_of_ascii c in
  (Nat.eqb x 225 && Nat.eqb y 154 && Nat.eqb z 128)
  || (Nat.eqb x 226 && Nat.eqb y 128
      && ((Nat.leb 128 z && Nat.leb z 138)
          || Nat.eqb z 168 || Nat.eqb z 169 || Nat.eqb z 175))
  || (Nat.eqb x 226 && Nat.eqb y 129 && Nat.eqb z 159)
  || (Nat.eqb x 227 && Nat.eqb y 128 && Nat.eqb z 128)
  || (Nat.eqb x 239 && Nat.eqb y 187 && Nat.eqb z 191).

(** [s.trim().length === 0]: [s] is made of white space only. *)
Fixpoint is_blank (s : string) : bool :=
  match s with
  | EmptyString => true
  | String a s1 =>
      if space1 a then is_blank s1
      else
        match s1 with
        | String b s2 =>
            if space2 a b then is_blank s2
            else
              match s2 with
              | String c s3 => space3 a b c && is_blank s3
              | EmptyString => false
              end
        | EmptyString => false
        end
  end.

Record WatchConfig : Type := mkWatchConfig {
  debug : bool
}.

Record InstanceConfig : Type := mkInstanceConfig {
  base_url_env : string;
  token_key : string;
  with_credentials : bool;
  timeout : Z
}.

Record FetchConfig : Type := mkFetchConfig {
  headers : option (list (string * string))
}.

Record ApiConfig : Type := mkApiConfig {
  api_endpoint : string;
  spec_file : option string;
  poll_interval_ms : Z;
  output_folder : string;
  fetch : option FetchConfig;
  instance : InstanceConfig;
  watch : WatchConfig
}.

Definition DEFAULT_WATCH_CONFIG : WatchConfig := {| debug := false |}.

Definition DEFAULT_INSTANCE_CONFIG : InstanceConfig :=
  {| base_url_env := "VITE_API_URL";
     token_key := "auth-token";
     with_credentials := true;
     timeout := 30000 |}.

Definition DEFAULT_CONFIG : ApiConfig :=
  {| api_endpoint := "http://localhost:3000/docs/swagger/json";
     spec_file := None;
     poll_interval_ms := 10000;
     output_folder := "app/services/api";
     fetch := None;
     instance := DEFAULT_INSTANCE_CONFIG;
     watch := DEFAULT_WATCH_CONFIG |}.

(** [typeof v === "string" && v.trim().length > 0 ? v : otherwise]. *)
Definition textOr (v : value) (otherwise : string) : string :=
  match v with
  | VStr s => if is_blank s then otherwise else s
  | _ => otherwise
  end.

Definition validateWatchConfig (watch : value) : result thrown WatchConfig :=
  if JS.nullish watch then Ok DEFAULT_WATCH_CONFIG
  else if negb (String.eqb (JS.typeof watch) "object") then
    invalid "watch" "watch section must be an object"
  else
    debugValue ← reading (JS.get watch "debug");
    Ok {| debug :=
            match debugValue with
            | VBool b => b
            | _ => debug DEFAULT_WATCH_CONFIG
            end |}.

Definition validateInstanceConfig (instance : value)
  : result thrown InstanceConfig :=
  if JS.nullish instance then Ok DEFAULT_INSTANCE_CONFIG
  else if negb (String.eqb (JS.typeof instance) "object") then
    invalid "instance" "instance section must be an object"
  else
    baseUrlEnv ← reading (JS.get instance "base_url_env");
    tokenKey ← reading (JS.get instance "token_key");
    withCredentials ← reading (JS.get instance "with_credentials");
    timeoutValue ← reading (JS.get instance "timeout");
    Ok {| base_url_env := textOr baseUrlEnv (base_url_env DEFAULT_INSTANCE_CONFIG);
          token_key := textOr tokenKey (token_key DEFAULT_INSTANCE_CONFIG);
          with_credentials :=
            match withCredentials with
            | VBool b => b
            | _ => with_credentials DEFAULT_INSTANCE_CONFIG
            end;
          timeout :=
            match timeoutValue with
            | VNum n =>
                if Z.ltb 0 n then n else timeout DEFAULT_INSTANCE_CONFIG
            | _ => timeout DEFAULT_INSTANCE_CONFIG
            end |}.

(** The loop over the entries of [fetch.headers]. *)
Fixpoint copyHeaders (entries : list (string * value))
    (copied : list (string * string)) : result thrown (list (string * string)) :=
  match entries with
  | [] => Ok copied
  | (key, VStr s) :: rest => copyHeaders rest (Fetcher.set_property key s copied)
  | (key, _) :: _ =>
      invalid ("fetch.headers." ++ key) "header value must be a string"
  end.

Definition validateFetchConfig (fetch : value)
  : result thrown (option FetchConfig) :=
  if JS.nullish fetch then Ok None
  else if negb (String.eqb (JS.typeof fetch) "object") then
    invalid "fetch" "fetch section must be an object"
  else
    headersValue ← reading (JS.get fetch "headers");
    if JS.nullish headersValue then Ok None
    else if negb (String.eqb (JS.typeof headersValue) "object") then
      invalid "fetch.headers" "fetch.headers must be an object"
    else
      entries ← reading (JS.entries headersValue);
      copied ← copyHeaders entries [];
      Ok (Some {| headers := Some copied |}).

Definition validateConfig (config : value) : result thrown ApiConfig :=
  if negb (String.eqb (JS.typeof config) "object") || JS.strict_eq config VNull
  then invalid "root" "Configuration must be an object"
  else
    endpointValue ← reading (JS.get config "api_endpoint");
    match endpointValue with
    | VStr endpoint =>
        if is_blank endpoint
        then invalid "api_endpoint" "api_endpoint must be a non-empty string URL"
        else
          pollValue ← reading (JS.get config "poll_interval_ms");
          match pollValue with
          | VNum poll =>
              if Z.ltb poll 1000
              then invalid "poll_interval_ms"
                     "poll_interval_ms must be a number >= 1000"
              else
                output ← reading (JS.get config "output");
                if negb (String.eqb (JS.typeof output) "object")
                   || JS.strict_eq output VNull
                then invalid "output" "output section is required"
                else
                  folderValue ← reading (JS.get output "folder");
                  match folderValue with
                  | VStr folder =>
                      if is_blank folder
                      then invalid "output.folder"
                             "output.folder must be a non-empty string path"
                      else
                        specFileValue ← reading (JS.get config "spec_file");
                        fetchValue ← reading (JS.get config "fetch");
                        fetchConfig ← validateFetchConfig fetchValue;
                        instanceValue ← reading (JS.get config "instance");
                        instanceConfig ← validateInstanceConfig instanceValue;
                        watchValue ← reading (JS.get config "watch");
                        watchConfig ← validateWatchConfig watchValue;
                        Ok {| api_endpoint := endpoint;
                              spec_file :=
                                match specFileValue with
                                | VStr file =>
                                    if is_blank file then None else Some file
                                | _ => None
                                end;
                              poll_interval_ms := poll;
                              output_folder := folder;
                              fetch := fetchConfig;
                              instance := instanceConfig;
                              watch := watchConfig |}
                  | _ => invalid "output.folder"
                           "output.folder must be a non-empty string path"
                  end
          | _ => invalid "poll_interval_ms"
                   "poll_interval_ms must be a number >= 1000"
          end
    | _ => invalid "api_endpoint" "api_endpoint must be a non-empty string URL"
    end.

End Config.

(** ** The log level of a command ([lib/logger.ts]) *)
Module Logger.

Inductive LogLevel : Type :=
| Silent
| Error
| Warn
| Info
| Debug.

Definition LOG_LEVELS (level : LogLevel) : nat :=
  match level with
  | Silent => 0
  | Error => 1
  | Warn => 2
  | Info => 3
  | Debug => 4
  end.

(** [shouldLog] of the logger created with [level]: every method of the
    logger returns at once when it is false for the method's own level. *)
Definition shouldLog (level msgLevel : LogLevel) : bool :=
  Nat.leb (LOG_LEVELS msgLevel) (LOG_LEVELS level).

(** An optional boolean in a condition. *)
Definition set (flag : option bool) : bool :=
  match flag with
  | Some b => b
  | None => false
  end.

Record Flags : Type := mkFlags {
  quiet : option bool;
  debug : option bool
}.

Definition getLogLevel (flags : Flags) (configDebug : option bool) : LogLevel :=
  if set (quiet flags) then Error
  else if set (debug flags) || set configDebug then Debug
  else Warn.

End Logger.

(** ** The generated client: [interpolatePath] *)
Module Client.

(** [encodeURIComponent] on the UTF-8 text of a well-formed string: letters,
    digits and [- _ . ! ~ * ' ( )] stay, every other byte becomes a percent
    sign and two upper-case hexadecimal digits. *)
Definition unreserved (c : ascii) : bool :=
  Str.is_upper c || Str.is_lower c || Fetcher.is_digit c
  || existsb (Ascii.eqb c)
       ["-"; "_"; "."; "!"; "~"; "*"; "'"; "("; ")"]%char.

Definition hex (n : nat) : ascii :=
  nth n (list_ascii_of_string "0123456789ABCDEF") "0"%char.

Definition escape (c : ascii) : string :=
  String "%"
    (String (hex (Nat.div (nat_of_ascii c) 16))
       (String (hex (Nat.modulo (nat_of_ascii c) 16)) EmptyString)).

Fixpoint encodeURIComponent (s : string) : string :=
  match s with
  | EmptyString => EmptyString
  | String c s' =>
      (if unreserved c then String c EmptyString else escape c)
        ++ encodeURIComponent s'
  end.

(** The global replacement of the placeholders, with the list [missing] the
    callback fills.  [params key] is [params[key]]: [None] when it is
    [undefined] or [null], else [String(value)]. *)
Equations? replacePlaceholders (params : string -> option string) (s : string)
  : string * list string by wf (String.length s) lt :=
  replacePlaceholders params EmptyString := (EmptyString, []);
  replacePlaceholders params (String c s')
    with inspect (match_placeholder (String c s')) := {
    | exist _ (Some (key, rest)) E =>
        let '(done, missing) := replacePlaceholders params rest in
        match params key with
        | None => ("{" ++ key ++ "}" ++ done, key :: missing)
        | Some text => (encodeURIComponent text ++ done, missing)
        end;
    | exist _ None E =>
        let '(done, missing) := replacePlaceholders params s' in
        (String c done, missing) }.
Proof.
  assert (Hspan : forall t n r, span_name t = (n, r) ->
                    String.length t = String.length n + String.length r).
  { induction t as [|x t IH]; intros n r; simpl.
    - intros [= <- <-]; reflexivity.
    - destruct (Ascii.eqb x "}").
      + intros [= <- <-]; reflexivity.
      + destruct (span_name t) as [n0 r0]. intros [= <- <-]; simpl.
        now rewrite (IH n0 r0 eq_refl). }
  destruct (Ascii.eqb c "{"); [|discriminate E].
  destruct (span_name s') as [n r] eqn:Es.
  destruct n as [|n0 ns]; [discriminate E|].
  destruct r as [|r0 r']; [discriminate E|].
  injection E as <- <-. apply Hspan in Es. simpl in *. lia.
Qed.

(** [interpolatePath(template, params)]; [params] is [None] when the argument
    is left out. *)
Definition interpolatePath (template : string)
    (params : option (string -> option string)) : result string string :=
  match params with
  | None => Ok template
  | Some given =>
      let '(path, missing) := replacePlaceholders given template in
      if Nat.ltb 0 (List.length missing) then
        Raise ("Missing required path param(s): " ++ Str.join ", " missing
                 ++ " for template: " ++ template)
      else Ok path
  end.

End Client.

(** ** The watch command: [Watch.runCycle] *)
Module Watch.

(** What a cycle does to the outside: the requests and waits of the fetcher,
    the calls of [saveSpec] and of [generate], and the error line of the
    [catch] block. *)
Inductive step : Type :=
| Network (e : Fetcher.event)
| SaveSpec (buffer hash endpoint : string)
| Generate
| CycleFailed (message : string).

(** [runCycle]; [saving] and [generating] are the messages of what [saveSpec]
    and [generate] throw, [None] when they return. *)
Definition runCycle (w : Fetcher.World) (saving generating : option string)
    (endpoint : string) (headers : option (list (string * string)))
  : list step :=
  let '(trace, fetched) :=
    Fetcher.fetchOpenApiSpec w
      {| Fetcher.endpoint := endpoint;
         Fetcher.force := Some false;
         Fetcher.retryConfig := None;
         Fetcher.headers := headers |} in
  List.app (List.map Network trace)
    match fetched with
    | Raise e => [CycleFailed (Errors.message_of e)]
    | Ok fetchResult =>
        if negb (Fetcher.hasChanged fetchResult) then []
        else
          SaveSpec (Fetcher.buffer fetchResult) (Fetcher.result_hash fetchResult)
            endpoint
          :: match saving with
             | Some message => [CycleFailed message]
             | None =>
                 Generate
                 :: match generating with
                    | Some message => [CycleFailed message]
                    | None => []
                    end
             end
    end.

End Watch.

(** ** The vocabulary of the further statements *)

(** [v] is an object and not [null]. *)
Definition is_object (v : value) : bool :=
  String.eqb (JS.typeof v) "object" && negb (JS.strict_eq v VNull).

(** The issues one operation slot gives rise to. *)
Definition operationIssues (pathKey : string) (pathItem : value) (method : string)
  : list Validate.ValidationIssue :=
  let operation := JS.prop pathItem method in
  if JS.truthy operation then
    List.app
      (if JS.truthy (JS.prop operation "operationId") then []
       else [Validate.missingOperationId pathKey method])
      (if JS.truthy (JS.prop operation "responses") then []
       else [Validate.missingResponses pathKey method])
  else [].

Definition notAnObject (pathKey : string) : Validate.ValidationIssue :=
  {| Validate.severity_of := Validate.SeverityError;
     Validate.path := "/paths" ++ pathKey;
     Validate.message := "Path item must be an object" |}.

(** The issues one entry of [paths] gives rise to. *)
Definition pathItemIssues (entry : string * value) : list Validate.ValidationIssue :=
  if is_object (snd entry) then
    flat_map (operationIssues (fst entry) (snd entry)) METHODS
  else [notAnObject (fst entry)].

(** The issues of the root of the document and of its [components]. *)
Definition rootIssues (spec : value) : list Validate.ValidationIssue :=
  List.app
    (if JS.truthy (JS.prop spec "openapi") || JS.truthy (JS.prop spec "swagger")
     then []
     else [ {| Validate.severity_of := Validate.SeverityError;
               Validate.path := "/";
               Validate.message := "Missing 'openapi' or 'swagger' version field" |} ])
    (if JS.truthy (JS.prop spec "info") then []
     else [ {| Validate.severity_of := Validate.SeverityError;
               Validate.path := "/info";
               Validate.message := "Missing required 'info' object" |} ]).

Definition pathsIssues (spec : value) : list Validate.ValidationIssue :=
  if JS.truthy (JS.prop spec "paths")
  then flat_map pathItemIssues (JS.own_entries (JS.prop spec "paths"))
  else [ {| Validate.severity_of := Validate.SeverityWarning;
            Validate.path := "/paths";
            Validate.message := "No paths defined in spec" |} ].

Definition componentIssues (spec : value) : list Validate.ValidationIssue :=
  if JS.truthy (JS.prop spec "components")
     && negb (JS.truthy (JS.prop (JS.prop spec "components") "schemas"))
  then [ {| Validate.severity_of := Validate.SeverityWarning;
            Validate.path := "/components";
            Validate.message := "No schemas defined in components" |} ]
  else [].

(** The issues of a document, as a list built in one go. *)
Definition issuesOf (spec : value) : list Validate.ValidationIssue :=
  if is_object spec then
    List.app (rootIssues spec) (List.app (pathsIssues spec) (componentIssues spec))
  else [ {| Validate.severity_of := Validate.SeverityError;
            Validate.path := "/";
            Validate.message := "Spec must be a valid JSON object" |} ].

(** The operation slots that hold something: what the status command
    counts. *)
Definition present (pathItem : value) (method : string) : bool :=
  JS.truthy (JS.prop pathItem method).

(** The keys of the [paths] object are distinct, as the keys of an object
    are. *)
Definition distinct_paths (spec : value) : Prop :=
  List.NoDup (List.map fst (JS.own_entries (JS.prop spec "paths"))).

(** What every extracted descriptor satisfies. *)
Definition well_formed (operation : OperationMetadata) : Prop :=
  In (method operation) METHODS /\
  operationId operation <> EmptyString /\
  pathParams operation = extractPathParams (path operation) /\
  JS.nullish (summary operation) = false /\
  JS.nullish (description operation) = false.

Definition is_warn (entry : log_entry) : bool :=
  match level entry with
  | LevelWarn => true
  | LevelDebug => false
  end.

(** The number of operation slots of the document that hold something. *)
Definition present_count (spec : value) : nat :=
  list_sum
    (List.map
       (fun entry : string * value =>
          List.length (List.filter (present (snd entry)) METHODS))
       (JS.own_entries (JS.prop spec "paths"))).

(** The total is the sum of the five counts. *)
Definition balanced (counts : Status.MethodCounts) : Prop :=
  Status.total counts
  = Status.get counts + Status.post counts + Status.put counts
    + Status.delete counts + Status.patch counts.

(** A variable name: a letter or underscore, then letters, digits and
    underscores. *)
Definition is_name (name : string) : bool :=
  match name with
  | String c rest =>
      Fetcher.is_name_start c
      && forallb Fetcher.is_name_char (list_ascii_of_string rest)
  | EmptyString => false
  end.

(** The first character of [s] passes [test]. *)
Definition starts_with (test : ascii -> bool) (s : string) : bool :=
  match s with
  | String c _ => test c
  | EmptyString => false
  end.

(** A reference to [name], with or without each of the two braces. *)
Definition reference (opened closed : bool) (name : string) : string :=
  "$" ++ (if opened then "{" else EmptyString) ++ name
      ++ (if closed then "}" else EmptyString).

(** The retry settings in force. *)
Definition settings (o : Fetcher.Options) : Fetcher.RetryConfig :=
  match Fetcher.retryConfig o with
  | Some given => given
  | None => Fetcher.DEFAULT_RETRY_CONFIG
  end.

(** A request that does not give a result: a rejection, or a response that
    is not [ok]. *)
Definition failed (r : Fetcher.reply) : bool :=
  match r with
  | Fetcher.Response true _ _ _ => false
  | _ => true
  end.

(** [count] failed requests from number [attempt] on, each followed by its
    wait. *)
Fixpoint retried (cfg : Fetcher.RetryConfig) (sent : list (string * string))
    (attempt : Z) (count : nat) : list Fetcher.event :=
  match count with
  | O => []
  | S count' =>
      Fetcher.Requested attempt sent :: Fetcher.Slept (Fetcher.delayMs cfg attempt)
        :: retried cfg sent (attempt + 1)%Z count'
  end.

(** [n] requests, numbered from 1, with a wait between two of them and none
    after the last. *)
Definition schedule (cfg : Fetcher.RetryConfig) (sent : list (string * string))
    (n : nat) : list Fetcher.event :=
  match n with
  | O => []
  | S before =>
      List.app (retried cfg sent 1%Z before) [Fetcher.Requested (Z.of_nat n) sent]
  end.

(** [hasChanged] of a fetched document. *)
Definition changed (w : Fetcher.World) (o : Fetcher.Options) (body : string)
  : bool :=
  match Fetcher.force o, Fetcher.existingCache w with
  | Some true, _ => true
  | _, None => true
  | _, Some cache =>
      negb (String.eqb (Fetcher.hash cache) (Fetcher.computeHash w body))
  end.

(** Case analysis on what a validation tests, and the unfolding of its
    plumbing. *)
Ltac config_step H :=
  match type of H with
  | context [match ?x with _ => _ end] =>
      destruct x eqn:?; try discriminate H
  | context [if ?b then _ else _] =>
      destruct b eqn:?; try discriminate H
  end.

Ltac config_unfold H :=
  unfold mbind, result_bind, Config.reading, Config.invalid, JS.get in H.

(** A configuration file with the mandatory settings, an instance section
    with a blank [token_key] and an ill-typed [timeout], and a header. *)
Definition writtenConfig : value :=
  VObj 0
    [ ("api_endpoint", VStr "https://api.example.com/openapi.json");
      ("poll_interval_ms", VNum 5000);
      ("output", VObj 1 [("folder", VStr "src/api")]);
      ("fetch", VObj 2 [("headers", VObj 3 [("Authorization", VStr "Bearer $TOKEN")])]);
      ("instance", VObj 4 [("token_key", VStr "  "); ("timeout", VStr "30s")]) ].

Definition validatedConfig : Config.ApiConfig :=
  {| Config.api_endpoint := "https://api.example.com/openapi.json";
     Config.spec_file := None;
     Config.poll_interval_ms := 5000;
     Config.output_folder := "src/api";
     Config.fetch :=
       Some {| Config.headers := Some [("Authorization", "Bearer $TOKEN")] |};
     Config.instance := Config.DEFAULT_INSTANCE_CONFIG;
     Config.watch := Config.DEFAULT_WATCH_CONFIG |}.

(** What the logger shows of a message of level [msgLevel] when the level is
    the one [getLogLevel] chooses. *)
Definition shown (flags : Logger.Flags) (configDebug : option bool)
    (msgLevel : Logger.LogLevel) : bool :=
  Logger.shouldLog (Logger.getLogLevel flags configDebug) msgLevel.

(** The units of [formatTimeAgo], with their length in seconds. *)
Definition units : list (string * Z) :=
  [("s ago", 1%Z); (" min ago", 60%Z); ("h ago", 3600%Z); ("d ago", 86400%Z)].

(** The parameters the client finds missing. *)
Definition absent (params : string -> option string) (key : string) : bool :=
  match params key with
  | None => true
  | Some _ => false
  end.

(** The path of a template whose placeholders are filled in. *)
Fixpoint filled (params : string -> option string)
    (segments : list (string * string)) (tail : string) : string :=
  match segments with
  | [] => tail
  | (literal, name) :: more =>
      literal
        ++ match params name with
           | Some text => Client.encodeURIComponent text
           | None => "{" ++ name ++ "}"
           end
        ++ filled params more tail
  end.

(** The options a watch cycle passes to the fetcher. *)
Definition cycleOptions (endpoint : string)
    (headers : option (list (string * string))) : Fetcher.Options :=
  {| Fetcher.endpoint := endpoint;
     Fetcher.force := Some false;
     Fetcher.retryConfig := None;
     Fetcher.headers := headers |}.

(** A cycle that leaves the files alone: it neither saves nor generates. *)
Definition idle (s : Watch.step) : bool :=
  match s with
  | Watch.SaveSpec _ _ _ | Watch.Generate => false
  | _ => true
  end.

(** The descriptor the differ makes of the operation under [method]: one
    when the operation is there and its [operationId] holds something. *)
Definition diffDescriptor (pathTemplate : string) (pathItem : value)
    (method : string) : list Diff.OperationInfo :=
  let operation := JS.prop pathItem method in
  if JS.truthy operation && JS.truthy (JS.prop operation "operationId") then
    [ {| Diff.operationId := JS.prop operation "operationId";
         Diff.method := method;
         Diff.path := pathTemplate;
         Diff.hasRequestBody := JS.truthy (JS.prop operation "requestBody");
         Diff.summary :=
           JS.coalesce (JS.prop operation "summary") (VStr EmptyString) |} ]
  else [].

(** The descriptors of a document in the order the loops meet them: the
    paths as [Object.entries] lists them, the five methods in the order of
    the loop under each. *)
Definition diffDescriptors (spec : value) : list Diff.OperationInfo :=
  flat_map
    (fun entry : string * value =>
       flat_map (diffDescriptor (fst entry) (snd entry)) METHODS)
    (JS.own_entries (JS.prop spec "paths")).

(** The keys of a list in the order of their first occurrence. *)
Fixpoint first_seen (l : list identity) : list identity :=
  match l with
  | [] => []
  | k :: rest =>
      k :: List.filter (fun k' => negb (bool_decide (k' = k))) (first_seen rest)
  end.

(** The last descriptor of a list that has the key [k]. *)
Fixpoint last_with (k : identity) (l : list Diff.OperationInfo)
  : option Diff.OperationInfo :=
  match l with
  | [] => None
  | op :: rest =>
      match last_with k rest with
      | Some found => Some found
      | None => if bool_decide (id_of op = k) then Some op else None
      end
  end.

(** [k] is one of [keys]. *)
Definition known (keys : list identity) (k : identity) : bool :=
  existsb (fun k' => bool_decide (k = k')) keys.

(** [operations.set(operationId, ...)] on a descriptor. *)
Definition store (m : Diff.Map) (op : Diff.OperationInfo) : Diff.Map :=
  Diff.map_set (id_of op) op m.

(** A document in which two operations have the same [operationId]. *)
Definition repeatedOperationIdSpec : value :=
  VObj 1
    [("paths",
      VObj 2
        [("/a",
          VObj 3
            [("get", VObj 4 [("operationId", VStr "x");
                             ("summary", VStr "first")]);
             ("post", VObj 5 [("operationId", VStr "y")])]);
         ("/b",
          VObj 6
            [("get", VObj 7 [("operationId", VStr "x");
                             ("summary", VStr "second")])])])].

(** The key [to<U+212A>en], spelled with the Kelvin sign. *)
Definition kelvinKey : string :=
  "to" ++ String (ascii_of_nat 226) (String (ascii_of_nat 132)
            (String (ascii_of_nat 170) "en")).

(** ** Facts about property reads *)

Lemma get_truthy (v : value) (k : string) :
  JS.truthy v = true -> JS.get v k = Returns (JS.prop v k).
Proof. destruct v; simpl; try discriminate; reflexivity. Qed.

Lemma get_not_nullish (v : value) (k : string) :
  JS.nullish v = false -> JS.get v k = Returns (JS.prop v k).
Proof. unfold JS.get. now intros ->. Qed.

(** ** Facts about the naming functions *)

Section StringInduction.

Variable P : string -> Prop.
Hypothesis P_empty : P EmptyString.
Hypothesis P_one : forall c, P (String c EmptyString).
Hypothesis P_two :
  forall c d rest, P rest -> P (String d rest) -> P (String c (String d rest)).

(** Induction that follows a scan which consumes one or two characters. *)
Lemma string_pair_ind (s : string) : P s.
Proof.
  assert (H : P s /\ forall c, P (String c s)).
  { induction s as [|d rest [IH1 IH2]].
    - split; [exact P_empty | exact P_one].
    - split; [apply IH2 | intros c; apply P_two; [exact IH1 | apply IH2]]. }
  exact (proj1 H).
Qed.

End StringInduction.

Lemma upper_not_lower (d : ascii) :
  Str.is_lower d = true -> Str.is_lower (Str.upper d) = false.
Proof.
  destruct d as [[] [] [] [] [] [] [] []]; vm_compute; congruence.
Qed.

Lemma upper_not_separator (d : ascii) :
  Str.is_lower d = true -> is_separator (Str.upper d) = false.
Proof.
  destruct d as [[] [] [] [] [] [] [] []]; vm_compute; congruence.
Qed.

Lemma separator_not_lower (c : ascii) :
  is_separator c = true -> Str.is_lower c = false.
Proof.
  destruct c as [[] [] [] [] [] [] [] []]; vm_compute; congruence.
Qed.

Lemma toCamelCase_match (c d : ascii) (rest : string) :
  is_separator c = true -> Str.is_lower d = true ->
  toCamelCase (String c (String d rest)) = String (Str.upper d) (toCamelCase rest).
Proof. intros Hc Hd. simpl. now rewrite Hc, Hd. Qed.

Lemma toCamelCase_no_match (c d : ascii) (rest : string) :
  is_separator c && Str.is_lower d = false ->
  toCamelCase (String c (String d rest)) = String c (toCamelCase (String d rest)).
Proof. intros H. cbn [toCamelCase]. now rewrite H. Qed.

(** The first character of the result is the first character of the input or
    the capital that replaced a match. *)
Lemma toCamelCase_head (d : ascii) (rest : string) :
  exists h t, toCamelCase (String d rest) = String h t /\
              (h = d \/ Str.is_lower h = false).
Proof.
  destruct rest as [|e rest'].
  - exists d, EmptyString. split; [reflexivity | now left].
  - destruct (is_separator d && Str.is_lower e) eqn:E.
    + apply andb_prop in E as [Hd He].
      exists (Str.upper e), (toCamelCase rest'). split.
      * now apply toCamelCase_match.
      * right. now apply upper_not_lower.
    + exists d, (toCamelCase (String e rest')). split.
      * now apply toCamelCase_no_match.
      * now left.
Qed.

Lemma has_match_pair (c d : ascii) (rest : string) :
  has_match (String c (String d rest))
  = (is_separator c && Str.is_lower d) || has_match (String d rest).
Proof. reflexivity. Qed.

Lemma has_match_cons_not_separator (c : ascii) (t : string) :
  is_separator c = false -> has_match (String c t) = has_match t.
Proof. intros H. destruct t as [|e t']; simpl; [reflexivity | now rewrite H]. Qed.

(** No match is left in the result: a replacement only writes capitals, and
    two characters that are adjacent in the result were adjacent in the
    input. *)
Lemma toCamelCase_no_match_left (s : string) : has_match (toCamelCase s) = false.
Proof.
  induction s as [| c | c d rest IHrest IHtail] using string_pair_ind;
    try reflexivity.
  destruct (is_separator c && Str.is_lower d) eqn:E.
  - apply andb_prop in E as [Hc Hd].
    rewrite toCamelCase_match by assumption.
    rewrite has_match_cons_not_separator by now apply upper_not_separator.
    exact IHrest.
  - rewrite toCamelCase_no_match by assumption.
    destruct (toCamelCase_head d rest) as (h & t & Eq & Hh).
    rewrite Eq in IHtail |- *.
    rewrite has_match_pair, IHtail.
    destruct Hh as [-> | Hh].
    + now rewrite E.
    + rewrite Hh. now rewrite andb_false_r.
Qed.

Lemma toCamelCase_fixed (s : string) : has_match s = false -> toCamelCase s = s.
Proof.
  induction s as [|c s' IH]; [reflexivity|].
  destruct s' as [|d rest]; [reflexivity|].
  rewrite has_match_pair. intros H. apply orb_false_elim in H as [H1 H2].
  rewrite toCamelCase_no_match by assumption.
  now rewrite IH.
Qed.

Lemma toCamelCase_app_separator (pre : string) (c : ascii) (s : string) :
  Str.is_lower c = false ->
  toCamelCase (pre ++ String c s) = toCamelCase pre ++ toCamelCase (String c s).
Proof.
  intros Hc.
  induction pre as [| a | a b pre' IH1 IH2] using string_pair_ind.
  - reflexivity.
  - change (String a EmptyString ++ String c s) with (String a (String c s)).
    rewrite toCamelCase_no_match by (rewrite Hc; apply andb_false_r).
    reflexivity.
  - change (String a (String b pre') ++ String c s)
      with (String a (String b (pre' ++ String c s))).
    destruct (is_separator a && Str.is_lower b) eqn:E.
    + apply andb_prop in E as [Ha Hb].
      rewrite !toCamelCase_match by assumption.
      rewrite IH1. reflexivity.
    + rewrite !toCamelCase_no_match by assumption.
      change (String b (pre' ++ String c s)) with (String b pre' ++ String c s).
      rewrite IH2. reflexivity.
Qed.

(** C5: [toCamelCase] is idempotent, turns every [-] or [_] that is
    immediately followed by a lowercase letter into that letter's capital,
    and leaves a string without such a pair unchanged. *)
Theorem toCamelCase_idempotent_and_exact :
  (forall x : string, toCamelCase (toCamelCase x) = toCamelCase x) /\
  (forall (pre post : string) (c d : ascii),
      is_separator c = true -> Str.is_lower d = true ->
      toCamelCase (pre ++ String c (String d post))
      = toCamelCase pre ++ String (Str.upper d) (toCamelCase post)) /\
  (forall x : string, has_match x = false -> toCamelCase x = x).
Proof.
  split; [|split].
  - intros x. apply toCamelCase_fixed, toCamelCase_no_match_left.
  - intros pre post c d Hc Hd.
    rewrite toCamelCase_app_separator by now apply separator_not_lower.
    now rewrite toCamelCase_match.
  - exact toCamelCase_fixed.
Qed.

Lemma toCamelCase_idempotent_and_exact_witness :
  toCamelCase (toCamelCase "user_id-x") = toCamelCase "user_id-x" /\
  toCamelCase ("user" ++ String "_" (String "i" "d")) = "user" ++ String "I" "d" /\
  toCamelCase "userId" = "userId".
Proof.
  destruct toCamelCase_idempotent_and_exact as (H1 & H2 & H3).
  split; [apply H1 | split].
  - apply (H2 "user" "d" "_"%char "i"%char); reflexivity.
  - apply H3; reflexivity.
Defined.

(** ** Facts about [extractPathParams] *)

Lemma matchAll_cons (c : ascii) (s' : string) :
  matchAll (String c s') =
  match match_placeholder (String c s') with
  | Some (name, rest) => name :: matchAll rest
  | None => matchAll s'
  end.
Proof.
  rewrite matchAll_equation_2.
  destruct (Logic.inspect (match_placeholder (String c s'))) as [[[n r]|] E].
  - transitivity (n :: matchAll r); [reflexivity | now rewrite E].
  - transitivity (matchAll s'); [reflexivity | now rewrite E].
Qed.

Lemma span_name_closed (name rest : string) :
  ~ Str.mem "}" name ->
  span_name (name ++ String "}" rest) = (name, String "}" rest).
Proof.
  induction name as [|c name IH]; intros Hn.
  - reflexivity.
  - simpl. destruct (Ascii.eqb_spec c "}") as [->|Hc].
    + exfalso. apply Hn. now left.
    + rewrite IH; [reflexivity|]. intros Hin. apply Hn. now right.
Qed.

Lemma match_placeholder_closed (name rest : string) :
  name <> EmptyString -> ~ Str.mem "}" name ->
  match_placeholder (String "{" (name ++ String "}" rest)) = Some (name, rest).
Proof.
  intros Hne Hn. cbn [match_placeholder]. rewrite Ascii.eqb_refl.
  rewrite span_name_closed by assumption.
  destruct name; [congruence | reflexivity].
Qed.

Lemma matchAll_literal (literal s : string) :
  ~ Str.mem "{" literal -> matchAll (literal ++ s) = matchAll s.
Proof.
  induction literal as [|c literal IH]; intros Hl; [reflexivity|].
  change (String c literal ++ s) with (String c (literal ++ s)).
  rewrite matchAll_cons. cbn [match_placeholder].
  destruct (Ascii.eqb_spec c "{") as [->|Hc].
  - exfalso. apply Hl. now left.
  - apply IH. intros Hin. apply Hl. now right.
Qed.

Lemma matchAll_placeholder (name rest : string) :
  name <> EmptyString -> ~ Str.mem "}" name ->
  matchAll ("{" ++ name ++ "}" ++ rest) = name :: matchAll rest.
Proof.
  intros Hne Hn.
  change ("{" ++ name ++ "}" ++ rest) with (String "{" (name ++ String "}" rest)).
  rewrite matchAll_cons. now rewrite match_placeholder_closed.
Qed.

Lemma matchAll_no_open (s : string) : ~ Str.mem "{" s -> matchAll s = [].
Proof.
  induction s as [|c s IH]; intros H; [apply matchAll_equation_1|].
  rewrite matchAll_cons. cbn [match_placeholder].
  destruct (Ascii.eqb_spec c "{") as [->|Hc].
  - exfalso. apply H. now left.
  - apply IH. intros Hin. apply H. now right.
Qed.

Lemma span_name_no_close (s : string) :
  ~ Str.mem "}" s -> span_name s = (s, EmptyString).
Proof.
  induction s as [|c s IH]; intros Hs; [reflexivity|].
  simpl. destruct (Ascii.eqb_spec c "}") as [->|Hc].
  - exfalso. apply Hs. now left.
  - rewrite IH; [reflexivity|]. intros Hin. apply Hs. now right.
Qed.

(** A brace that is never closed starts no match. *)
Lemma matchAll_no_close (s : string) : ~ Str.mem "}" s -> matchAll s = [].
Proof.
  induction s as [|c s IH]; intros Hs; [apply matchAll_equation_1|].
  assert (Hs' : ~ Str.mem "}" s) by (intros Hin; apply Hs; now right).
  rewrite matchAll_cons. cbn [match_placeholder].
  rewrite (span_name_no_close s Hs').
  destruct (Ascii.eqb c "{"); [destruct s|]; now apply IH.
Qed.

(** C4: a template whose placeholders are named [p1 ... pn], in this order,
    has [pathParams = [p1; ...; pn]]: every name is kept as it is written,
    repeats included. *)
Theorem extractPathParams_round_trip
    (segments : list (string * string)) (tail : string) :
  (forall literal name, In (literal, name) segments ->
     ~ Str.mem "{" literal /\ name <> EmptyString /\ ~ Str.mem "}" name) ->
  ~ Str.mem "{" tail \/ ~ Str.mem "}" tail ->
  extractPathParams (template_of segments tail) = List.map snd segments.
Proof.
  unfold extractPathParams. intros Hseg Htail.
  induction segments as [|[literal name] more IH].
  - destruct Htail; [now apply matchAll_no_open | now apply matchAll_no_close].
  - change (template_of ((literal, name) :: more) tail)
      with (literal ++ "{" ++ name ++ "}" ++ template_of more tail).
    change (List.map snd ((literal, name) :: more)) with (name :: List.map snd more).
    destruct (Hseg literal name (or_introl eq_refl)) as (Hl & Hne & Hn).
    rewrite matchAll_literal by assumption.
    rewrite matchAll_placeholder by assumption.
    f_equal. apply IH. intros l n Hin. apply Hseg. now right.
Qed.

Lemma extractPathParams_round_trip_witness :
  extractPathParams "/users/{id}/posts/{id}/{post-Id}/{x"
  = ["id"; "id"; "post-Id"].
Proof.
  apply (extractPathParams_round_trip
           [("/users/", "id"); ("/posts/", "id"); ("/", "post-Id")] "/{x").
  - intros literal name [[= <- <-]|[[= <- <-]|[[= <- <-]|[]]]];
      (split; [|split]); try discriminate; vm_compute; intuition discriminate.
  - right. vm_compute; intuition discriminate.
Defined.

(** ** Facts about strings *)

Lemma append_assoc (a b c : string) : (a ++ b) ++ c = a ++ b ++ c.
Proof. induction a as [|x a IH]; simpl; [reflexivity | now rewrite IH]. Qed.

(** ** Determinism of extraction followed by rendering *)

(** C1: for a fixed spec document, extraction followed by rendering gives
    the same text on every run, the stamp excepted: the text is a fixed
    prefix, the stamp of the run, and a remainder that the document alone
    determines; a run that throws throws the same error on every run. *)
Theorem extractAndRender_deterministic (spec : value) :
  (exists e, forall now, extractAndRender now spec = Throws e) \/
  (exists rest, forall now,
      extractAndRender now spec
      = Returns (header_before_stamp ++ now ++ rest)).
Proof.
  unfold extractAndRender.
  destruct (parseOperations spec) as [st|e].
  - cbn [mbind outcome_bind]. unfold generateOperationsFileContent.
    destruct (generateOperationFunctions (operations st)) as [texts|e].
    + right.
      exists (header_before_count ++ Str.of_nat (List.length (operations st))
                ++ header_after_count ++ Str.join Str.nl texts ++ footer).
      intros now. cbn [mbind outcome_bind]. f_equal. now rewrite !append_assoc.
    + left. exists e. intros now. reflexivity.
  - left. exists e. intros now. reflexivity.
Qed.

(** ** The extractor on a document without operations *)

Lemma assoc_absent (k : string) (fields : list (string * value)) :
  ~ In k (List.map fst fields) -> JS.assoc k fields = VUndefined.
Proof.
  induction fields as [|[k' v] rest IH]; intros Hk; simpl; [reflexivity|].
  destruct (String.eqb_spec k k') as [->|Hne].
  - exfalso. apply Hk. now left.
  - apply IH. intros Hin. apply Hk. now right.
Qed.

(** C8: [parseOperations] returns the empty list, and throws nothing, when
    the spec is not an object, when it is [null], and when it is an object
    without a [paths] key. *)
Theorem parseOperations_no_paths (spec : value) :
  JS.typeof spec <> "object" \/ spec = VNull \/
    ~ In "paths" (List.map fst (JS.own_entries spec)) ->
  parseOperations spec = Returns {| operations := []; logged := [] |}.
Proof.
  intros H. unfold parseOperations.
  destruct spec as [| |b|n|s|l items|l fields];
    try reflexivity;
    (destruct H as [H|[H|H]]; [now contradiction H | discriminate H |]);
    cbn [JS.typeof String.eqb negb orb JS.strict_eq JS.identity_of];
    unfold JS.get, JS.prop; cbn [JS.nullish mbind outcome_bind];
    rewrite (assoc_absent _ _ H); reflexivity.
Qed.

Lemma parseOperations_no_paths_witness :
  parseOperations (VStr "openapi") = Returns {| operations := []; logged := [] |} /\
  parseOperations VNull = Returns {| operations := []; logged := [] |} /\
  parseOperations (VObj 1 [("openapi", VStr "3.0.0"); ("info", VObj 2 [])])
  = Returns {| operations := []; logged := [] |}.
Proof.
  split; [|split].
  - apply parseOperations_no_paths. left. discriminate.
  - apply parseOperations_no_paths. right; left. reflexivity.
  - apply parseOperations_no_paths. right; right.
    simpl. intros [H|[H|[]]]; discriminate H.
Defined.

(** ** The call shape of a [delete] operation that has a request body *)

(** C7, at a [delete] operation with a request body: the extractor yields
    the descriptor, and the emitter renders [data] in the call of
    [apiClient.delete], where the decision table has
    [call(path, config)]. *)
Theorem apiCall_delete_with_body :
  (exists st, parseOperations deleteWithBodySpec = Returns st /\
              operations st = [deleteWithBody]) /\
  apiCall deleteWithBody = "apiClient.delete(" ++ quoted "/items" ++ ", data, config)" /\
  apiCall deleteWithBody <> "apiClient.delete(" ++ quoted "/items" ++ ", config)".
Proof.
  split; [|split].
  - eexists. split; reflexivity.
  - reflexivity.
  - vm_compute. discriminate.
Qed.

(** The rows of the table the emitter does follow: with a request body the
    call passes [data], whatever the method; without one, [patch] passes
    [undefined] in the body slot and every other method passes no body
    argument. *)
Lemma apiCall_rows (operation : OperationMetadata) :
  let m := Str.toLowerCase (method operation) in
  let call (args : string) :=
    "apiClient." ++ m ++ "(" ++ quoted (path operation) ++ args in
  (hasRequestBody operation = true ->
     apiCall operation
     = call (if nonEmpty (pathParams operation)
             then ", data, pathParams, config)" else ", data, config)")) /\
  (hasRequestBody operation = false -> m = "patch" ->
     apiCall operation
     = call (if nonEmpty (pathParams operation)
             then ", undefined, pathParams, config)" else ", undefined, config)")) /\
  (hasRequestBody operation = false -> m <> "patch" ->
     apiCall operation
     = call (if nonEmpty (pathParams operation)
             then ", pathParams, config)" else ", config)")).
Proof.
  intros m call. unfold apiCall. fold m.
  split; [|split].
  - intros ->. unfold call. now destruct (nonEmpty _).
  - intros -> ->. unfold call. cbn [String.eqb Ascii.eqb Bool.eqb].
    now destruct (nonEmpty _).
  - intros -> Hm. apply String.eqb_neq in Hm. rewrite Hm. unfold call.
    now destruct (nonEmpty _).
Qed.

(** ** The skip rule of the extractor and the rule of the validator *)

(** C3, at an operation whose [operationId] is the number [5]: the
    extractor skips the operation and logs the skip, and the validator
    reports no issue at all. *)
Theorem skip_without_validator_warning :
  parseOperations numericOperationIdSpec
  = Returns
      {| operations := [];
         logged :=
           [ {| level := LevelWarn;
                context := [("method", "GET"); ("path", "/users/{id}")];
                message := "Skipping operation without operationId" |} ] |} /\
  Validate.validateSpec numericOperationIdSpec = Returns [].
Proof. split; reflexivity. Qed.

(** The half of the rule that does hold: what the validator warns about, the
    extractor skips. *)
Lemma validator_warning_implies_skip (id : value) :
  JS.truthy id = false -> skipsOperationId id = true.
Proof. unfold skipsOperationId. now intros ->. Qed.

(** ** The operations the differ sees and the operations generation keeps *)

Lemma keys_map_set (k k' : identity) (v : Diff.OperationInfo) (m : Diff.Map) :
  In k' (Diff.keys (Diff.map_set k v m)) <-> k' = k \/ In k' (Diff.keys m).
Proof.
  induction m as [|[k0 v0] rest IH]; simpl.
  - intuition congruence.
  - destruct (decide (k = k0)) as [->|Hne]; simpl.
    + intuition congruence.
    + rewrite IH. intuition congruence.
Qed.

(** Two loops over the same list, run side by side: if the first returns
    and each step of the second follows the step of the first, the second
    returns too, in a related state. *)
Lemma forOf_simulation {A S T : Type} (R : S -> T -> Prop)
    (body1 : S -> A -> outcome S) (body2 : T -> A -> outcome T) (l : list A) :
  (forall s t x s', In x l -> R s t -> body1 s x = Returns s' ->
                    exists t', body2 t x = Returns t' /\ R s' t') ->
  forall s t s', R s t -> forOf body1 l s = Returns s' ->
                 exists t', forOf body2 l t = Returns t' /\ R s' t'.
Proof.
  induction l as [|x l IH]; intros Hstep s t s' HR Hrun; simpl in *.
  - injection Hrun as <-. now exists t.
  - destruct (body1 s x) as [s1|e] eqn:E1; [|discriminate Hrun].
    destruct (Hstep s t x s1 (or_introl eq_refl) HR E1) as (t1 & -> & HR1).
    simpl in *. apply (IH (fun s0 t0 y s0' Hy => Hstep s0 t0 y s0' (or_intror Hy))
                          s1 t1 s' HR1 Hrun).
Qed.

Lemma covered_step (pathTemplate : string) (pathItem : value) (method : string)
    (st st' : parse_state) (m : Diff.Map) :
  covered st m ->
  parseOperation pathTemplate pathItem st method = Returns st' ->
  exists m', Diff.extractOperation pathTemplate pathItem m method = Returns m' /\
             covered st' m'.
Proof.
  intros Hc. unfold parseOperation, Diff.extractOperation.
  destruct (JS.get pathItem method) as [operation|e]; [|discriminate].
  cbn [mbind outcome_bind].
  destruct (JS.truthy operation) eqn:Hop; cbn [negb].
  2:{ intros [= <-]. now exists m. }
  rewrite !(get_truthy operation) by exact Hop. cbn [mbind outcome_bind].
  set (id := JS.prop operation "operationId").
  destruct (skipsOperationId id) eqn:Hskip.
  - intros [= <-].
    destruct (JS.truthy id); cbn [negb].
    + eexists. split; [reflexivity|].
      intros op Hin. apply keys_map_set. right. now apply Hc.
    + exists m. split; [reflexivity | exact Hc].
  - unfold skipsOperationId in Hskip.
    apply orb_false_elim in Hskip as [Htr Hty].
    apply negb_false_iff in Htr. rewrite Htr. cbn [negb].
    destruct id as [| |b|n|s|l items|l fields] eqn:Eid; try discriminate Hty.
    destruct (queryParamsOf _) as [q|e]; [|discriminate].
    cbn [mbind outcome_bind]. intros [= <-].
    eexists. split; [reflexivity|].
    intros op Hin. cbn [operations] in Hin. apply in_app_or in Hin as [Hin|[<-|[]]].
    + apply keys_map_set. right. now apply Hc.
    + apply keys_map_set. left. reflexivity.
Qed.

Lemma covered_path_item (entry : string * value)
    (st st' : parse_state) (m : Diff.Map) :
  covered st m ->
  parsePathItem st entry = Returns st' ->
  exists m', Diff.extractPathItem m entry = Returns m' /\ covered st' m'.
Proof.
  intros Hc Hrun. unfold parsePathItem in Hrun. unfold Diff.extractPathItem.
  apply (forOf_simulation covered
           (parseOperation (fst entry) (snd entry))
           (Diff.extractOperation (fst entry) (snd entry)) METHODS) with (s := st);
    [|exact Hc|exact Hrun].
  intros s t x s' _ HR Hstep. now apply (covered_step _ _ _ s).
Qed.

(** C10: whenever [parseOperations] returns, [extractOperations] returns a
    map whose keys include the [operationId] of every extracted descriptor;
    and for some spec the map has a key that no descriptor has, since
    [extractOperations] admits a truthy [operationId] that is not a
    string. *)
Theorem extractOperations_superset :
  (forall spec st,
      parseOperations spec = Returns st ->
      exists m, Diff.extractOperations spec = Returns m /\
                forall op, In op (operations st) ->
                           In (IStr (operationId op)) (Diff.keys m)) /\
  (exists spec st m k,
      parseOperations spec = Returns st /\
      Diff.extractOperations spec = Returns m /\
      In k (Diff.keys m) /\
      forall op, In op (operations st) -> IStr (operationId op) <> k).
Proof.
  split.
  - intros spec st. unfold parseOperations, Diff.extractOperations.
    destruct (negb (String.eqb (JS.typeof spec) "object") || JS.strict_eq spec VNull).
    { intros [= <-]. exists []. split; [reflexivity|]. intros op []. }
    destruct (JS.get spec "paths") as [paths|e]; [|discriminate].
    cbn [mbind outcome_bind].
    destruct (negb (JS.truthy paths)).
    { intros [= <-]. exists []. split; [reflexivity|]. intros op []. }
    destruct (JS.entries paths) as [pathEntries|e]; [|discriminate].
    cbn [mbind outcome_bind]. intros Hrun.
    apply (forOf_simulation covered parsePathItem Diff.extractPathItem pathEntries)
      with (s := {| operations := []; logged := [] |}); [| |exact Hrun].
    + intros s t x s' _ HR Hstep. now apply (covered_path_item x s).
    + intros op [].
  - exists truthyOperationIdSpec. do 2 eexists. exists (INum 5).
    split; [vm_compute; reflexivity|]. split; [vm_compute; reflexivity|]. split.
    + cbn. left. reflexivity.
    + cbn. intros op [<-|[]]. discriminate.
Qed.

Lemma extractOperations_superset_witness :
  exists m, Diff.extractOperations truthyOperationIdSpec = Returns m /\
            In (IStr "createUser") (Diff.keys m).
Proof.
  destruct (proj1 extractOperations_superset truthyOperationIdSpec _ eq_refl)
    as (m & Hm & Hcov).
  exists m. split; [exact Hm|].
  apply (Hcov {| operationId := "createUser"; method := "post"; path := "/users";
                 pathParams := []; hasRequestBody := false;
                 hasQueryParams := false; summary := VStr EmptyString;
                 description := VStr EmptyString |}).
  vm_compute. left. reflexivity.
Defined.

(** ** Which malformations the extractor survives *)

(** C2, at a document whose second operation has an object under
    [parameters]: [parseOperations] throws a [TypeError] where it is to skip
    at worst that one operation, and the well-formed [listUsers] operation
    before it is lost with the rest.  [validateSpec] and the differ's
    [extractOperations] return on the same document, and the differ has both
    operations. *)
Theorem parseOperations_throws_on_object_parameters :
  parseOperations objectParametersSpec = Throws TypeError /\
  (~ exists st, parseOperations objectParametersSpec = Returns st) /\
  (exists issues, Validate.validateSpec objectParametersSpec = Returns issues) /\
  (exists m,
      Diff.extractOperations objectParametersSpec = Returns m /\
      Diff.keys m = [IStr "listUsers"; IStr "createUser"]).
Proof.
  assert (H : parseOperations objectParametersSpec = Throws TypeError)
    by reflexivity.
  split; [exact H|]. split.
  - intros [st Hst]. rewrite H in Hst. discriminate Hst.
  - split; eexists; [|split]; reflexivity.
Qed.

Lemma some_in_query_returns (items : list value) :
  Forall (fun param => JS.nullish param = false) items ->
  exists b, some_in_query items = Returns b.
Proof.
  induction 1 as [|param rest Hp _ IH]; simpl.
  - now exists false.
  - rewrite (get_not_nullish param "in" Hp). cbn [mbind outcome_bind].
    destruct (JS.strict_eq _ _); [now exists true | exact IH].
Qed.

Lemma queryParamsOf_returns (parameters : value) :
  parameters_testable parameters -> exists b, queryParamsOf parameters = Returns b.
Proof.
  unfold queryParamsOf. intros [Hn|(l & items & -> & Hitems)].
  - rewrite Hn. now exists false.
  - cbn [JS.nullish]. now apply some_in_query_returns.
Qed.

Lemma parseOperation_returns (pathTemplate : string) (pathItem : value)
    (st : parse_state) (method : string) :
  JS.nullish pathItem = false ->
  (kept pathItem method = true ->
   parameters_testable (JS.prop (JS.prop pathItem method) "parameters")) ->
  exists st',
    parseOperation pathTemplate pathItem st method = Returns st' /\
    List.map place (operations st')
    = (List.map place (operations st)
         ++ if kept pathItem method then [(pathTemplate, method)] else [])%list.
Proof.
  intros Hitem Hparams. unfold parseOperation, kept in *.
  rewrite (get_not_nullish pathItem method Hitem). cbn [mbind outcome_bind].
  set (operation := JS.prop pathItem method) in *.
  destruct (JS.truthy operation) eqn:Hop; cbn [negb andb] in *.
  2:{ exists st. split; [reflexivity | now rewrite app_nil_r]. }
  rewrite !(get_truthy operation) by exact Hop. cbn [mbind outcome_bind].
  set (id := JS.prop operation "operationId") in *.
  destruct (skipsOperationId id) eqn:Hskip; cbn [negb] in *.
  - eexists. split; [reflexivity|]. cbn [operations]. now rewrite app_nil_r.
  - unfold skipsOperationId in Hskip.
    apply orb_false_elim in Hskip as [_ Hty].
    destruct id as [| |b|n|s|l items|l fields]; try discriminate Hty.
    destruct (queryParamsOf_returns _ (Hparams eq_refl)) as [q ->].
    cbn [mbind outcome_bind]. eexists. split; [reflexivity|].
    cbn [operations]. now rewrite List.map_app.
Qed.

Lemma parseMethods_returns (pathTemplate : string) (pathItem : value)
    (methods : list string) (st : parse_state) :
  JS.nullish pathItem = false ->
  (forall method, In method methods -> kept pathItem method = true ->
     parameters_testable (JS.prop (JS.prop pathItem method) "parameters")) ->
  exists st',
    forOf (parseOperation pathTemplate pathItem) methods st = Returns st' /\
    List.map place (operations st')
    = (List.map place (operations st)
         ++ List.map (pair pathTemplate) (List.filter (kept pathItem) methods))%list.
Proof.
  intros Hitem. revert st.
  induction methods as [|method rest IH]; intros st Hparams.
  - exists st. split; [reflexivity | now rewrite app_nil_r].
  - destruct (parseOperation_returns pathTemplate pathItem st method Hitem
                (Hparams method (or_introl eq_refl))) as (st1 & E1 & Hplaces1).
    destruct (IH st1 (fun m Hm => Hparams m (or_intror Hm))) as (st2 & E2 & Hplaces2).
    exists st2. split.
    + cbn [forOf]. rewrite E1. exact E2.
    + rewrite Hplaces2, Hplaces1, <- app_assoc. f_equal.
      cbn [List.filter]. now destruct (kept pathItem method).
Qed.

Lemma parsePaths_returns (pathEntries : list (string * value)) (st : parse_state) :
  (forall pathTemplate pathItem, In (pathTemplate, pathItem) pathEntries ->
     JS.nullish pathItem = false /\
     forall method, In method METHODS -> kept pathItem method = true ->
       parameters_testable (JS.prop (JS.prop pathItem method) "parameters")) ->
  exists st',
    forOf parsePathItem pathEntries st = Returns st' /\
    List.map place (operations st')
    = (List.map place (operations st)
         ++ flat_map
              (fun '(pathTemplate, pathItem) =>
                 List.map (pair pathTemplate) (List.filter (kept pathItem) METHODS))
              pathEntries)%list.
Proof.
  revert st. induction pathEntries as [|[pathTemplate pathItem] rest IH];
    intros st Hok.
  - exists st. split; [reflexivity | now rewrite app_nil_r].
  - destruct (Hok pathTemplate pathItem (or_introl eq_refl)) as [Hitem Hparams].
    destruct (parseMethods_returns pathTemplate pathItem METHODS st Hitem Hparams)
      as (st1 & E1 & Hplaces1).
    destruct (IH st1 (fun p i Hin => Hok p i (or_intror Hin)))
      as (st2 & E2 & Hplaces2).
    exists st2. split.
    + cbn [forOf].
      change (parsePathItem st (pathTemplate, pathItem))
        with (forOf (parseOperation pathTemplate pathItem) METHODS st).
      rewrite E1. exact E2.
    + rewrite Hplaces2, Hplaces1, <- app_assoc. reflexivity.
Qed.

(** An index never spells a property name that starts with a letter. *)
Lemma index_not_paths (i : nat) : Str.of_nat i <> "paths".
Proof. unfold Str.of_nat. destruct (Nat.to_uint i); discriminate. Qed.

Lemma assoc_indexed_paths (items : list value) (i : nat) :
  JS.assoc "paths" (JS.indexed i items) = VUndefined.
Proof.
  revert i; induction items as [|x rest IH]; intros i; [reflexivity|].
  cbn [JS.indexed JS.assoc].
  destruct (String.eqb_spec "paths" (Str.of_nat i)) as [E|_]; [|apply IH].
  now contradiction (index_not_paths i).
Qed.

(** The documents on which the extraction does complete: when no path item
    is [null] and the [parameters] of every kept operation is absent, [null]
    or an array without [null] elements, [parseOperations] returns, with one
    descriptor for each operation whose [operationId] is a non-empty string,
    the paths in the order [Object.entries] lists them and the methods in the
    order of the loop. *)
Lemma parseOperations_completes (spec : value) :
  extractable spec ->
  exists st,
    parseOperations spec = Returns st /\
    List.map place (operations st) = kept_operations spec.
Proof.
  intros Hok. unfold parseOperations, kept_operations.
  destruct (negb (String.eqb (JS.typeof spec) "object") || JS.strict_eq spec VNull)
    eqn:Hspec.
  - eexists. split; [reflexivity|].
    destruct spec; try discriminate Hspec; try reflexivity.
    unfold JS.prop. cbn [JS.own_entries]. now rewrite assoc_indexed_paths.
  - assert (Hnn : JS.nullish spec = false)
      by (destruct spec; try discriminate Hspec; reflexivity).
    rewrite (get_not_nullish spec "paths" Hnn). cbn [mbind outcome_bind].
    destruct (JS.truthy (JS.prop spec "paths")) eqn:Hpaths; cbn [negb].
    + unfold JS.entries.
      replace (JS.nullish (JS.prop spec "paths")) with false
        by (destruct (JS.prop spec "paths"); try discriminate Hpaths; reflexivity).
      cbn [mbind outcome_bind].
      apply (parsePaths_returns _ {| operations := []; logged := [] |}), Hok.
    + eexists. split; [reflexivity|].
      destruct (JS.prop spec "paths") as [| |b|n|s|l items|l fields];
        try discriminate Hpaths; try reflexivity.
      * cbn in Hpaths. destruct s; [reflexivity | discriminate Hpaths].
Qed.

Lemma parseOperations_completes_witness :
  exists st,
    parseOperations malformedOperationsSpec = Returns st /\
    List.map place (operations st)
    = [("/users/{id}", "get"); ("/users/{id}", "delete")].
Proof.
  assert (H : extractable malformedOperationsSpec).
  { intros pathTemplate pathItem [[= <- <-]|[]]. split; [reflexivity|].
    intros method [<-|[<-|[<-|[<-|[<-|[]]]]]] Hkept;
      try discriminate Hkept.
    - right. eexists _, _. split; [reflexivity|]. repeat constructor.
    - left. reflexivity. }
  destruct (parseOperations_completes malformedOperationsSpec H) as (st & E & Hp).
  exists st. split; [exact E | exact Hp].
Defined.

(** ** The classification the differ computes *)

Lemma fold_visitNew (current new : Diff.Map) (acc : Diff.changes) :
  fold_left (Diff.visitNew current) new acc
  = {| Diff.added := (Diff.added acc ++ flat_map (addedBy current) new)%list;
       Diff.removed := Diff.removed acc;
       Diff.modified :=
         (Diff.modified acc ++ flat_map (modifiedBy current) new)%list |}.
Proof.
  revert acc; induction new as [|[id newOp] rest IH]; intros acc.
  - destruct acc; simpl. now rewrite !app_nil_r.
  - cbn [fold_left flat_map]. rewrite IH. unfold Diff.visitNew, addedBy, modifiedBy.
    cbn [fst snd].
    destruct (Diff.map_get id current) as [currentOp|].
    + destruct (Diff.hasChanges currentOp newOp); cbn [Diff.added Diff.removed Diff.modified];
        now rewrite ?app_nil_l, <- ?app_assoc.
    + cbn [Diff.added Diff.removed Diff.modified]. now rewrite ?app_nil_l, <- ?app_assoc.
Qed.

Lemma fold_visitCurrent (new current : Diff.Map) (acc : Diff.changes) :
  fold_left (Diff.visitCurrent new) current acc
  = {| Diff.added := Diff.added acc;
       Diff.removed := (Diff.removed acc ++ flat_map (removedBy new) current)%list;
       Diff.modified := Diff.modified acc |}.
Proof.
  revert acc; induction current as [|[id currentOp] rest IH]; intros acc.
  - destruct acc; simpl. now rewrite !app_nil_r.
  - cbn [fold_left flat_map]. rewrite IH. unfold Diff.visitCurrent, removedBy.
    cbn [fst snd].
    destruct (Diff.map_has id new); cbn [negb Diff.added Diff.removed Diff.modified];
      now rewrite ?app_nil_l, <- ?app_assoc.
Qed.

Lemma computeChanges_eq (old new : Diff.Map) :
  Diff.computeChanges old new
  = {| Diff.added := flat_map (addedBy old) new;
       Diff.removed := flat_map (removedBy new) old;
       Diff.modified := flat_map (modifiedBy old) new |}.
Proof.
  unfold Diff.computeChanges. rewrite fold_visitCurrent, fold_visitNew. reflexivity.
Qed.

Lemma map_get_In (id : identity) (v : Diff.OperationInfo) (m : Diff.Map) :
  Diff.map_get id m = Some v -> In (id, v) m.
Proof.
  induction m as [|[k w] rest IH]; simpl; [discriminate|].
  destruct (decide (id = k)) as [->|_].
  - intros [= ->]. now left.
  - intros H. right. now apply IH.
Qed.

Lemma map_get_None (id : identity) (m : Diff.Map) :
  Diff.map_get id m = None <-> ~ In id (Diff.keys m).
Proof.
  induction m as [|[k w] rest IH]; simpl; [tauto|].
  destruct (decide (id = k)) as [->|Hne].
  - split; [discriminate | intros H; exfalso; apply H; now left].
  - rewrite IH. split; [intros H [E|Hin]; [congruence | tauto] | tauto].
Qed.

Lemma map_get_NoDup (id : identity) (v : Diff.OperationInfo) (m : Diff.Map) :
  List.NoDup (Diff.keys m) -> In (id, v) m -> Diff.map_get id m = Some v.
Proof.
  induction m as [|[k w] rest IH]; simpl; [tauto|].
  intros Hnd Hin. apply NoDup_cons_iff in Hnd as [Hk Hnd].
  destruct (decide (id = k)) as [->|Hne].
  - destruct Hin as [[= ->]|Hin]; [reflexivity|].
    exfalso. apply Hk. change k with (fst (k, v)). now apply in_map.
  - destruct Hin as [[= E _]|Hin]; [congruence | now apply IH].
Qed.

Lemma map_get_key (id : identity) (m : Diff.Map) :
  In id (Diff.keys m) -> exists v, Diff.map_get id m = Some v.
Proof.
  intros Hin. destruct (Diff.map_get id m) as [v|] eqn:E; [now exists v|].
  now apply map_get_None in E.
Qed.

Lemma map_has_key (id : identity) (m : Diff.Map) :
  Diff.map_has id m = true <-> In id (Diff.keys m).
Proof.
  unfold Diff.map_has. split.
  - destruct (Diff.map_get id m) as [v|] eqn:E; [|discriminate].
    intros _. apply map_get_In in E. change id with (fst (id, v)). now apply in_map.
  - intros Hin. now destruct (map_get_key id m Hin) as [v ->].
Qed.

Lemma hasChanges_differ (a b : Diff.OperationInfo) :
  Diff.hasChanges a b = true <-> differ a b.
Proof.
  unfold Diff.hasChanges, differ, JS.strict_eq.
  rewrite !orb_true_iff, !negb_true_iff, !String.eqb_neq, bool_decide_eq_false.
  rewrite Bool.eqb_false_iff. tauto.
Qed.

Lemma ids_added (old new : Diff.Map) (id : identity) :
  keyed new ->
  In id (ids (flat_map (addedBy old) new))
  <-> In id (Diff.keys new) /\ ~ In id (Diff.keys old).
Proof.
  intros Hk. unfold ids. rewrite in_map_iff. split.
  - intros (op & <- & Hin). apply in_flat_map in Hin as ([k v] & Hnew & Hop).
    unfold addedBy in Hop. cbn [fst snd] in Hop.
    destruct (Diff.map_get k old) eqn:E; [destruct Hop|].
    destruct Hop as [<-|[]]. rewrite <- (Hk k v Hnew). split.
    + change k with (fst (k, v)). now apply in_map.
    + now apply map_get_None.
  - intros [Hin Hold]. apply in_map_iff in Hin as ([k v] & <- & Hnew).
    cbn [fst] in *. exists v. split; [symmetry; now apply Hk|].
    apply in_flat_map. exists (k, v). split; [exact Hnew|].
    unfold addedBy. cbn [fst snd]. apply map_get_None in Hold. rewrite Hold. now left.
Qed.

Lemma ids_removed (old new : Diff.Map) (id : identity) :
  keyed old ->
  In id (ids (flat_map (removedBy new) old))
  <-> In id (Diff.keys old) /\ ~ In id (Diff.keys new).
Proof.
  intros Hk. unfold ids. rewrite in_map_iff. split.
  - intros (op & <- & Hin). apply in_flat_map in Hin as ([k v] & Hold & Hop).
    unfold removedBy in Hop. cbn [fst snd] in Hop.
    destruct (Diff.map_has k new) eqn:E; [destruct Hop|].
    destruct Hop as [<-|[]]. rewrite <- (Hk k v Hold). split.
    + change k with (fst (k, v)). now apply in_map.
    + intros Hin. apply map_has_key in Hin. congruence.
  - intros [Hin Hnew]. apply in_map_iff in Hin as ([k v] & <- & Hold).
    cbn [fst] in *. exists v. split; [symmetry; now apply Hk|].
    apply in_flat_map. exists (k, v). split; [exact Hold|].
    unfold removedBy. cbn [fst snd].
    destruct (Diff.map_has k new) eqn:E; [|now left].
    apply map_has_key in E. contradiction.
Qed.

Lemma keyed_cons (k : identity) (v : Diff.OperationInfo) (rest : Diff.Map) :
  keyed ((k, v) :: rest) -> k = id_of v /\ keyed rest.
Proof.
  intros Hk. split; [apply Hk; now left|].
  intros id op Hin. apply Hk. now right.
Qed.

(** An id of both maps occurs once among the modified pairs when its two
    descriptors have changes, and not at all when they have none. *)
Lemma count_modified (old new : Diff.Map) (id : identity) :
  keyed new -> List.NoDup (Diff.keys new) ->
  count_occ identity_eq_dec (List.map pair_id (flat_map (modifiedBy old) new)) id
  = match Diff.map_get id new, Diff.map_get id old with
    | Some b, Some a => if Diff.hasChanges a b then 1 else 0
    | _, _ => 0
    end.
Proof.
  induction new as [|[k v] rest IH]; intros Hk Hnd; [reflexivity|].
  apply keyed_cons in Hk as [Hkv Hk]. cbn [Diff.keys List.map fst] in Hnd.
  apply NoDup_cons_iff in Hnd as [Hfresh Hnd].
  cbn [flat_map]. rewrite List.map_app, count_occ_app, (IH Hk Hnd).
  unfold modifiedBy at 1. cbn [fst snd Diff.map_get].
  destruct (decide (id = k)) as [->|Hne].
  - apply map_get_None in Hfresh. rewrite Hfresh.
    destruct (Diff.map_get k old) as [a|]; [|reflexivity].
    destruct (Diff.hasChanges a v); [|reflexivity].
    cbn [List.map count_occ]. unfold pair_id. cbn [snd]. rewrite <- Hkv.
    destruct (identity_eq_dec k k); [reflexivity | congruence].
  - assert (Hhead : count_occ identity_eq_dec
                      (List.map pair_id
                         match Diff.map_get k old with
                         | Some currentOp =>
                             if Diff.hasChanges currentOp v then [(currentOp, v)] else []
                         | None => []
                         end) id = 0).
    { destruct (Diff.map_get k old) as [a|]; [|reflexivity].
      destruct (Diff.hasChanges a v); [|reflexivity].
      cbn [List.map count_occ]. unfold pair_id. cbn [snd]. rewrite <- Hkv.
      destruct (identity_eq_dec k id); [congruence | reflexivity]. }
    rewrite Hhead. reflexivity.
Qed.

Lemma modified_In (old new : Diff.Map) (a b : Diff.OperationInfo) :
  In (a, b) (flat_map (modifiedBy old) new)
  <-> exists id, In (id, b) new /\ Diff.map_get id old = Some a /\
                 Diff.hasChanges a b = true.
Proof.
  rewrite in_flat_map. split.
  - intros ([k v] & Hnew & Hin). unfold modifiedBy in Hin. cbn [fst snd] in Hin.
    destruct (Diff.map_get k old) as [c|] eqn:E; [|destruct Hin].
    destruct (Diff.hasChanges c v) eqn:Hc; [|destruct Hin].
    destruct Hin as [[= <- <-]|[]]. now exists k.
  - intros (id & Hnew & E & Hc). exists (id, b). split; [exact Hnew|].
    unfold modifiedBy. cbn [fst snd]. rewrite E, Hc. now left.
Qed.

Lemma NoDup_ids_added (old new : Diff.Map) :
  keyed new -> List.NoDup (Diff.keys new) ->
  List.NoDup (ids (flat_map (addedBy old) new)).
Proof.
  induction new as [|[k v] rest IH]; intros Hk Hnd; [constructor|].
  pose proof Hk as Hall. apply keyed_cons in Hk as [Hkv Hk].
  cbn [Diff.keys List.map fst] in Hnd. apply NoDup_cons_iff in Hnd as [Hfresh Hnd].
  cbn [flat_map]. unfold addedBy at 1. cbn [fst snd].
  destruct (Diff.map_get k old); [now apply IH|].
  cbn [app ids List.map]. constructor; [|now apply IH].
  rewrite <- Hkv. intros Hin. apply (ids_added old rest k Hk) in Hin. tauto.
Qed.

Lemma NoDup_ids_removed (old new : Diff.Map) :
  keyed old -> List.NoDup (Diff.keys old) ->
  List.NoDup (ids (flat_map (removedBy new) old)).
Proof.
  induction old as [|[k v] rest IH]; intros Hk Hnd; [constructor|].
  apply keyed_cons in Hk as [Hkv Hk].
  cbn [Diff.keys List.map fst] in Hnd. apply NoDup_cons_iff in Hnd as [Hfresh Hnd].
  cbn [flat_map]. unfold removedBy at 1. cbn [fst snd].
  destruct (Diff.map_has k new); [now apply IH|].
  cbn [app ids List.map]. constructor; [|now apply IH].
  rewrite <- Hkv. intros Hin. apply (ids_removed rest new k Hk) in Hin. tauto.
Qed.

(** The record [extractOperations] stores reads [operationId],
    [requestBody] and [summary] of the operation object, nothing else. *)
Lemma extractOperation_reads (pathTemplate method : string)
    (pathItem pathItem' : value) (m : Diff.Map) :
  let operation := JS.prop pathItem method in
  let operation' := JS.prop pathItem' method in
  JS.nullish pathItem = false -> JS.nullish pathItem' = false ->
  JS.truthy operation = true -> JS.truthy operation' = true ->
  (forall k, In k ["operationId"; "requestBody"; "summary"] ->
             JS.prop operation k = JS.prop operation' k) ->
  Diff.extractOperation pathTemplate pathItem m method
  = Diff.extractOperation pathTemplate pathItem' m method.
Proof.
  intros operation operation' Hi Hi' Ho Ho' Hsame. unfold Diff.extractOperation.
  rewrite (get_not_nullish pathItem method Hi),
          (get_not_nullish pathItem' method Hi').
  cbn [mbind outcome_bind]. fold operation operation'. rewrite Ho, Ho'.
  rewrite !(get_truthy operation) by exact Ho.
  rewrite !(get_truthy operation') by exact Ho'.
  rewrite !Hsame by (simpl; tauto). reflexivity.
Qed.

(** C6: for maps keyed by [operationId], the added ids are those of the new
    map that the old map lacks, the removed ids are those of the old map
    that the new map lacks, and an id of both maps occurs among the modified
    pairs once when its two descriptors differ on [method], [path],
    [hasRequestBody] or [summary] and not at all otherwise; no other field
    of the operation object is read. *)
Theorem computeChanges_classifies (old new : Diff.Map) :
  keyed old -> keyed new ->
  List.NoDup (Diff.keys old) -> List.NoDup (Diff.keys new) ->
  let changes := Diff.computeChanges old new in
  (forall id, In id (ids (Diff.added changes))
              <-> In id (Diff.keys new) /\ ~ In id (Diff.keys old)) /\
  (forall id, In id (ids (Diff.removed changes))
              <-> In id (Diff.keys old) /\ ~ In id (Diff.keys new)) /\
  List.NoDup (ids (Diff.added changes)) /\
  List.NoDup (ids (Diff.removed changes)) /\
  (forall id a b,
      Diff.map_get id old = Some a -> Diff.map_get id new = Some b ->
      (differ a b ->
         In (a, b) (Diff.modified changes) /\
         count_occ identity_eq_dec (List.map pair_id (Diff.modified changes)) id = 1) /\
      (~ differ a b ->
         count_occ identity_eq_dec (List.map pair_id (Diff.modified changes)) id = 0)) /\
  (forall a b, In (a, b) (Diff.modified changes) ->
               exists id, Diff.map_get id old = Some a /\
                          Diff.map_get id new = Some b /\ differ a b) /\
  (forall pathTemplate method pathItem pathItem' m,
      JS.nullish pathItem = false -> JS.nullish pathItem' = false ->
      JS.truthy (JS.prop pathItem method) = true ->
      JS.truthy (JS.prop pathItem' method) = true ->
      (forall k, In k ["operationId"; "requestBody"; "summary"] ->
                 JS.prop (JS.prop pathItem method) k
                 = JS.prop (JS.prop pathItem' method) k) ->
      Diff.extractOperation pathTemplate pathItem m method
      = Diff.extractOperation pathTemplate pathItem' m method).
Proof.
  intros Hko Hkn Hndo Hndn changes. subst changes. rewrite computeChanges_eq.
  cbn [Diff.added Diff.removed Diff.modified].
  split; [|split; [|split; [|split; [|split; [|split]]]]].
  - intros id. now apply ids_added.
  - intros id. now apply ids_removed.
  - now apply NoDup_ids_added.
  - now apply NoDup_ids_removed.
  - intros id a b Hold Hnew. rewrite count_modified by assumption.
    rewrite Hnew, Hold. split.
    + intros Hd. apply hasChanges_differ in Hd. rewrite Hd. split; [|reflexivity].
      apply modified_In. exists id. split; [now apply map_get_In | now split].
    + intros Hnot. destruct (Diff.hasChanges a b) eqn:E; [|reflexivity].
      now apply hasChanges_differ in E.
  - intros a b Hin. apply modified_In in Hin as (id & Hnew & Hold & Hc). exists id.
    split; [exact Hold|]. split; [now apply map_get_NoDup | now apply hasChanges_differ].
  - intros pathTemplate method pathItem pathItem' m. apply extractOperation_reads.
Qed.

Lemma computeChanges_classifies_witness :
  let changes := Diff.computeChanges oldOperations newOperations in
  In (IStr "removeUser") (ids (Diff.added changes)) /\
  In (IStr "listUsers") (ids (Diff.removed changes)) /\
  count_occ identity_eq_dec (List.map pair_id (Diff.modified changes))
            (IStr "createUser") = 1 /\
  count_occ identity_eq_dec (List.map pair_id (Diff.modified changes))
            (IStr "getUser") = 0.
Proof.
  assert (Hko : keyed oldOperations).
  { intros id op [[= <- <-]|[[= <- <-]|[[= <- <-]|[]]]]; reflexivity. }
  assert (Hkn : keyed newOperations).
  { intros id op [[= <- <-]|[[= <- <-]|[[= <- <-]|[]]]]; reflexivity. }
  assert (Hndo : List.NoDup (Diff.keys oldOperations)).
  { repeat constructor; simpl; intuition discriminate. }
  assert (Hndn : List.NoDup (Diff.keys newOperations)).
  { repeat constructor; simpl; intuition discriminate. }
  destruct (computeChanges_classifies oldOperations newOperations Hko Hkn Hndo Hndn)
    as (Hadd & Hrem & _ & _ & Hmod & _).
  split; [|split; [|split]].
  - apply Hadd. split; [simpl; tauto | simpl; intuition discriminate].
  - apply Hrem. split; [simpl; tauto | simpl; intuition discriminate].
  - apply (Hmod (IStr "createUser") _ _ eq_refl eq_refl).
    right; right; left. discriminate.
  - apply (Hmod (IStr "getUser") _ _ eq_refl eq_refl).
    intros [H|[H|[H|H]]]; now apply H.
Defined.

(** ** When the generated error module returns *)

Section ErrorModuleFacts.

Import ApiErrorModule.

Lemma truthy_not_nullish (v : value) : JS.truthy v = true -> JS.nullish v = false.
Proof. destruct v; simpl; congruence. Qed.

Lemma is_string_typeof (v : value) : is_string v = true <-> JS.typeof v = "string".
Proof. apply String.eqb_eq. Qed.

Lemma optional_get_returns (v : value) (k : string) :
  optional_get v k = Returns (if JS.nullish v then VUndefined else JS.prop v k).
Proof. unfold optional_get, JS.get. now destruct (JS.nullish v). Qed.

Lemma fromError_returns (e : value) :
  JS.nullish e = false ->
  exists r, fromError e = Returns r /\ string_result r.
Proof.
  intros He. unfold fromError. rewrite (get_not_nullish e "error" He).
  cbn [mbind outcome_bind]. set (err := JS.prop e "error").
  destruct (JS.truthy err); [|exists None; split; [reflexivity | discriminate]].
  destruct (is_string err) eqn:Hs.
  - exists (Some err). split; [reflexivity|]. now intros v [= <-].
  - rewrite optional_get_returns. cbn [mbind outcome_bind].
    case_inner_string; eexists; (split; [reflexivity|]).
    + now intros v [= <-].
    + discriminate.
Qed.

(** The [errors] block returns a string, or throws when the item it prints
    cannot be printed. *)
Lemma fromErrors_cases (e : value) :
  JS.nullish e = false ->
  (exists r, fromErrors e = Returns r /\ string_result r) \/
  (fromErrors e = Throws TypeError /\
   JS.to_string (fieldItem e) = Throws TypeError).
Proof.
  intros He. unfold fromErrors, fieldItem.
  rewrite (get_not_nullish e "errors" He).
  cbn [mbind outcome_bind]. set (errors := JS.prop e "errors").
  destruct (JS.truthy errors) eqn:Ht;
    [|left; exists None; split; [reflexivity | discriminate]].
  destruct (JS.isArray errors).
  - left. destruct (is_string (first_item errors)) eqn:Hs.
    + eexists. split; [reflexivity|]. now intros v [= <-].
    + rewrite optional_get_returns. cbn [mbind outcome_bind].
      case_inner_string; eexists; (split; [reflexivity|]).
      * now intros v [= <-].
      * discriminate.
  - destruct (String.eqb (JS.typeof errors) "object");
      [|left; exists None; split; [reflexivity | discriminate]].
    unfold JS.values. rewrite (truthy_not_nullish errors Ht).
    cbn [mbind outcome_bind].
    destruct (JS.isArray _ && Nat.ltb 0 _);
      [|left; exists None; split; [reflexivity | discriminate]].
    destruct (JS.to_string
                (first_item (JS.first (List.map snd (JS.own_entries errors)))))
      as [text|[]] eqn:Eprint.
    + left. eexists. split; [reflexivity|]. now intros v [= <-].
    + right. now split.
Qed.

(** The [detail] tests return a string, or [detail[0].msg] as it is. *)
Lemma fromDetail_returns (e : value) :
  JS.nullish e = false ->
  exists r, fromDetail e = Returns r /\
            forall v, r = Some v ->
                      is_string v = true \/
                      (JS.isArray (JS.prop e "detail") = true /\
                       JS.truthy v = true /\
                       v = JS.prop (first_item (JS.prop e "detail")) "msg").
Proof.
  intros He. unfold fromDetail. rewrite (get_not_nullish e "detail" He).
  cbn [mbind outcome_bind]. set (detail := JS.prop e "detail").
  destruct (is_string detail) eqn:Hs.
  - eexists. split; [reflexivity|]. intros v [= <-]. now left.
  - destruct (JS.isArray detail) eqn:Ha;
      [|exists None; split; [reflexivity | discriminate]].
    rewrite optional_get_returns. cbn [mbind outcome_bind].
    destruct (JS.nullish (first_item detail)) eqn:Hn.
    + exists None. split; [reflexivity | discriminate].
    + destruct (JS.truthy (JS.prop (first_item detail) "msg")) eqn:Hm.
      * rewrite (get_not_nullish _ "msg" Hn). cbn [mbind outcome_bind].
        eexists. split; [reflexivity|]. intros v [= <-]. right. now repeat split.
      * exists None. split; [reflexivity | discriminate].
Qed.

(** [normalizeErrorMessage] returns a string, or [detail[0].msg] as it is;
    the one thing that makes it throw is the item of the errors-by-field
    convention, when it cannot be printed. *)
Lemma normalizeErrorMessage_cases (error : value) :
  (exists r,
     normalizeErrorMessage error = Returns r /\
     (JS.typeof r = "string" \/
      (JS.isArray (JS.prop error "detail") = true /\
       JS.truthy r = true /\
       r = JS.prop (first_item (JS.prop error "detail")) "msg"))) \/
  (normalizeErrorMessage error = Throws TypeError /\
   JS.to_string (fieldItem error) = Throws TypeError).
Proof.
  unfold normalizeErrorMessage.
  destruct (negb (JS.truthy error) || negb (String.eqb (JS.typeof error) "object"))
    eqn:Hguard.
  { left. eexists. split; [reflexivity | now left]. }
  apply orb_false_elim in Hguard as [Ht _]. apply negb_false_iff in Ht.
  pose proof (truthy_not_nullish error Ht) as Hn.
  rewrite (get_not_nullish error "message" Hn). cbn [mbind outcome_bind].
  destruct (is_string (JS.prop error "message")) eqn:Hm.
  { left. eexists. split; [reflexivity|]. left. now apply is_string_typeof. }
  destruct (fromError_returns error Hn) as ([v1|] & -> & H1); cbn [mbind outcome_bind].
  { left. eexists. split; [reflexivity|]. left. apply is_string_typeof. now apply H1. }
  destruct (fromErrors_cases error Hn) as [([v2|] & -> & H2)|[-> Hprint]];
    cbn [mbind outcome_bind].
  { left. eexists. split; [reflexivity|]. left. apply is_string_typeof. now apply H2. }
  2:{ right. now split. }
  left.
  destruct (fromDetail_returns error Hn) as ([v3|] & -> & H3); cbn [mbind outcome_bind].
  { eexists. split; [reflexivity|].
    destruct (H3 v3 eq_refl) as [Hs|Hd]; [left; now apply is_string_typeof | now right]. }
  rewrite (get_not_nullish error "title" Hn). cbn [mbind outcome_bind].
  destruct (is_string (JS.prop error "title")) eqn:Htitle.
  - eexists. split; [reflexivity|]. left. now apply is_string_typeof.
  - eexists. split; [reflexivity | now left].
Qed.

Lemma normalizeErrorMessage_fallback (error : value) :
  JS.truthy error = false \/ JS.typeof error <> "object" \/
    (forall k, In k ["message"; "error"; "errors"; "detail"; "title"] ->
               JS.prop error k = VUndefined) ->
  normalizeErrorMessage error = Returns (VStr FALLBACK).
Proof.
  intros H. unfold normalizeErrorMessage.
  destruct (negb (JS.truthy error) || negb (String.eqb (JS.typeof error) "object"))
    eqn:Hguard; [reflexivity|].
  apply orb_false_elim in Hguard as [Ht Hty].
  apply negb_false_iff in Ht, Hty. apply String.eqb_eq in Hty.
  destruct H as [H|[H|H]]; [congruence | contradiction|].
  pose proof (truthy_not_nullish error Ht) as Hn.
  unfold fromError, fromErrors, fromDetail.
  rewrite !(get_not_nullish error) by exact Hn.
  rewrite !H by (simpl; tauto). reflexivity.
Qed.

End ErrorModuleFacts.

(** C9, at a response body in the errors-by-field convention,
    [{"errors":{"f":[{"toString":1}]}}]: [normalizeErrorMessage] throws a
    [TypeError] where it is to return a string, [createApiError] throws with
    it inside the [catch] block of [safeRequest], and the promise
    [safeRequest] returns rejects where it is to resolve to a result. *)
Theorem safeRequest_rejects_on_unprintable_error :
  ApiErrorModule.normalizeErrorMessage unprintableErrorBody = Throws TypeError /\
  (forall fresh,
      ApiErrorModule.createApiError fresh unprintableError = Throws TypeError) /\
  (forall fresh,
      ApiErrorModule.safeRequest fresh (ApiErrorModule.Rejected unprintableError)
      = ApiErrorModule.Rejected (ApiErrorModule.ThrownError "TypeError")) /\
  (forall fresh,
      ~ exists result,
          ApiErrorModule.safeRequest fresh
            (ApiErrorModule.Rejected unprintableError)
          = ApiErrorModule.Fulfilled result).
Proof.
  assert (Hnormalize :
            ApiErrorModule.normalizeErrorMessage unprintableErrorBody
            = Throws TypeError) by reflexivity.
  assert (Hcreate : forall fresh,
            ApiErrorModule.createApiError fresh unprintableError
            = Throws TypeError).
  { intros fresh. unfold unprintableError. cbn [ApiErrorModule.createApiError
      ApiErrorModule.error_response ApiErrorModule.response_data].
    now rewrite Hnormalize. }
  assert (Hsafe : forall fresh,
            ApiErrorModule.safeRequest fresh
              (ApiErrorModule.Rejected unprintableError)
            = ApiErrorModule.Rejected (ApiErrorModule.ThrownError "TypeError")).
  { intros fresh. cbn [ApiErrorModule.safeRequest]. now rewrite Hcreate. }
  split; [exact Hnormalize|]. split; [exact Hcreate|]. split; [exact Hsafe|].
  intros fresh [result Hresult]. rewrite Hsafe in Hresult. discriminate Hresult.
Qed.

(** A response whose body is [null]: the result of [safeRequest] has both
    fields [null]. *)
Lemma safeRequest_null_body :
  exists result,
    ApiErrorModule.safeRequest 0
      (ApiErrorModule.Fulfilled
         {| ApiErrorModule.response_data := VNull;
            ApiErrorModule.response_status := 200 |})
    = ApiErrorModule.Fulfilled result /\
    ApiErrorModule.result_data result = VNull /\
    ApiErrorModule.result_error result = None.
Proof. eexists. repeat split. Qed.

(** The [detail[0].msg] branch returns a [msg] that is not a string as it
    is, here the number [42]. *)
Lemma normalizeErrorMessage_numeric_msg :
  ApiErrorModule.normalizeErrorMessage
    (VObj 1 [("detail", VArr 2 [VObj 3 [("msg", VNum 42)]])])
  = Returns (VNum 42).
Proof. reflexivity. Qed.

(** ** More about loops *)

Lemma forOf_app {A S : Type} (body : S -> A -> outcome S) (l1 l2 : list A) (st : S) :
  forOf body (l1 ++ l2)%list st = st' ← forOf body l1 st; forOf body l2 st'.
Proof.
  revert st; induction l1 as [|x l1 IH]; intros st; simpl; [reflexivity|].
  destruct (body st x) as [st'|e]; simpl; [apply IH | reflexivity].
Qed.

(** What every step keeps, a loop that returns keeps. *)
Lemma forOf_invariant {A S : Type} (body : S -> A -> outcome S)
    (Inv : S -> Prop) (l : list A) :
  (forall s x s', In x l -> Inv s -> body s x = Returns s' -> Inv s') ->
  forall st st', Inv st -> forOf body l st = Returns st' -> Inv st'.
Proof.
  induction l as [|x l IH]; intros Hstep st st' Hst Hrun; simpl in Hrun.
  - now injection Hrun as <-.
  - destruct (body st x) as [s1|e] eqn:E; [|discriminate Hrun].
    simpl in Hrun. apply (IH (fun s y s' Hy => Hstep s y s' (or_intror Hy)) s1 st');
      [|exact Hrun].
    now apply (Hstep st x s1 (or_introl eq_refl)).
Qed.

(** A loop whose steps all return returns. *)
Lemma forOf_total {A S : Type} (body : S -> A -> outcome S) (l : list A) :
  (forall s x, In x l -> exists s', body s x = Returns s') ->
  forall st, exists st', forOf body l st = Returns st'.
Proof.
  induction l as [|x l IH]; intros Hstep st; simpl.
  - now exists st.
  - destruct (Hstep st x (or_introl eq_refl)) as [s1 ->]. simpl.
    apply IH. intros s y Hy. apply Hstep. now right.
Qed.

(** ** The validator returns on every document *)

Lemma is_object_not_nullish (v : value) : is_object v = true -> JS.nullish v = false.
Proof. destruct v; simpl; try discriminate; reflexivity. Qed.

Lemma is_object_guard (v : value) :
  negb (String.eqb (JS.typeof v) "object") || JS.strict_eq v VNull
  = negb (is_object v).
Proof.
  unfold is_object. rewrite negb_andb, negb_involutive. reflexivity.
Qed.

Lemma validateOperation_appends (pathKey : string) (pathObj : value)
    (issues : list Validate.ValidationIssue) (method : string) :
  JS.nullish pathObj = false ->
  Validate.validateOperation pathKey pathObj issues method
  = Returns (issues ++ operationIssues pathKey pathObj method)%list.
Proof.
  intros Hobj. unfold Validate.validateOperation, operationIssues.
  rewrite (get_not_nullish pathObj method Hobj). cbn [mbind outcome_bind].
  destruct (JS.truthy (JS.prop pathObj method)) eqn:Hop; cbn [negb].
  2:{ now rewrite app_nil_r. }
  rewrite !(get_truthy (JS.prop pathObj method)) by exact Hop.
  cbn [mbind outcome_bind].
  destruct (JS.truthy (JS.prop (JS.prop pathObj method) "operationId"));
    destruct (JS.truthy (JS.prop (JS.prop pathObj method) "responses"));
    cbn [negb List.app]; now rewrite ?app_nil_r, <- ?app_assoc.
Qed.

Lemma validateMethods_appends (pathKey : string) (pathObj : value)
    (methods : list string) (issues : list Validate.ValidationIssue) :
  JS.nullish pathObj = false ->
  forOf (Validate.validateOperation pathKey pathObj) methods issues
  = Returns (issues ++ flat_map (operationIssues pathKey pathObj) methods)%list.
Proof.
  intros Hobj. revert issues.
  induction methods as [|method rest IH]; intros issues; cbn [forOf flat_map].
  - now rewrite app_nil_r.
  - rewrite (validateOperation_appends _ _ _ _ Hobj). cbn [mbind outcome_bind].
    rewrite IH. now rewrite <- app_assoc.
Qed.

Lemma validatePathItem_appends (issues : list Validate.ValidationIssue)
    (entry : string * value) :
  Validate.validatePathItem issues entry
  = Returns (issues ++ pathItemIssues entry)%list.
Proof.
  destruct entry as [pathKey pathItem].
  unfold Validate.validatePathItem, pathItemIssues. cbn [fst snd].
  rewrite is_object_guard.
  destruct (is_object pathItem) eqn:Hobj; cbn [negb].
  - apply validateMethods_appends. now apply is_object_not_nullish.
  - reflexivity.
Qed.

Lemma validatePaths_appends (pathEntries : list (string * value))
    (issues : list Validate.ValidationIssue) :
  forOf Validate.validatePathItem pathEntries issues
  = Returns (issues ++ flat_map pathItemIssues pathEntries)%list.
Proof.
  revert issues. induction pathEntries as [|entry rest IH]; intros issues;
    cbn [forOf flat_map].
  - now rewrite app_nil_r.
  - rewrite validatePathItem_appends. cbn [mbind outcome_bind].
    rewrite IH. now rewrite <- app_assoc.
Qed.

(** The loops of [validateSpec] build the list [issuesOf]. *)
Lemma validateSpec_issues (spec : value) :
  Validate.validateSpec spec = Returns (issuesOf spec).
Proof.
  unfold Validate.validateSpec, issuesOf. rewrite is_object_guard.
  destruct (is_object spec) eqn:Hobj; cbn [negb]; [|reflexivity].
  pose proof (is_object_not_nullish spec Hobj) as Hn.
  rewrite !(get_not_nullish spec) by exact Hn. cbn [mbind outcome_bind].
  unfold rootIssues, pathsIssues, componentIssues.
  destruct (JS.truthy (JS.prop spec "openapi") || JS.truthy (JS.prop spec "swagger"));
    destruct (JS.truthy (JS.prop spec "info")); cbn [negb List.app];
    (destruct (JS.truthy (JS.prop spec "paths")) eqn:Hp;
     [ unfold JS.entries; rewrite (truthy_not_nullish _ Hp);
       cbn [mbind outcome_bind]; rewrite validatePaths_appends
     | ]);
    cbn [mbind outcome_bind];
    (destruct (JS.truthy (JS.prop spec "components")) eqn:Hc; cbn [andb];
     [ rewrite (get_truthy _ "schemas" Hc); cbn [mbind outcome_bind];
       destruct (JS.truthy (JS.prop (JS.prop spec "components") "schemas"));
       cbn [negb]
     | ]);
    now rewrite ?app_nil_r, ?app_nil_l, <- ?app_assoc.
Qed.

(** X1: [validateSpec] returns a list of issues for every decoded value,
    whatever its shape: the guards it makes before each property read leave
    nothing that can throw. *)
Theorem validateSpec_never_throws (spec : value) :
  exists issues, Validate.validateSpec spec = Returns issues.
Proof. exists (issuesOf spec). apply validateSpec_issues. Qed.

(** ** What the extractor returns, when it returns *)

(** A loop whose steps each append their contribution to a list kept in the
    state. *)
Lemma forOf_accumulates {A S M : Type} (measure : S -> list M)
    (contribution : A -> list M) (body : S -> A -> outcome S) (l : list A) :
  (forall s x s', In x l -> body s x = Returns s' ->
                  measure s' = (measure s ++ contribution x)%list) ->
  forall st st', forOf body l st = Returns st' ->
                 measure st' = (measure st ++ flat_map contribution l)%list.
Proof.
  induction l as [|x l IH]; intros Hstep st st' Hrun; simpl in Hrun.
  - injection Hrun as <-. cbn [flat_map]. now rewrite app_nil_r.
  - destruct (body st x) as [s1|e] eqn:E; [|discriminate Hrun]. simpl in Hrun.
    rewrite (IH (fun s y s' Hy => Hstep s y s' (or_intror Hy)) s1 st' Hrun).
    rewrite (Hstep st x s1 (or_introl eq_refl) E). cbn [flat_map].
    now rewrite <- app_assoc.
Qed.

(** A loop whose steps each add their contribution to a count kept in the
    state. *)
Lemma forOf_counts {A S : Type} (measure : S -> nat) (contribution : A -> nat)
    (body : S -> A -> outcome S) (l : list A) :
  (forall s x s', In x l -> body s x = Returns s' ->
                  measure s' = measure s + contribution x) ->
  forall st st', forOf body l st = Returns st' ->
                 measure st' = measure st + list_sum (List.map contribution l).
Proof.
  induction l as [|x l IH]; intros Hstep st st' Hrun; simpl in Hrun.
  - injection Hrun as <-. simpl. lia.
  - destruct (body st x) as [s1|e] eqn:E; [|discriminate Hrun]. simpl in Hrun.
    rewrite (IH (fun s y s' Hy => Hstep s y s' (or_intror Hy)) s1 st' Hrun).
    rewrite (Hstep st x s1 (or_introl eq_refl) E). simpl. lia.
Qed.

Lemma flat_map_filter {A B : Type} (keep : A -> bool) (f : A -> B) (l : list A) :
  flat_map (fun x => if keep x then [f x] else []) l = List.map f (List.filter keep l).
Proof.
  induction l as [|x l IH]; [reflexivity|]. cbn [flat_map List.filter].
  destruct (keep x); cbn [List.map List.app]; now rewrite IH.
Qed.

Lemma list_sum_filter {A : Type} (keep : A -> bool) (l : list A) :
  list_sum (List.map (fun x => if keep x then 1 else 0) l)
  = List.length (List.filter keep l).
Proof.
  induction l as [|x l IH]; [reflexivity|]. simpl.
  destruct (keep x); simpl; rewrite IH; reflexivity.
Qed.

(** What one step of the inner loop does to the state, when it returns. *)
Lemma parseOperation_effect (pathTemplate : string) (pathItem : value)
    (st st' : parse_state) (method : string) :
  In method METHODS ->
  parseOperation pathTemplate pathItem st method = Returns st' ->
  List.map place (operations st')
  = (List.map place (operations st)
     ++ if kept pathItem method then [(pathTemplate, method)] else [])%list /\
  (Forall well_formed (operations st) -> Forall well_formed (operations st')) /\
  List.length (operations st') + List.length (List.filter is_warn (logged st'))
  = List.length (operations st) + List.length (List.filter is_warn (logged st))
    + (if present pathItem method then 1 else 0) /\
  List.length (logged st')
  = List.length (logged st) + (if present pathItem method then 1 else 0).
Proof.
  intros Hmethod. unfold parseOperation, kept, present.
  destruct (JS.nullish pathItem) eqn:Hitem.
  { unfold JS.get. rewrite Hitem. discriminate. }
  rewrite (get_not_nullish pathItem method Hitem). cbn [mbind outcome_bind].
  set (operation := JS.prop pathItem method).
  destruct (JS.truthy operation) eqn:Hop; cbn [negb andb].
  2:{ intros [= <-]. rewrite app_nil_r.
      split; [reflexivity|]. split; [tauto|]. split; lia. }
  rewrite !(get_truthy operation) by exact Hop. cbn [mbind outcome_bind].
  set (id := JS.prop operation "operationId").
  destruct (skipsOperationId id) eqn:Hskip; cbn [negb].
  - intros [= <-]. cbn [operations logged].
    rewrite app_nil_r, List.filter_app, !length_app.
    split; [reflexivity|]. split; [tauto|]. split; cbn; lia.
  - unfold skipsOperationId in Hskip.
    apply orb_false_elim in Hskip as [Htr Hty]. apply negb_false_iff in Htr.
    destruct id as [| |b|n|s|l items|l fields]; try discriminate Hty.
    destruct (queryParamsOf _) as [q|e]; [|discriminate].
    cbn [mbind outcome_bind]. intros [= <-]. cbn [operations logged].
    rewrite List.map_app, List.filter_app, !length_app.
    split; [reflexivity|]. split; [|split; cbn; lia].
    intros Hall. apply Forall_app. split; [exact Hall|].
    constructor; [|constructor]. unfold well_formed.
    simpl.
    split; [exact Hmethod|]. split; [intros ->; discriminate Htr|].
    split; [reflexivity|]. unfold JS.coalesce.
    split; [now destruct (JS.nullish (JS.prop operation "summary")) eqn:E
           | now destruct (JS.nullish (JS.prop operation "description")) eqn:E].
Qed.

Lemma parsePathItem_effect (entry : string * value) (st st' : parse_state) :
  parsePathItem st entry = Returns st' ->
  List.map place (operations st')
  = (List.map place (operations st)
     ++ List.map (pair (fst entry)) (List.filter (kept (snd entry)) METHODS))%list /\
  (Forall well_formed (operations st) -> Forall well_formed (operations st')) /\
  List.length (operations st') + List.length (List.filter is_warn (logged st'))
  = List.length (operations st) + List.length (List.filter is_warn (logged st))
    + List.length (List.filter (present (snd entry)) METHODS) /\
  List.length (logged st')
  = List.length (logged st)
    + List.length (List.filter (present (snd entry)) METHODS).
Proof.
  unfold parsePathItem. intros Hrun.
  pose proof (fun s x s' (Hx : In x METHODS)
                  (H : parseOperation (fst entry) (snd entry) s x = Returns s') =>
                parseOperation_effect (fst entry) (snd entry) s s' x Hx H) as Hstep.
  split; [|split; [|split]].
  - rewrite <- flat_map_filter.
    refine (forOf_accumulates (fun s => List.map place (operations s))
             (fun m => if kept (snd entry) m then [(fst entry, m)] else [])
             (parseOperation (fst entry) (snd entry)) METHODS _ st st' Hrun).
    intros s x s' Hx H. apply (Hstep s x s' Hx H).
  - intros Hall.
    apply (forOf_invariant (parseOperation (fst entry) (snd entry))
             (fun s => Forall well_formed (operations s)) METHODS)
      with (st := st); [|exact Hall|exact Hrun].
    intros s x s' Hx Hs H. now apply (Hstep s x s' Hx H).
  - rewrite <- (list_sum_filter (present (snd entry)) METHODS).
    refine (forOf_counts
             (fun s => List.length (operations s)
                       + List.length (List.filter is_warn (logged s)))
             (fun m => if present (snd entry) m then 1 else 0)
             (parseOperation (fst entry) (snd entry)) METHODS _ st st' Hrun).
    intros s x s' Hx H. apply (Hstep s x s' Hx H).
  - rewrite <- (list_sum_filter (present (snd entry)) METHODS).
    refine (forOf_counts (fun s => List.length (logged s))
             (fun m => if present (snd entry) m then 1 else 0)
             (parseOperation (fst entry) (snd entry)) METHODS _ st st' Hrun).
    intros s x s' Hx H. apply (Hstep s x s' Hx H).
Qed.

Lemma parsePaths_effect (pathEntries : list (string * value)) (st st' : parse_state) :
  forOf parsePathItem pathEntries st = Returns st' ->
  List.map place (operations st')
  = (List.map place (operations st)
     ++ flat_map
          (fun '(pathTemplate, pathItem) =>
             List.map (pair pathTemplate) (List.filter (kept pathItem) METHODS))
          pathEntries)%list /\
  (Forall well_formed (operations st) -> Forall well_formed (operations st')) /\
  List.length (operations st') + List.length (List.filter is_warn (logged st'))
  = List.length (operations st) + List.length (List.filter is_warn (logged st))
    + list_sum
        (List.map
           (fun entry : string * value =>
              List.length (List.filter (present (snd entry)) METHODS))
           pathEntries) /\
  List.length (logged st')
  = List.length (logged st)
    + list_sum
        (List.map
           (fun entry : string * value =>
              List.length (List.filter (present (snd entry)) METHODS))
           pathEntries).
Proof.
  intros Hrun.
  pose proof (fun s x s' (H : parsePathItem s x = Returns s') =>
                parsePathItem_effect x s s' H) as Hstep.
  split; [|split; [|split]].
  - replace (flat_map _ pathEntries)
      with (flat_map
              (fun entry : string * value =>
                 List.map (pair (fst entry)) (List.filter (kept (snd entry)) METHODS))
              pathEntries)
      by (apply flat_map_ext; now intros [p i]).
    refine (forOf_accumulates (fun s => List.map place (operations s))
             (fun entry : string * value =>
                List.map (pair (fst entry)) (List.filter (kept (snd entry)) METHODS))
             parsePathItem pathEntries _ st st' Hrun).
    intros s x s' _ H. apply (Hstep s x s' H).
  - intros Hall.
    apply (forOf_invariant parsePathItem
             (fun s => Forall well_formed (operations s)) pathEntries)
      with (st := st); [|exact Hall|exact Hrun].
    intros s x s' _ Hs H. now apply (Hstep s x s' H).
  - refine (forOf_counts
             (fun s => List.length (operations s)
                       + List.length (List.filter is_warn (logged s)))
             (fun entry : string * value =>
                List.length (List.filter (present (snd entry)) METHODS))
             parsePathItem pathEntries _ st st' Hrun).
    intros s x s' _ H. apply (Hstep s x s' H).
  - refine (forOf_counts (fun s => List.length (logged s))
             (fun entry : string * value =>
                List.length (List.filter (present (snd entry)) METHODS))
             parsePathItem pathEntries _ st st' Hrun).
    intros s x s' _ H. apply (Hstep s x s' H).
Qed.

(** The entries the extractor loops over are the entries of [paths], and
    there are none when it returns early. *)
Lemma parseOperations_loop (spec : value) (st : parse_state) :
  parseOperations spec = Returns st ->
  (st = {| operations := []; logged := [] |} /\
   JS.own_entries (JS.prop spec "paths") = []) \/
  forOf parsePathItem (JS.own_entries (JS.prop spec "paths"))
        {| operations := []; logged := [] |} = Returns st.
Proof.
  unfold parseOperations.
  destruct (negb (String.eqb (JS.typeof spec) "object") || JS.strict_eq spec VNull)
    eqn:Hspec.
  - intros [= <-]. left. split; [reflexivity|].
    destruct spec; try discriminate Hspec; try reflexivity.
    unfold JS.prop. cbn [JS.own_entries]. now rewrite assoc_indexed_paths.
  - assert (Hnn : JS.nullish spec = false)
      by (destruct spec; try discriminate Hspec; reflexivity).
    rewrite (get_not_nullish spec "paths" Hnn). cbn [mbind outcome_bind].
    destruct (JS.truthy (JS.prop spec "paths")) eqn:Hpaths; cbn [negb].
    + unfold JS.entries. rewrite (truthy_not_nullish _ Hpaths).
      cbn [mbind outcome_bind]. now right.
    + intros [= <-]. left. split; [reflexivity|].
      destruct (JS.prop spec "paths") as [| |b|n|s|l items|l fields];
        try discriminate Hpaths; try reflexivity.
      cbn in Hpaths. destruct s; [reflexivity | discriminate Hpaths].
Qed.

Lemma parseOperations_shape (spec : value) (st : parse_state) :
  parseOperations spec = Returns st ->
  List.map place (operations st) = kept_operations spec /\
  Forall well_formed (operations st).
Proof.
  intros Hrun. unfold kept_operations.
  destruct (parseOperations_loop spec st Hrun) as [[-> ->]|Hloop].
  - split; [reflexivity | constructor].
  - destruct (parsePaths_effect _ _ _ Hloop) as (Hplaces & Hwf & _).
    split; [exact Hplaces | apply Hwf; constructor].
Qed.

(** X2: whenever [parseOperations] returns, its descriptors are those of the
    kept operations, the paths in the order [Object.entries] lists them and
    the methods in the order of the loop, and each has one of the five methods,
    a non-empty [operationId], the path parameters of its own path, and a
    [summary] and a [description] that are never [null] or [undefined]. *)
Theorem parseOperations_descriptors (spec : value) (st : parse_state) :
  parseOperations spec = Returns st ->
  List.map place (operations st) = kept_operations spec /\
  Forall well_formed (operations st).
Proof. apply parseOperations_shape. Qed.

Lemma parseOperations_descriptors_witness :
  exists st,
    parseOperations malformedOperationsSpec = Returns st /\
    Forall well_formed (operations st).
Proof.
  destruct (parseOperations malformedOperationsSpec) as [st|e] eqn:E;
    [|vm_compute in E; discriminate E].
  exists st. split; [reflexivity|].
  exact (proj2 (parseOperations_descriptors malformedOperationsSpec st E)).
Defined.

Lemma parseOperations_counts (spec : value) (st : parse_state) :
  parseOperations spec = Returns st ->
  List.length (operations st) + List.length (List.filter is_warn (logged st))
  = present_count spec /\
  List.length (logged st) = present_count spec.
Proof.
  intros Hrun. unfold present_count.
  destruct (parseOperations_loop spec st Hrun) as [[-> ->]|Hloop].
  - split; reflexivity.
  - destruct (parsePaths_effect _ _ _ Hloop) as (_ & _ & Hcount & Hlogs).
    split; [exact Hcount | exact Hlogs].
Qed.

(** X3: whenever [parseOperations] returns, every operation slot that holds
    something was either extracted or skipped with a warning, and the logger
    was called once for each: nothing is dropped silently. *)
Theorem parseOperations_accounts_for_every_operation (spec : value) (st : parse_state) :
  parseOperations spec = Returns st ->
  List.length (operations st) + List.length (List.filter is_warn (logged st))
  = present_count spec /\
  List.length (logged st) = present_count spec.
Proof. apply parseOperations_counts. Qed.

Lemma parseOperations_accounts_for_every_operation_witness :
  exists st,
    parseOperations malformedOperationsSpec = Returns st /\
    List.length (operations st) + List.length (List.filter is_warn (logged st)) = 5.
Proof.
  destruct (parseOperations malformedOperationsSpec) as [st|e] eqn:E;
    [|vm_compute in E; discriminate E].
  exists st. split; [reflexivity|].
  rewrite (proj1 (parseOperations_accounts_for_every_operation
                    malformedOperationsSpec st E)).
  reflexivity.
Defined.

(** ** The operations without [operationId]: skipped and reported *)

Lemma index_not_method (i : nat) (method : string) :
  In method METHODS -> Str.of_nat i <> method.
Proof.
  unfold Str.of_nat. intros [<-|[<-|[<-|[<-|[<-|[]]]]]];
    destruct (Nat.to_uint i); discriminate.
Qed.

Lemma assoc_indexed_method (method : string) (items : list value) (i : nat) :
  In method METHODS -> JS.assoc method (JS.indexed i items) = VUndefined.
Proof.
  intros Hm. revert i; induction items as [|x rest IH]; intros i; [reflexivity|].
  cbn [JS.indexed JS.assoc].
  destruct (String.eqb_spec method (Str.of_nat i)) as [E|_]; [|apply IH].
  symmetry in E. now contradiction (index_not_method i method Hm).
Qed.

(** Only an object holds something under a method name. *)
Lemma present_is_object (pathItem : value) (method : string) :
  In method METHODS -> present pathItem method = true -> is_object pathItem = true.
Proof.
  intros Hm. unfold present, JS.prop.
  destruct pathItem as [| |b|n|s|l items|l fields]; cbn [JS.own_entries JS.assoc];
    try discriminate; try reflexivity.
  now rewrite assoc_indexed_method.
Qed.

Lemma entries_is_object (spec : value) (entry : string * value) :
  In entry (JS.own_entries (JS.prop spec "paths")) ->
  is_object spec = true /\ JS.truthy (JS.prop spec "paths") = true.
Proof.
  intros Hin. split.
  - destruct spec as [| |b|n|s|l items|l fields]; try reflexivity;
      unfold JS.prop in Hin; cbn [JS.own_entries JS.assoc] in Hin;
      try (now destruct Hin);
      rewrite assoc_indexed_paths in Hin; now destruct Hin.
  - destruct (JS.prop spec "paths") as [| |b|n|s|l items|l fields];
      try (now destruct Hin); try reflexivity.
    destruct s; [now destruct Hin | reflexivity].
Qed.

Lemma NoDup_fst_functional {A B : Type} (l : list (A * B)) (k : A) (v v' : B) :
  List.NoDup (List.map fst l) -> In (k, v) l -> In (k, v') l -> v = v'.
Proof.
  induction l as [|[k0 v0] rest IH]; simpl; [tauto|].
  intros Hnd H1 H2. apply NoDup_cons_iff in Hnd as [Hfresh Hnd].
  destruct H1 as [H1|H1], H2 as [H2|H2].
  - congruence.
  - exfalso. apply Hfresh. injection H1 as -> _.
    change k with (fst (k, v')). now apply in_map.
  - exfalso. apply Hfresh. injection H2 as -> _.
    change k with (fst (k, v)). now apply in_map.
  - now apply IH.
Qed.

(** X4: an operation that is there and has no truthy [operationId] gets a
    warning of the validator at [/paths<path>/<method>], and no descriptor of
    the extractor. *)
Theorem missing_operationId_reported_and_skipped
    (spec : value) (st : parse_state) (pathKey method : string) (pathItem : value) :
  parseOperations spec = Returns st ->
  distinct_paths spec ->
  In (pathKey, pathItem) (JS.own_entries (JS.prop spec "paths")) ->
  In method METHODS ->
  present pathItem method = true ->
  JS.truthy (JS.prop (JS.prop pathItem method) "operationId") = false ->
  (exists issues,
      Validate.validateSpec spec = Returns issues /\
      In (Validate.missingOperationId pathKey method) issues) /\
  ~ In (pathKey, method) (List.map place (operations st)).
Proof.
  intros Hrun Hdistinct Hentry Hmethod Hpresent Hid. split.
  - destruct (entries_is_object spec _ Hentry) as [Hspec Hpaths].
    exists (issuesOf spec). split; [apply validateSpec_issues|].
    unfold issuesOf, pathsIssues. rewrite Hspec, Hpaths.
    apply in_or_app. right. apply in_or_app. left.
    apply in_flat_map. exists (pathKey, pathItem). split; [exact Hentry|].
    unfold pathItemIssues. cbn [fst snd].
    rewrite (present_is_object pathItem method Hmethod Hpresent).
    apply in_flat_map. exists method. split; [exact Hmethod|].
    unfold operationIssues. unfold present in Hpresent. rewrite Hpresent, Hid.
    apply in_or_app. left. now left.
  - rewrite (proj1 (parseOperations_shape spec st Hrun)).
    unfold kept_operations. intros Hin.
    apply in_flat_map in Hin as ([p item] & Hitem & Hin).
    apply in_map_iff in Hin as (m & [= <- <-] & Hkept).
    apply filter_In in Hkept as [_ Hkept].
    rewrite (NoDup_fst_functional _ p item pathItem Hdistinct Hitem Hentry) in Hkept.
    unfold kept, skipsOperationId in Hkept. rewrite Hid in Hkept.
    cbn in Hkept. now rewrite andb_false_r in Hkept.
Qed.

Lemma missing_operationId_reported_and_skipped_witness :
  exists st,
    parseOperations malformedOperationsSpec = Returns st /\
    ~ In ("/users/{id}", "post") (List.map place (operations st)).
Proof.
  destruct (parseOperations malformedOperationsSpec) as [st|e] eqn:E;
    [|vm_compute in E; discriminate E].
  exists st. split; [reflexivity|].
  refine (proj2 (missing_operationId_reported_and_skipped
                   malformedOperationsSpec st "/users/{id}" "post" _ E _ _ _ _ _)).
  - repeat constructor. simpl. tauto.
  - left. reflexivity.
  - simpl. tauto.
  - reflexivity.
  - reflexivity.
Defined.

(** ** When the validate command fails *)

Lemma conclude_lenient (issues : list Validate.ValidationIssue) :
  ValidateCommand.conclude false issues = ValidateCommand.Valid
  <-> Forall (fun issue => ValidateCommand.is_error issue = false) issues.
Proof.
  unfold ValidateCommand.conclude, nonEmpty. cbn [andb]. rewrite orb_false_r.
  induction issues as [|issue rest IH]; [split; [constructor | reflexivity]|].
  cbn [List.filter]. destruct (ValidateCommand.is_error issue) eqn:E.
  - cbn. split; [discriminate|]. intros H. inversion H; congruence.
  - rewrite IH. split; [now constructor | intros H; now inversion H].
Qed.

Lemma operationIssues_warnings (pathKey : string) (pathItem : value) (method : string) :
  Forall (fun issue => ValidateCommand.is_error issue = false)
         (operationIssues pathKey pathItem method).
Proof.
  unfold operationIssues.
  destruct (JS.truthy (JS.prop pathItem method)); [|constructor].
  destruct (JS.truthy (JS.prop (JS.prop pathItem method) "operationId"));
    destruct (JS.truthy (JS.prop (JS.prop pathItem method) "responses"));
    repeat constructor.
Qed.

Lemma pathItemIssues_lenient (entry : string * value) :
  Forall (fun issue => ValidateCommand.is_error issue = false) (pathItemIssues entry)
  <-> is_object (snd entry) = true.
Proof.
  unfold pathItemIssues. destruct (is_object (snd entry)).
  - split; [reflexivity|]. intros _. apply Forall_flat_map, Forall_forall.
    intros m _. apply operationIssues_warnings.
  - split; [|discriminate]. intros H. inversion H as [|? ? Hhead _]. discriminate Hhead.
Qed.

(** X5: without [--strict], the validate command fails exactly when the
    document is not an object, has neither [openapi] nor [swagger], has no
    [info], or has a path item that is not an object; no defect of an
    operation makes it fail. *)
Theorem validate_lenient_verdict (spec : value) :
  ValidateCommand.validate false spec = Returns ValidateCommand.Valid
  <-> is_object spec = true /\
      JS.truthy (JS.prop spec "openapi") || JS.truthy (JS.prop spec "swagger") = true /\
      JS.truthy (JS.prop spec "info") = true /\
      Forall (fun entry : string * value => is_object (snd entry) = true)
             (JS.own_entries (JS.prop spec "paths")).
Proof.
  unfold ValidateCommand.validate. rewrite validateSpec_issues.
  cbn [mbind outcome_bind].
  assert (Hinj : forall v, Returns v = Returns ValidateCommand.Valid
                           <-> v = ValidateCommand.Valid)
    by (intros v; split; [now intros [= ->] | now intros ->]).
  rewrite Hinj, conclude_lenient. unfold issuesOf.
  destruct (is_object spec) eqn:Hobj.
  2:{ split; [intros H; inversion H as [|? ? Hhead _]; discriminate Hhead|].
      now intros [H _]. }
  rewrite !Forall_app. unfold rootIssues, pathsIssues, componentIssues.
  rewrite Forall_app.
  split.
  - intros ((Hversion & Hinfo) & Hpaths & _).
    split; [reflexivity|]. split; [|split].
    + destruct (JS.truthy (JS.prop spec "openapi") || JS.truthy (JS.prop spec "swagger"));
        [reflexivity|]. inversion Hversion as [|? ? Hhead _]. discriminate Hhead.
    + destruct (JS.truthy (JS.prop spec "info")); [reflexivity|].
      inversion Hinfo as [|? ? Hhead _]. discriminate Hhead.
    + destruct (JS.truthy (JS.prop spec "paths")) eqn:Hp.
      * apply Forall_forall. intros entry Hin. apply pathItemIssues_lenient.
        rewrite Forall_flat_map, Forall_forall in Hpaths. now apply Hpaths.
      * destruct (JS.prop spec "paths") as [| |b|n|s|l items|l fields];
          try discriminate Hp; try constructor.
        cbn in Hp. destruct s; [constructor | discriminate Hp].
  - intros (_ & Hversion & Hinfo & Hitems). rewrite Hversion, Hinfo.
    split; [split; constructor|]. split.
    + destruct (JS.truthy (JS.prop spec "paths")); [|repeat constructor].
      apply Forall_flat_map, Forall_forall. intros entry Hin.
      apply pathItemIssues_lenient. rewrite Forall_forall in Hitems. now apply Hitems.
    + destruct (_ && _); repeat constructor.
Qed.

Lemma validate_lenient_verdict_witness :
  ValidateCommand.validate false numericOperationIdSpec
  = Returns ValidateCommand.Valid.
Proof.
  apply (proj2 (validate_lenient_verdict numericOperationIdSpec)).
  split; [reflexivity|]. split; [reflexivity|]. split; [reflexivity|].
  repeat constructor.
Defined.

(** ** What the status command counts *)

Lemma increment_total (method : string) (counts : Status.MethodCounts) :
  Status.total (Status.increment method counts) = S (Status.total counts) /\
  Status.get (Status.increment method counts)
  + Status.post (Status.increment method counts)
  + Status.put (Status.increment method counts)
  + Status.delete (Status.increment method counts)
  + Status.patch (Status.increment method counts)
  = S (Status.get counts + Status.post counts + Status.put counts
       + Status.delete counts + Status.patch counts).
Proof.
  unfold Status.increment.
  destruct (String.eqb method "get"); [cbn; lia|].
  destruct (String.eqb method "post"); [cbn; lia|].
  destruct (String.eqb method "put"); [cbn; lia|].
  destruct (String.eqb method "delete"); cbn; lia.
Qed.

Lemma fold_left_invariant {A S : Type} (step : S -> A -> S) (Inv : S -> Prop)
    (l : list A) (st : S) :
  (forall s x, Inv s -> Inv (step s x)) -> Inv st -> Inv (fold_left step l st).
Proof.
  intros Hstep. revert st. induction l as [|x l IH]; intros st Hst; simpl; auto.
Qed.

Lemma countPathItem_balanced (counts : Status.MethodCounts) (pathItem : value) :
  balanced counts -> balanced (Status.countPathItem counts pathItem).
Proof.
  intros Hc. unfold Status.countPathItem. destruct (_ || _); [exact Hc|].
  apply fold_left_invariant; [|exact Hc].
  intros s m Hs. unfold Status.countMethod. destruct (JS.truthy _); [|exact Hs].
  unfold balanced in *. destruct (increment_total m s) as [-> ->]. lia.
Qed.

(** X6: whatever was loaded, the total that [countEndpoints] reports is the
    sum of its five per-method counts. *)
Theorem countEndpoints_balanced (loaded : outcome value) :
  Status.total (Status.countEndpoints loaded)
  = Status.get (Status.countEndpoints loaded)
    + Status.post (Status.countEndpoints loaded)
    + Status.put (Status.countEndpoints loaded)
    + Status.delete (Status.countEndpoints loaded)
    + Status.patch (Status.countEndpoints loaded).
Proof.
  change (balanced (Status.countEndpoints loaded)).
  unfold Status.countEndpoints.
  destruct loaded as [spec|e]; [|reflexivity].
  destruct (JS.get spec "paths") as [paths|e]; [|reflexivity].
  destruct (negb (JS.truthy paths)); [reflexivity|].
  destruct (JS.values paths) as [items|e]; [|reflexivity].
  apply fold_left_invariant; [|reflexivity].
  intros s item Hs. now apply countPathItem_balanced.
Qed.

Lemma countMethods_total (pathItem : value) (methods : list string)
    (counts : Status.MethodCounts) :
  Status.total (fold_left (Status.countMethod pathItem) methods counts)
  = Status.total counts + List.length (List.filter (present pathItem) methods).
Proof.
  revert counts. induction methods as [|m rest IH]; intros counts; simpl; [lia|].
  rewrite IH. unfold Status.countMethod, present.
  destruct (JS.truthy (JS.prop pathItem m)); simpl; [|lia].
  rewrite (proj1 (increment_total m counts)). lia.
Qed.

Lemma not_object_nothing_present (pathItem : value) :
  is_object pathItem = false -> List.filter (present pathItem) METHODS = [].
Proof.
  intros Hobj.
  assert (H : forall m, In m METHODS -> present pathItem m = false).
  { intros m Hm. destruct (present pathItem m) eqn:E; [|reflexivity].
    rewrite (present_is_object pathItem m Hm E) in Hobj. discriminate Hobj. }
  unfold METHODS in *. cbn [List.filter].
  rewrite !H by (simpl; tauto). reflexivity.
Qed.

Lemma countPathItem_total (counts : Status.MethodCounts) (pathItem : value) :
  Status.total (Status.countPathItem counts pathItem)
  = Status.total counts + List.length (List.filter (present pathItem) METHODS).
Proof.
  unfold Status.countPathItem. rewrite is_object_guard.
  destruct (is_object pathItem) eqn:Hobj; cbn [negb].
  - apply countMethods_total.
  - rewrite (not_object_nothing_present pathItem Hobj). simpl. lia.
Qed.

Lemma countPaths_total (items : list (string * value)) (counts : Status.MethodCounts) :
  Status.total (fold_left Status.countPathItem (List.map snd items) counts)
  = Status.total counts
    + list_sum
        (List.map
           (fun entry : string * value =>
              List.length (List.filter (present (snd entry)) METHODS))
           items).
Proof.
  revert counts. induction items as [|entry rest IH]; intros counts; [simpl; lia|].
  cbn [List.map fold_left]. rewrite IH, countPathItem_total.
  unfold list_sum. cbn [fold_right]. lia.
Qed.

(** The total of the status command is the number of operation slots that
    hold something. *)
Lemma countEndpoints_total (spec : value) :
  Status.total (Status.countEndpoints (Returns spec)) = present_count spec.
Proof.
  unfold Status.countEndpoints, present_count, JS.get.
  destruct (JS.nullish spec) eqn:Hn.
  { destruct spec; try discriminate Hn; reflexivity. }
  destruct (JS.truthy (JS.prop spec "paths")) eqn:Hp; cbn [negb].
  - unfold JS.values. rewrite (truthy_not_nullish _ Hp).
    rewrite countPaths_total. reflexivity.
  - destruct (JS.prop spec "paths") as [| |b|n|s|l items|l fields];
      try discriminate Hp; try reflexivity.
    cbn in Hp. destruct s; [reflexivity | discriminate Hp].
Qed.

(** X7: when [parseOperations] returns on the document the status command
    loaded, the total of the status command is the number of descriptors
    generation keeps plus the number of operations it skips with a warning. *)
Theorem countEndpoints_is_generated_plus_skipped (spec : value) (st : parse_state) :
  parseOperations spec = Returns st ->
  Status.total (Status.countEndpoints (Returns spec))
  = List.length (operations st) + List.length (List.filter is_warn (logged st)).
Proof.
  intros Hrun. rewrite countEndpoints_total.
  symmetry. apply (parseOperations_counts spec st Hrun).
Qed.

Lemma countEndpoints_is_generated_plus_skipped_witness :
  exists st,
    parseOperations malformedOperationsSpec = Returns st /\
    Status.total (Status.countEndpoints (Returns malformedOperationsSpec))
    = List.length (operations st) + List.length (List.filter is_warn (logged st)).
Proof.
  destruct (parseOperations malformedOperationsSpec) as [st|e] eqn:E;
    [|vm_compute in E; discriminate E].
  exists st. split; [reflexivity|].
  exact (countEndpoints_is_generated_plus_skipped malformedOperationsSpec st E).
Defined.

(** ** The [Map] of the differ *)

Lemma map_get_set_same (k : identity) (v : Diff.OperationInfo) (m : Diff.Map) :
  Diff.map_get k (Diff.map_set k v m) = Some v.
Proof.
  induction m as [|[k0 v0] rest IH]; simpl.
  - now destruct (decide (k = k)).
  - destruct (decide (k = k0)) as [->|Hne]; simpl.
    + now destruct (decide (k0 = k0)).
    + now destruct (decide (k = k0)).
Qed.

Lemma map_get_set_other (k k' : identity) (v : Diff.OperationInfo) (m : Diff.Map) :
  k' <> k -> Diff.map_get k' (Diff.map_set k v m) = Diff.map_get k' m.
Proof.
  intros Hne. induction m as [|[k0 v0] rest IH]; simpl.
  - now destruct (decide (k' = k)).
  - destruct (decide (k = k0)) as [->|Hk]; simpl.
    + now destruct (decide (k' = k0)).
    + destruct (decide (k' = k0)); [reflexivity | exact IH].
Qed.

Lemma keys_set_present (k : identity) (v : Diff.OperationInfo) (m : Diff.Map) :
  In k (Diff.keys m) -> Diff.keys (Diff.map_set k v m) = Diff.keys m.
Proof.
  induction m as [|[k0 v0] rest IH]; simpl; [tauto|].
  intros Hin. destruct (decide (k = k0)) as [->|Hne]; simpl; [reflexivity|].
  f_equal. apply IH. destruct Hin as [E|Hin]; [congruence | exact Hin].
Qed.

Lemma keys_set_absent (k : identity) (v : Diff.OperationInfo) (m : Diff.Map) :
  ~ In k (Diff.keys m) -> Diff.keys (Diff.map_set k v m) = (Diff.keys m ++ [k])%list.
Proof.
  induction m as [|[k0 v0] rest IH]; simpl; [reflexivity|].
  intros Hin. destruct (decide (k = k0)) as [->|Hne]; simpl; [tauto|].
  f_equal. apply IH. tauto.
Qed.

(** The [Map] of the differ: a key reads back what was last set under
    it, setting a key leaves every other key as it was, a key that is set
    again keeps its place, and a new key goes last. *)
Lemma map_set_laws (k : identity) (v : Diff.OperationInfo) (m : Diff.Map) :
  Diff.map_get k (Diff.map_set k v m) = Some v /\
  (forall k', k' <> k -> Diff.map_get k' (Diff.map_set k v m) = Diff.map_get k' m) /\
  (In k (Diff.keys m) -> Diff.keys (Diff.map_set k v m) = Diff.keys m) /\
  (~ In k (Diff.keys m) -> Diff.keys (Diff.map_set k v m) = (Diff.keys m ++ [k])%list).
Proof.
  split; [apply map_get_set_same|]. split; [intros k'; apply map_get_set_other|].
  split; [apply keys_set_present | apply keys_set_absent].
Qed.


Lemma map_set_NoDup (k : identity) (v : Diff.OperationInfo) (m : Diff.Map) :
  List.NoDup (Diff.keys m) -> List.NoDup (Diff.keys (Diff.map_set k v m)).
Proof.
  intros Hnd. destruct (in_dec identity_eq_dec k (Diff.keys m)) as [Hin|Hout].
  - now rewrite keys_set_present.
  - rewrite keys_set_absent by exact Hout.
    induction (Diff.keys m) as [|k0 ks IH]; simpl.
    + constructor; [tauto | constructor].
    + apply NoDup_cons_iff in Hnd as [Hfresh Hnd]. constructor.
      * rewrite in_app_iff. simpl. intros [H|[H|[]]]; [tauto|].
        apply Hout. now left.
      * apply IH; [exact Hnd|]. intros H. apply Hout. now right.
Qed.

Lemma map_set_keyed (v : Diff.OperationInfo) (m : Diff.Map) :
  keyed m -> keyed (Diff.map_set (id_of v) v m).
Proof.
  intros Hk. induction m as [|[k0 v0] rest IH]; simpl.
  - intros id op [[= <- <-]|[]]. reflexivity.
  - destruct (decide (id_of v = k0)) as [E|Hne].
    + intros id op [[= <- <-]|Hin]; [reflexivity|]. apply Hk. now right.
    + intros id op [[= <- <-]|Hin]; [apply Hk; now left|].
      apply IH; [|exact Hin]. intros id' op' H. apply Hk. now right.
Qed.

(** The two facts every map of [extractOperations] has. *)
Lemma extractOperation_keeps (pathTemplate : string) (pathItem : value)
    (m m' : Diff.Map) (method : string) :
  keyed m /\ List.NoDup (Diff.keys m) ->
  Diff.extractOperation pathTemplate pathItem m method = Returns m' ->
  keyed m' /\ List.NoDup (Diff.keys m').
Proof.
  intros [Hk Hnd]. unfold Diff.extractOperation.
  destruct (JS.get pathItem method) as [operation|e]; [|discriminate].
  cbn [mbind outcome_bind].
  destruct (JS.truthy operation) eqn:Hop; cbn [negb]; [|now intros [= <-]].
  rewrite !(get_truthy operation) by exact Hop. cbn [mbind outcome_bind].
  destruct (JS.truthy (JS.prop operation "operationId")); cbn [negb];
    [|now intros [= <-]].
  intros [= <-]. split.
  - apply (map_set_keyed
             {| Diff.operationId := JS.prop operation "operationId";
                Diff.method := method; Diff.path := pathTemplate;
                Diff.hasRequestBody := JS.truthy (JS.prop operation "requestBody");
                Diff.summary :=
                  JS.coalesce (JS.prop operation "summary") (VStr EmptyString) |}).
    exact Hk.
  - now apply map_set_NoDup.
Qed.

Lemma extractOperations_invariant (spec : value) (m : Diff.Map) :
  Diff.extractOperations spec = Returns m ->
  keyed m /\ List.NoDup (Diff.keys m).
Proof.
  assert (Hempty : keyed [] /\ List.NoDup (Diff.keys []))
    by (split; [intros id op [] | constructor]).
  unfold Diff.extractOperations.
  destruct (negb (String.eqb (JS.typeof spec) "object") || JS.strict_eq spec VNull);
    [now intros [= <-]|].
  destruct (JS.get spec "paths") as [paths|e]; [|discriminate].
  cbn [mbind outcome_bind].
  destruct (negb (JS.truthy paths)); [now intros [= <-]|].
  destruct (JS.entries paths) as [pathEntries|e]; [|discriminate].
  cbn [mbind outcome_bind].
  apply (forOf_invariant Diff.extractPathItem
           (fun m0 => keyed m0 /\ List.NoDup (Diff.keys m0)) pathEntries);
    [|exact Hempty].
  intros s entry s' _ Hs. unfold Diff.extractPathItem.
  apply (forOf_invariant (Diff.extractOperation (fst entry) (snd entry))
           (fun m0 => keyed m0 /\ List.NoDup (Diff.keys m0)) METHODS);
    [|exact Hs].
  intros s0 method s0' _ Hs0. now apply extractOperation_keeps.
Qed.

(** A loop whose steps each fold their contribution into the state. *)
Lemma forOf_folds {A S M : Type} (f : S -> M -> S) (contribution : A -> list M)
    (body : S -> A -> outcome S) (l : list A) :
  (forall s x s', In x l -> body s x = Returns s' ->
                  s' = fold_left f (contribution x) s) ->
  forall st st', forOf body l st = Returns st' ->
                 st' = fold_left f (flat_map contribution l) st.
Proof.
  induction l as [|x l IH]; intros Hstep st st' Hrun; simpl in Hrun.
  - now injection Hrun as <-.
  - destruct (body st x) as [s1|e] eqn:E; [|discriminate Hrun]. simpl in Hrun.
    rewrite (IH (fun s y s' Hy => Hstep s y s' (or_intror Hy)) s1 st' Hrun).
    rewrite (Hstep st x s1 (or_introl eq_refl) E). cbn [flat_map].
    now rewrite fold_left_app.
Qed.

Lemma extractOperation_stores (pathTemplate : string) (pathItem : value)
    (m m' : Diff.Map) (method : string) :
  Diff.extractOperation pathTemplate pathItem m method = Returns m' ->
  m' = fold_left store (diffDescriptor pathTemplate pathItem method) m.
Proof.
  unfold Diff.extractOperation, diffDescriptor, JS.get.
  destruct (JS.nullish pathItem); [discriminate|]. cbn [mbind outcome_bind].
  destruct (JS.truthy (JS.prop pathItem method)) eqn:Hop; cbn [negb andb];
    [|now intros [= <-]].
  rewrite (truthy_not_nullish _ Hop). cbn [mbind outcome_bind].
  destruct (JS.truthy (JS.prop (JS.prop pathItem method) "operationId"));
    cbn [negb]; now intros [= <-].
Qed.

(** What [extractOperations] returns is the descriptors of the document,
    stored one after the other. *)
Lemma extractOperations_stores (spec : value) (m : Diff.Map) :
  Diff.extractOperations spec = Returns m ->
  m = fold_left store (diffDescriptors spec) [].
Proof.
  unfold Diff.extractOperations, diffDescriptors.
  destruct (negb (String.eqb (JS.typeof spec) "object") || JS.strict_eq spec VNull)
    eqn:Hspec.
  { intros [= <-]. destruct spec; try discriminate Hspec; try reflexivity.
    unfold JS.prop. cbn [JS.own_entries]. now rewrite assoc_indexed_paths. }
  assert (Hnn : JS.nullish spec = false)
    by (destruct spec; try discriminate Hspec; reflexivity).
  rewrite (get_not_nullish spec "paths" Hnn). cbn [mbind outcome_bind].
  destruct (JS.truthy (JS.prop spec "paths")) eqn:Hpaths; cbn [negb].
  - unfold JS.entries. rewrite (truthy_not_nullish _ Hpaths).
    cbn [mbind outcome_bind].
    apply (forOf_folds store
             (fun entry : string * value =>
                flat_map (diffDescriptor (fst entry) (snd entry)) METHODS)).
    intros s entry s' _. unfold Diff.extractPathItem.
    apply (forOf_folds store (diffDescriptor (fst entry) (snd entry))).
    intros s0 method s0' _. apply extractOperation_stores.
  - intros [= <-].
    destruct (JS.prop spec "paths") as [| |b|n|t|l items|l fields];
      try discriminate Hpaths; try reflexivity.
    cbn in Hpaths. destruct t; [reflexivity | discriminate Hpaths].
Qed.

Lemma fold_store_get (k : identity) (l : list Diff.OperationInfo) :
  forall m,
    Diff.map_get k (fold_left store l m)
    = match last_with k l with
      | Some found => Some found
      | None => Diff.map_get k m
      end.
Proof.
  induction l as [|op rest IH]; intros m; [reflexivity|].
  cbn [fold_left last_with]. rewrite IH.
  destruct (last_with k rest) as [found|]; [reflexivity|].
  unfold store. destruct (bool_decide_reflect (id_of op = k)) as [<-|Hne].
  - apply map_get_set_same.
  - apply map_get_set_other. congruence.
Qed.

Lemma filter_filter {A : Type} (f g : A -> bool) (l : list A) :
  List.filter f (List.filter g l) = List.filter (fun x => g x && f x) l.
Proof.
  induction l as [|x l IH]; [reflexivity|]. cbn [List.filter].
  destruct (g x); cbn [List.filter andb]; [|exact IH].
  destruct (f x); now rewrite IH.
Qed.

Lemma known_In (keys : list identity) (k : identity) :
  known keys k = true <-> In k keys.
Proof.
  unfold known. rewrite existsb_exists. split.
  - intros (k' & Hin & E). apply bool_decide_eq_true in E. now subst.
  - intros Hin. exists k. split; [exact Hin | now apply bool_decide_eq_true].
Qed.

Lemma known_app (keys : list identity) (k k' : identity) :
  known (keys ++ [k]) k' = known keys k' || bool_decide (k' = k).
Proof. unfold known. rewrite existsb_app. cbn. now rewrite orb_false_r. Qed.

Lemma fold_store_keys (l : list Diff.OperationInfo) :
  forall m,
    Diff.keys (fold_left store l m)
    = (Diff.keys m
         ++ List.filter (fun k => negb (known (Diff.keys m) k))
              (first_seen (ids l)))%list.
Proof.
  induction l as [|op rest IH]; intros m.
  - cbn. now rewrite app_nil_r.
  - cbn [fold_left ids List.map first_seen List.filter]. fold (ids rest).
    rewrite IH. unfold store.
    destruct (known (Diff.keys m) (id_of op)) eqn:Hknown; cbn [negb].
    + pose proof (proj1 (known_In _ _) Hknown) as Hin.
      rewrite (keys_set_present (id_of op) op m Hin). f_equal.
      rewrite filter_filter. apply List.filter_ext_in. intros k _.
      destruct (bool_decide_reflect (k = id_of op)) as [->|Hne]; cbn [negb andb];
        [now rewrite Hknown | reflexivity].
    + assert (Hout : ~ In (id_of op) (Diff.keys m)).
      { intros Hin. apply known_In in Hin. congruence. }
      rewrite (keys_set_absent (id_of op) op m Hout).
      rewrite <- app_assoc. cbn [List.app]. do 2 f_equal.
      rewrite filter_filter. apply List.filter_ext_in. intros k _.
      rewrite known_app.
      destruct (bool_decide (k = id_of op)); cbn [negb andb];
        [now rewrite orb_true_r | now rewrite orb_false_r].
Qed.

(** X8: every map [extractOperations] returns is keyed by the [operationId]
    of its descriptors and has no key twice, so the classification of the
    differ applies to any two extracted maps.  Its keys are the
    [operationId]s of the document in the order of their first occurrence,
    and under each key it holds the last descriptor of the document with
    that [operationId]: an [operationId] that occurs again keeps its place
    and takes the later descriptor. *)
Theorem extractOperations_keyed (spec : value) (m : Diff.Map) :
  Diff.extractOperations spec = Returns m ->
  keyed m /\ List.NoDup (Diff.keys m) /\
  Diff.keys m = first_seen (ids (diffDescriptors spec)) /\
  (forall k, Diff.map_get k m = last_with k (diffDescriptors spec)).
Proof.
  intros Hm. destruct (extractOperations_invariant spec m Hm) as [Hk Hnd].
  split; [exact Hk|]. split; [exact Hnd|].
  rewrite (extractOperations_stores spec m Hm). split.
  - rewrite fold_store_keys. cbn [Diff.keys List.map List.app].
    clear. induction (first_seen (ids (diffDescriptors spec))) as [|k l IH];
      [reflexivity|]. cbn [List.filter]. now rewrite IH.
  - intros k. rewrite fold_store_get. now destruct (last_with k _).
Qed.

Lemma extractOperations_keyed_witness :
  exists m,
    Diff.extractOperations repeatedOperationIdSpec = Returns m /\
    Diff.keys m = [IStr "x"; IStr "y"] /\
    Diff.map_get (IStr "x") m = Some (info "x" "get" "/b" false "second").
Proof.
  destruct (Diff.extractOperations repeatedOperationIdSpec) as [m|e] eqn:E;
    [|vm_compute in E; discriminate E].
  exists m. split; [reflexivity|].
  destruct (extractOperations_keyed repeatedOperationIdSpec m E)
    as (_ & _ & Hkeys & Hget).
  split; [rewrite Hkeys | rewrite Hget]; reflexivity.
Defined.

(** ** Diffing a map with itself, and diffing the other way round *)

Lemma hasChanges_same (a : Diff.OperationInfo) : Diff.hasChanges a a = false.
Proof.
  unfold Diff.hasChanges, JS.strict_eq.
  rewrite !String.eqb_refl, Bool.eqb_reflx. cbn.
  now rewrite bool_decide_true.
Qed.

(** X9: a map with distinct keys has no change against itself; and for any
    two maps, what is added from the first to the second is what is removed
    from the second to the first. *)
Theorem computeChanges_self_and_swap :
  (forall m, List.NoDup (Diff.keys m) ->
             Diff.computeChanges m m
             = {| Diff.added := []; Diff.removed := []; Diff.modified := [] |}) /\
  (forall old new,
      Diff.added (Diff.computeChanges old new)
      = Diff.removed (Diff.computeChanges new old)).
Proof.
  split.
  - intros m Hnd. rewrite computeChanges_eq.
    assert (Hget : forall entry, In entry m ->
                                 Diff.map_get (fst entry) m = Some (snd entry)).
    { intros [k v] Hin. now apply map_get_NoDup. }
    assert (Hnone : forall f : identity * Diff.OperationInfo -> list Diff.OperationInfo,
               (forall entry, In entry m -> f entry = []) -> flat_map f m = []).
    { intros f Hf. induction m as [|e rest IH] in Hf |- *; [reflexivity|].
      cbn [flat_map]. rewrite (Hf e (or_introl eq_refl)). apply IH.
      intros e' He'. apply Hf. now right. }
    f_equal.
    + apply Hnone. intros entry Hin. unfold addedBy. now rewrite (Hget entry Hin).
    + apply Hnone. intros entry Hin. unfold removedBy, Diff.map_has.
      now rewrite (Hget entry Hin).
    + clear Hnone.
      assert (Hmod : forall l, (forall entry, In entry l -> In entry m) ->
                               flat_map (modifiedBy m) l = []).
      { induction l as [|e rest IH]; intros Hl; [reflexivity|].
        cbn [flat_map]. unfold modifiedBy at 1.
        rewrite (Hget e (Hl e (or_introl eq_refl))), hasChanges_same.
        apply IH. intros e' He'. apply Hl. now right. }
      apply Hmod. auto.
  - intros old new. rewrite !computeChanges_eq. cbn [Diff.added Diff.removed].
    induction new as [|[k v] rest IH]; [reflexivity|].
    cbn [flat_map]. rewrite IH. f_equal.
    unfold addedBy, removedBy, Diff.map_has. cbn [fst snd].
    now destruct (Diff.map_get k old).
Qed.

Lemma computeChanges_self_and_swap_witness :
  Diff.computeChanges oldOperations oldOperations
  = {| Diff.added := []; Diff.removed := []; Diff.modified := [] |}.
Proof.
  apply (proj1 computeChanges_self_and_swap).
  repeat constructor; simpl; intuition discriminate.
Defined.

(** ** Redaction of the request body *)

Lemma lower_upper (c : ascii) : Str.lower (Str.upper c) = Str.lower c.
Proof. destruct c as [[] [] [] [] [] [] [] []]; reflexivity. Qed.

Lemma redact_field_twice (entry : string * value) :
  (fun '(key, v) => (key, if ApiErrorModule.is_sensitive key
                          then VStr "[REDACTED]" else v))
    ((fun '(key, v) => (key, if ApiErrorModule.is_sensitive key
                             then VStr "[REDACTED]" else v)) entry)
  = (fun '(key, v) => (key, if ApiErrorModule.is_sensitive key
                            then VStr "[REDACTED]" else v)) entry.
Proof. destruct entry as [key v]. now destruct (ApiErrorModule.is_sensitive key). Qed.



(** X11: redacting twice changes nothing more than redacting once, and two
    keys that differ only in the case of their ASCII letters are both
    sensitive or both not. *)
Theorem redactSensitive_idempotent_caseless :
  (forall fresh fresh' data,
      JS.own_entries
        (ApiErrorModule.redactSensitive fresh'
           (ApiErrorModule.redactSensitive fresh data))
      = JS.own_entries (ApiErrorModule.redactSensitive fresh data)) /\
  (forall key key',
      Str.map Str.lower key = Str.map Str.lower key' ->
      ApiErrorModule.is_sensitive key = ApiErrorModule.is_sensitive key').
Proof.
  split.
  - intros fresh fresh' data. unfold ApiErrorModule.redactSensitive.
    destruct (negb (JS.truthy data) || negb (String.eqb (JS.typeof data) "object"))
      eqn:Hguard.
    + now rewrite Hguard.
    + cbn [JS.truthy JS.typeof].
      replace (String.eqb "object" "object") with true by reflexivity.
      cbn [negb orb JS.own_entries].
      rewrite List.map_map. apply List.map_ext. intros entry.
      apply redact_field_twice.
  - intros key key' Hsame. unfold ApiErrorModule.is_sensitive, Str.toLowerCase.
    now rewrite Hsame.
Qed.

Lemma redactSensitive_idempotent_caseless_witness :
  ApiErrorModule.is_sensitive "X-API_KEY" = ApiErrorModule.is_sensitive "x-api_Key".
Proof.
  apply (proj2 redactSensitive_idempotent_caseless). reflexivity.
Defined.

(** ** What [createApiError] tells apart *)

Lemma getErrorCode_codes (status : Z) :
  ApiErrorModule.getErrorCode status <> "TIMEOUT" /\
  ApiErrorModule.getErrorCode status <> "NETWORK_ERROR" /\
  ApiErrorModule.getErrorCode status <> "UNKNOWN_ERROR".
Proof.
  unfold ApiErrorModule.getErrorCode.
  repeat match goal with
         | |- context [if ?b then _ else _] => destruct b
         end; repeat split; discriminate.
Qed.

Lemma or_default_not_empty (a : option string) (b : string) :
  b <> EmptyString -> ApiErrorModule.or_default a b <> EmptyString.
Proof.
  intros Hb. unfold ApiErrorModule.or_default. destruct a as [s|]; [|exact Hb].
  destruct (String.eqb_spec s EmptyString); [exact Hb | assumption].
Qed.

(** X12: the error [createApiError] builds tells the three situations apart:
    its [status] is [null] exactly when there was no response, its [code] is
    [TIMEOUT] or [NETWORK_ERROR] exactly for an axios error without response
    and [UNKNOWN_ERROR] exactly for a value that is not an axios error; and
    its request context never has an empty method or url. *)
Theorem createApiError_classifies (fresh : loc) (err : ApiErrorModule.thrown)
    (apiError : ApiErrorModule.ApiError) :
  ApiErrorModule.createApiError fresh err = Returns apiError ->
  let response :=
    match err with
    | ApiErrorModule.ThrownAxiosError axiosError =>
        ApiErrorModule.error_response axiosError
    | _ => None
    end in
  let is_axios :=
    match err with
    | ApiErrorModule.ThrownAxiosError _ => true
    | _ => false
    end in
  (ApiErrorModule.status apiError = None <-> response = None) /\
  (ApiErrorModule.code apiError = "TIMEOUT"
   \/ ApiErrorModule.code apiError = "NETWORK_ERROR"
   <-> is_axios = true /\ response = None) /\
  (ApiErrorModule.code apiError = "UNKNOWN_ERROR" <-> is_axios = false) /\
  ApiErrorModule.method (ApiErrorModule.request apiError) <> EmptyString /\
  ApiErrorModule.url (ApiErrorModule.request apiError) <> EmptyString.
Proof.
  destruct err as [axiosError|m|v]; cbn [ApiErrorModule.createApiError].
  - destruct (ApiErrorModule.error_response axiosError) as [response|] eqn:Hr.
    + destruct (ApiErrorModule.normalizeErrorMessage _) as [normalized|e];
        [|discriminate].
      cbn [mbind outcome_bind]. intros [= <-]. cbn.
      destruct (getErrorCode_codes (ApiErrorModule.response_status response))
        as (H1 & H2 & H3).
      split; [split; discriminate|].
      split; [split; [intros [H|H]; contradiction | intros [_ H]; discriminate H]|].
      split; [split; [contradiction | discriminate]|].
      split; apply or_default_not_empty; discriminate.
    + intros [= <-]. cbn.
      split; [tauto|].
      split; [split; [auto|];
              intros _; destruct (ApiErrorModule.is_aborted _); [now left | now right]|].
      split; [split; [destruct (ApiErrorModule.is_aborted _); discriminate
                     | discriminate]|].
      split; apply or_default_not_empty; discriminate.
  - intros [= <-]. cbn.
    split; [tauto|].
    split; [split; [intros [H|H]; discriminate H | intros [H _]; discriminate H]|].
    split; [tauto|]. split; discriminate.
  - intros [= <-]. cbn.
    split; [tauto|].
    split; [split; [intros [H|H]; discriminate H | intros [H _]; discriminate H]|].
    split; [tauto|]. split; discriminate.
Qed.

Lemma createApiError_classifies_witness :
  exists apiError,
    ApiErrorModule.createApiError 0 (ApiErrorModule.ThrownError "boom")
    = Returns apiError /\
    ApiErrorModule.code apiError = "UNKNOWN_ERROR".
Proof.
  eexists. split; [reflexivity|].
  apply (createApiError_classifies 0 (ApiErrorModule.ThrownError "boom") _ eq_refl).
  reflexivity.
Defined.

(** X13: [safeRequest] resolves whenever the request fulfils.  A result it
    resolves to is accepted by [isSuccess] exactly when the request
    fulfilled; [isError] accepts exactly the other results, and their [data]
    is [null].  The one way for [safeRequest] to reject is a rejected
    request whose axios error carries a response in the errors-by-field
    convention with a first item that cannot be printed. *)
Theorem safeRequest_guards (fresh : loc)
    (promise : ApiErrorModule.settled ApiErrorModule.AxiosResponse) :
  (forall response,
      promise = ApiErrorModule.Fulfilled response ->
      exists result,
        ApiErrorModule.safeRequest fresh promise
        = ApiErrorModule.Fulfilled result) /\
  (forall result,
      ApiErrorModule.safeRequest fresh promise = ApiErrorModule.Fulfilled result ->
      (isSuccess result = true <-> exists response,
          promise = ApiErrorModule.Fulfilled response) /\
      isError result = negb (isSuccess result) /\
      (isError result = true -> ApiErrorModule.result_data result = VNull)) /\
  (forall reason,
      ApiErrorModule.safeRequest fresh promise = ApiErrorModule.Rejected reason ->
      exists axiosError response,
        promise = ApiErrorModule.Rejected
                    (ApiErrorModule.ThrownAxiosError axiosError) /\
        ApiErrorModule.error_response axiosError = Some response /\
        JS.to_string (fieldItem (ApiErrorModule.response_data response))
        = Throws TypeError).
Proof.
  split; [|split].
  - intros response ->. eexists. reflexivity.
  - intros result. destruct promise as [response|err];
      cbn [ApiErrorModule.safeRequest].
    + intros [= <-]. cbn. split; [|split; [reflexivity | discriminate]].
      split; [eauto | reflexivity].
    + destruct (ApiErrorModule.createApiError fresh err) as [apiError|[]];
        [|discriminate].
      intros [= <-]. cbn. split; [|split; reflexivity].
      split; [discriminate | intros [response H]; discriminate H].
  - intros reason. destruct promise as [response|err];
      cbn [ApiErrorModule.safeRequest]; [discriminate|].
    destruct err as [axiosError|m|v]; cbn [ApiErrorModule.createApiError];
      try discriminate.
    destruct (ApiErrorModule.error_response axiosError) as [response|] eqn:Hr;
      [|discriminate].
    destruct (normalizeErrorMessage_cases (ApiErrorModule.response_data response))
      as [(r & -> & _)|[_ Hprint]]; [discriminate|].
    intros _. now exists axiosError, response.
Qed.

(** ** Facts about the interpolation of environment variables *)

Lemma replaceVariables_cons (env : string -> option string) (value : string)
    (c : ascii) (s' : string) :
  Fetcher.replaceVariables env value (String c s') =
  match Fetcher.match_variable (String c s') with
  | Some (varName, rest) =>
      match env varName with
      | None => Raise (Fetcher.notSet varName value)
      | Some envValue =>
          match Fetcher.replaceVariables env value rest with
          | Ok done => Ok (envValue ++ done)
          | Raise e => Raise e
          end
      end
  | None =>
      match Fetcher.replaceVariables env value s' with
      | Ok done => Ok (String c done)
      | Raise e => Raise e
      end
  end.
Proof.
  rewrite Fetcher.replaceVariables_equation_2.
  destruct (Logic.inspect (Fetcher.match_variable (String c s'))) as [[[n r]|] E].
  - transitivity
      (match env n with
       | None => Raise (Fetcher.notSet n value)
       | Some envValue =>
           match Fetcher.replaceVariables env value r with
           | Ok done => @Ok string string (envValue ++ done)
           | Raise e => Raise e
           end
       end); [reflexivity | now rewrite E].
  - transitivity
      (match Fetcher.replaceVariables env value s' with
       | Ok done => @Ok string string (String c done)
       | Raise e => Raise e
       end); [reflexivity | now rewrite E].
Qed.

(** Text without a dollar sign is copied. *)
Lemma replaceVariables_literal (env : string -> option string)
    (value literal s : string) :
  ~ Str.mem "$" literal ->
  Fetcher.replaceVariables env value (literal ++ s) =
  match Fetcher.replaceVariables env value s with
  | Ok done => Ok (literal ++ done)
  | Raise e => Raise e
  end.
Proof.
  induction literal as [|c literal IH]; intros Hl.
  - simpl. now destruct (Fetcher.replaceVariables env value s).
  - change (String c literal ++ s) with (String c (literal ++ s)).
    rewrite replaceVariables_cons. cbn [Fetcher.match_variable].
    destruct (Ascii.eqb_spec c "$") as [->|Hc].
    + exfalso. apply Hl. now left.
    + rewrite IH by (intros Hin; apply Hl; now right).
      now destruct (Fetcher.replaceVariables env value s).
Qed.

Lemma append_empty_r (s : string) : s ++ EmptyString = s.
Proof. induction s as [|c s IH]; [reflexivity | simpl; now rewrite IH]. Qed.

Lemma replaceVariables_no_dollar (env : string -> option string)
    (value s : string) :
  ~ Str.mem "$" s -> Fetcher.replaceVariables env value s = Ok s.
Proof.
  intros Hs. rewrite <- (append_empty_r s) at 1.
  rewrite replaceVariables_literal by assumption.
  rewrite Fetcher.replaceVariables_equation_1. now rewrite append_empty_r.
Qed.

Lemma span_chars_run (run post : string) :
  forallb Fetcher.is_name_char (list_ascii_of_string run) = true ->
  starts_with Fetcher.is_name_char post = false ->
  Fetcher.span_chars (run ++ post) = (run, post).
Proof.
  intros Hrun Hpost. induction run as [|c run IH].
  - destruct post as [|p post]; [reflexivity|].
    simpl in *. now rewrite Hpost.
  - simpl in Hrun. apply andb_prop in Hrun as [Hc Hrun].
    simpl. rewrite Hc. now rewrite (IH Hrun).
Qed.

Lemma name_start_not_brace (c : ascii) :
  Fetcher.is_name_start c = true -> Ascii.eqb c "{" = false.
Proof.
  intros Hc. destruct (Ascii.eqb_spec c "{") as [->|]; [discriminate Hc | reflexivity].
Qed.

Lemma name_char_not_close (c : ascii) :
  Fetcher.is_name_char c = true -> Ascii.eqb c "}" = false.
Proof.
  intros Hc. destruct (Ascii.eqb_spec c "}") as [->|]; [discriminate Hc | reflexivity].
Qed.

Lemma skip_close (closed : bool) (post : string) :
  (closed = false -> starts_with (Ascii.eqb "}") post = false) ->
  Fetcher.skip_brace "}" ((if closed then "}" else EmptyString) ++ post) = post.
Proof.
  intros H. destruct closed; [reflexivity|].
  specialize (H eq_refl). destruct post as [|p post]; [reflexivity|].
  change (EmptyString ++ String p post) with (String p post).
  unfold Fetcher.skip_brace, starts_with in *.
  rewrite Ascii.eqb_sym. now rewrite H.
Qed.

(** The four spellings of a reference are one match of the pattern. *)
Lemma match_variable_reference (opened closed : bool) (name post : string) :
  is_name name = true ->
  starts_with Fetcher.is_name_char post = false ->
  (closed = false -> starts_with (Ascii.eqb "}") post = false) ->
  Fetcher.match_variable (reference opened closed name ++ post)
  = Some (name, post).
Proof.
  intros Hname Hpost Hclose.
  destruct name as [|c run]; [discriminate Hname|].
  simpl in Hname. apply andb_prop in Hname as [Hc Hrun].
  assert (Hspan : Fetcher.span_chars
                    (run ++ (if closed then "}" else EmptyString) ++ post)
                  = (run, (if closed then "}" else EmptyString) ++ post)).
  { apply span_chars_run; [assumption|].
    destruct closed; [reflexivity | assumption]. }
  pose proof (name_start_not_brace c Hc) as Hbrace.
  unfold reference. destruct opened.
  - change ("$" ++ "{" ++ String c run ++ (if closed then "}" else EmptyString))
      with (String "$" (String "{" (String c
              (run ++ (if closed then "}" else EmptyString))))).
    cbn [append]. rewrite append_assoc.
    unfold Fetcher.match_variable. rewrite Ascii.eqb_refl.
    change (Fetcher.skip_brace "{"
              (String "{" (String c
                 (run ++ (if closed then "}" else EmptyString) ++ post))))
      with (String c (run ++ (if closed then "}" else EmptyString) ++ post)).
    cbv iota. rewrite Hc, Hspan. now rewrite skip_close.
  - change ("$" ++ EmptyString ++ String c run
              ++ (if closed then "}" else EmptyString))
      with (String "$" (String c
              (run ++ (if closed then "}" else EmptyString)))).
    cbn [append]. rewrite append_assoc.
    unfold Fetcher.match_variable. rewrite Ascii.eqb_refl.
    replace (Fetcher.skip_brace "{"
               (String c (run ++ (if closed then "}" else EmptyString) ++ post)))
      with (String c (run ++ (if closed then "}" else EmptyString) ++ post))
      by (unfold Fetcher.skip_brace; now rewrite Hbrace).
    cbv iota. rewrite Hc, Hspan. now rewrite skip_close.
Qed.

(** What a match of the pattern captures is a name, and the scan goes on in
    a shorter text. *)
Lemma match_variable_name (s varName rest : string) :
  Fetcher.match_variable s = Some (varName, rest) ->
  is_name varName = true /\ String.length rest < String.length s.
Proof.
  assert (Hspan : forall t run rest0, Fetcher.span_chars t = (run, rest0) ->
            forallb Fetcher.is_name_char (list_ascii_of_string run) = true
            /\ String.length rest0 <= String.length t).
  { induction t as [|x t IH]; intros run rest0; simpl.
    - intros [= <- <-]. split; [reflexivity | simpl; lia].
    - destruct (Fetcher.is_name_char x) eqn:Hx.
      + destruct (Fetcher.span_chars t) as [run0 r0]. intros [= <- <-].
        destruct (IH run0 r0 eq_refl) as [H1 H2]. simpl. rewrite Hx.
        split; [assumption | lia].
      + intros [= <- <-]. split; [reflexivity | simpl; lia]. }
  assert (Hskip : forall b t,
            String.length (Fetcher.skip_brace b t) <= String.length t).
  { intros b [|x t]; simpl; [lia|]. destruct (Ascii.eqb x b); simpl; lia. }
  destruct s as [|c s1]; [discriminate|]. simpl.
  destruct (Ascii.eqb c "$"); [|discriminate].
  pose proof (Hskip "{"%char s1) as H1.
  destruct (Fetcher.skip_brace "{" s1) as [|n s2]; [discriminate|].
  destruct (Fetcher.is_name_start n) eqn:Hn; [|discriminate].
  destruct (Fetcher.span_chars s2) as [run rest0] eqn:Es.
  intros [= <- <-]. destruct (Hspan _ _ _ Es) as [Hrun Hlen].
  pose proof (Hskip "}"%char rest0) as H2.
  split; [simpl; now rewrite Hn | simpl in *; lia].
Qed.

Lemma replaceVariables_raises (env : string -> option string) (value : string)
    (n : nat) :
  forall s e, String.length s <= n ->
  Fetcher.replaceVariables env value s = Raise e ->
  exists varName,
    is_name varName = true /\ env varName = None
    /\ e = Fetcher.notSet varName value.
Proof.
  induction n as [|n IH]; intros s e Hlen.
  - destruct s; [|simpl in Hlen; lia].
    rewrite Fetcher.replaceVariables_equation_1. discriminate.
  - destruct s as [|c s']; [rewrite Fetcher.replaceVariables_equation_1; discriminate|].
    rewrite replaceVariables_cons.
    destruct (Fetcher.match_variable (String c s')) as [[varName rest]|] eqn:E.
    + apply match_variable_name in E as [Hname Hshort].
      destruct (env varName) as [envValue|] eqn:Henv.
      * destruct (Fetcher.replaceVariables env value rest) as [done|e'] eqn:Er;
          [discriminate|].
        intros [= <-]. apply (IH rest e'); [simpl in *; lia | assumption].
      * intros [= <-]. now exists varName.
    + destruct (Fetcher.replaceVariables env value s') as [done|e'] eqn:Er;
        [discriminate|].
      intros [= <-]. apply (IH s' e'); [simpl in *; lia | assumption].
Qed.

(** X14: [interpolateEnvVars] replaces a reference to a variable by the
    variable's value, whichever of the four spellings [$NAME], [${NAME}],
    [${NAME] and [$NAME}] is used (an unbalanced brace is taken with the
    reference), and leaves the text around it alone; the value is inserted as
    it is, even if it contains a dollar sign.  When the variable is not set
    the call throws, and the message names the variable and quotes the whole
    input. *)
Theorem interpolateEnvVars_spellings (env : string -> option string)
    (pre post name : string) (opened closed : bool) :
  ~ Str.mem "$" pre -> ~ Str.mem "$" post ->
  is_name name = true ->
  starts_with Fetcher.is_name_char post = false ->
  (closed = false -> starts_with (Ascii.eqb "}") post = false) ->
  Fetcher.interpolateEnvVars env (pre ++ reference opened closed name ++ post)
  = match env name with
    | Some envValue => Ok (pre ++ envValue ++ post)
    | None =>
        Raise (Fetcher.notSet name (pre ++ reference opened closed name ++ post))
    end.
Proof.
  intros Hpre Hpost Hname Hend Hclose. unfold Fetcher.interpolateEnvVars.
  set (value := pre ++ reference opened closed name ++ post).
  unfold value at 2.
  rewrite replaceVariables_literal by assumption.
  assert (Hm := match_variable_reference opened closed name post Hname Hend Hclose).
  destruct (reference opened closed name ++ post) as [|c s'] eqn:Es;
    [discriminate Hm|].
  rewrite replaceVariables_cons, Hm.
  destruct (env name) as [envValue|]; [|reflexivity].
  now rewrite (replaceVariables_no_dollar env value post Hpost).
Qed.

Lemma interpolateEnvVars_spellings_witness :
  Fetcher.interpolateEnvVars
    (fun name => if String.eqb name "API_TOKEN" then Some "s3cr$t" else None)
    ("Bearer " ++ reference true false "API_TOKEN" ++ "/v1")
  = Ok "Bearer s3cr$t/v1".
Proof.
  refine (interpolateEnvVars_spellings _ "Bearer " "/v1" "API_TOKEN" true false
            _ _ _ _ _).
  - intros H. vm_compute in H. intuition discriminate.
  - intros H. vm_compute in H. intuition discriminate.
  - reflexivity.
  - reflexivity.
  - reflexivity.
Defined.

(** X15: the only way [interpolateEnvVars] fails is a reference to a variable
    that is not set: the error names such a variable and quotes the input.
    A text without a dollar sign comes back unchanged, whatever the
    environment. *)
Theorem interpolateEnvVars_failure (env : string -> option string)
    (value : string) :
  (forall e, Fetcher.interpolateEnvVars env value = Raise e ->
     exists varName,
       is_name varName = true /\ env varName = None
       /\ e = Fetcher.notSet varName value)
  /\ (~ Str.mem "$" value -> Fetcher.interpolateEnvVars env value = Ok value).
Proof.
  split.
  - intros e. apply (replaceVariables_raises env value (String.length value)).
    lia.
  - apply replaceVariables_no_dollar.
Qed.

(** ** Facts about [fetchOpenApiSpec] *)

Lemma attempts_unfold (w : Fetcher.World) (o : Fetcher.Options)
    (cfg : Fetcher.RetryConfig) (sent : list (string * string)) (attempt : Z)
    (lastError : option Errors.exception) (trace : list Fetcher.event) :
  Fetcher.attempts w o cfg sent attempt lastError trace =
  if Z.leb attempt (Fetcher.maxAttempts cfg) then
    match Fetcher.attemptOnce w o sent attempt with
    | Ok fetched =>
        (List.app trace [Fetcher.Requested attempt sent], inl fetched)
    | Raise e =>
        Fetcher.attempts w o cfg sent (attempt + 1)%Z (Some e)
          (if Z.ltb attempt (Fetcher.maxAttempts cfg)
           then List.app trace
                  [Fetcher.Requested attempt sent;
                   Fetcher.Slept (Fetcher.delayMs cfg attempt)]
           else List.app trace [Fetcher.Requested attempt sent])
    end
  else (trace, inr lastError).
Proof.
  rewrite Fetcher.attempts_equation_1.
  destruct (Logic.inspect (Z.leb attempt (Fetcher.maxAttempts cfg))) as [[|] E].
  - transitivity
      (match Fetcher.attemptOnce w o sent attempt with
       | Ok fetched =>
           (List.app trace [Fetcher.Requested attempt sent],
            @inl Fetcher.FetchResult (option Errors.exception) fetched)
       | Raise e =>
           Fetcher.attempts w o cfg sent (attempt + 1)%Z (Some e)
             (if Z.ltb attempt (Fetcher.maxAttempts cfg)
              then List.app trace
                     [Fetcher.Requested attempt sent;
                      Fetcher.Slept (Fetcher.delayMs cfg attempt)]
              else List.app trace [Fetcher.Requested attempt sent])
       end); [reflexivity | now rewrite E].
  - transitivity
      (trace, @inr Fetcher.FetchResult (option Errors.exception) lastError);
      [reflexivity | now rewrite E].
Qed.

Lemma attemptOnce_failed (w : Fetcher.World) (o : Fetcher.Options)
    (sent : list (string * string)) (attempt : Z) :
  failed (Fetcher.network w attempt sent) = true ->
  exists e, Fetcher.attemptOnce w o sent attempt = Raise e.
Proof.
  unfold Fetcher.attemptOnce, failed.
  destruct (Fetcher.network w attempt sent) as [[|] status statusText body|message];
    intros H; [discriminate H | eexists; reflexivity | eexists; reflexivity].
Qed.

Lemma attemptOnce_ok (w : Fetcher.World) (o : Fetcher.Options)
    (sent : list (string * string)) (attempt status : Z)
    (statusText body : string) :
  Fetcher.network w attempt sent = Fetcher.Response true status statusText body ->
  Fetcher.attemptOnce w o sent attempt
  = Ok {| Fetcher.buffer := body;
          Fetcher.result_hash := Fetcher.computeHash w body;
          Fetcher.hasChanged := changed w o body;
          Fetcher.fromCache := false |}.
Proof.
  unfold Fetcher.attemptOnce, changed. intros ->. cbn [negb].
  destruct (Fetcher.force o) as [[|]|], (Fetcher.existingCache w); reflexivity.
Qed.

(** The loop stops at the first request that gives a result. *)
Lemma attempts_success (w : Fetcher.World) (o : Fetcher.Options)
    (cfg : Fetcher.RetryConfig) (sent : list (string * string))
    (fetched : Fetcher.FetchResult) (count : nat) :
  forall (attempt : Z) (lastError : option Errors.exception)
         (trace : list Fetcher.event),
  (attempt + Z.of_nat count <= Fetcher.maxAttempts cfg)%Z ->
  (forall k, (attempt <= k < attempt + Z.of_nat count)%Z ->
     failed (Fetcher.network w k sent) = true) ->
  Fetcher.attemptOnce w o sent (attempt + Z.of_nat count)%Z = Ok fetched ->
  Fetcher.attempts w o cfg sent attempt lastError trace
  = (List.app trace
       (List.app (retried cfg sent attempt count)
          [Fetcher.Requested (attempt + Z.of_nat count)%Z sent]),
     inl fetched).
Proof.
  induction count as [|count IH]; intros attempt lastError trace Hmax Hfail Hok;
    rewrite attempts_unfold.
  - replace (attempt + Z.of_nat 0)%Z with attempt in * by lia.
    destruct (Z.leb_spec attempt (Fetcher.maxAttempts cfg)); [|lia].
    now rewrite Hok.
  - destruct (Z.leb_spec attempt (Fetcher.maxAttempts cfg)); [|lia].
    destruct (attemptOnce_failed w o sent attempt) as [e He]; [apply Hfail; lia|].
    rewrite He. destruct (Z.ltb_spec attempt (Fetcher.maxAttempts cfg)); [|lia].
    replace (attempt + Z.of_nat (S count))%Z with (attempt + 1 + Z.of_nat count)%Z
      in * by lia.
    rewrite (IH (attempt + 1)%Z); [| lia | intros k Hk; apply Hfail; lia | assumption].
    cbn [retried]. now rewrite <- !List.app_assoc.
Qed.

(** When no request gives a result the loop runs to its bound, and keeps the
    error of the last request. *)
Lemma attempts_exhausted (w : Fetcher.World) (o : Fetcher.Options)
    (cfg : Fetcher.RetryConfig) (sent : list (string * string)) (count : nat) :
  forall (attempt : Z) (lastError : option Errors.exception)
         (trace : list Fetcher.event),
  (attempt + Z.of_nat count)%Z = Fetcher.maxAttempts cfg ->
  (forall k, (attempt <= k <= Fetcher.maxAttempts cfg)%Z ->
     failed (Fetcher.network w k sent) = true) ->
  exists e,
    Fetcher.attemptOnce w o sent (Fetcher.maxAttempts cfg) = Raise e
    /\ Fetcher.attempts w o cfg sent attempt lastError trace
       = (List.app trace
            (List.app (retried cfg sent attempt count)
               [Fetcher.Requested (Fetcher.maxAttempts cfg) sent]),
          inr (Some e)).
Proof.
  induction count as [|count IH]; intros attempt lastError trace Hmax Hfail.
  - replace (attempt + Z.of_nat 0)%Z with attempt in Hmax by lia. subst attempt.
    destruct (attemptOnce_failed w o sent (Fetcher.maxAttempts cfg)) as [e He];
      [apply Hfail; lia|].
    exists e. split; [assumption|].
    rewrite attempts_unfold.
    destruct (Z.leb_spec (Fetcher.maxAttempts cfg) (Fetcher.maxAttempts cfg)); [|lia].
    rewrite He.
    destruct (Z.ltb_spec (Fetcher.maxAttempts cfg) (Fetcher.maxAttempts cfg)); [lia|].
    rewrite attempts_unfold.
    destruct (Z.leb_spec (Fetcher.maxAttempts cfg + 1)%Z (Fetcher.maxAttempts cfg));
      [lia | reflexivity].
  - destruct (IH (attempt + 1)%Z lastError trace) as [e [He _]];
      [lia | intros k Hk; apply Hfail; lia |].
    exists e. split; [assumption|].
    rewrite attempts_unfold.
    destruct (Z.leb_spec attempt (Fetcher.maxAttempts cfg)); [|lia].
    destruct (attemptOnce_failed w o sent attempt) as [e0 He0];
      [apply Hfail; lia|].
    rewrite He0. destruct (Z.ltb_spec attempt (Fetcher.maxAttempts cfg)); [|lia].
    destruct (IH (attempt + 1)%Z (Some e0)
                (List.app trace
                   [Fetcher.Requested attempt sent;
                    Fetcher.Slept (Fetcher.delayMs cfg attempt)]))
      as [e' [He' Hrun]]; [lia | intros k Hk; apply Hfail; lia |].
    rewrite Hrun. rewrite He in He'. injection He' as <-.
    cbn [retried]. now rewrite <- !List.app_assoc.
Qed.

Lemma fetch_first_success (w : Fetcher.World) (o : Fetcher.Options)
    (sent : list (string * string)) (n : nat) (status : Z)
    (statusText body : string) :
  Fetcher.requestHeaders w o = Ok sent ->
  (Z.of_nat (S n) <= Fetcher.maxAttempts (settings o))%Z ->
  (forall k, (1 <= k < Z.of_nat (S n))%Z ->
     failed (Fetcher.network w k sent) = true) ->
  Fetcher.network w (Z.of_nat (S n)) sent
    = Fetcher.Response true status statusText body ->
  Fetcher.fetchOpenApiSpec w o
  = (schedule (settings o) sent (S n),
     Ok {| Fetcher.buffer := body;
           Fetcher.result_hash := Fetcher.computeHash w body;
           Fetcher.hasChanged := changed w o body;
           Fetcher.fromCache := false |}).
Proof.
  intros Hsent Hmax Hfail Hreply. unfold Fetcher.fetchOpenApiSpec.
  rewrite Hsent. fold (settings o).
  rewrite (attempts_success w o (settings o) sent
             {| Fetcher.buffer := body;
                Fetcher.result_hash := Fetcher.computeHash w body;
                Fetcher.hasChanged := changed w o body;
                Fetcher.fromCache := false |} n 1%Z None []).
  - unfold schedule. cbn [List.app]. do 3 f_equal. f_equal. lia.
  - lia.
  - intros k Hk. apply Hfail. lia.
  - replace (1 + Z.of_nat n)%Z with (Z.of_nat (S n)) by lia.
    now apply (attemptOnce_ok w o sent _ status statusText).
Qed.

(** X16: when request number [n] is the first one that gives a result, with
    [n] within [maxAttempts], [fetchOpenApiSpec] sends exactly [n] requests,
    waits [baseDelay * backoffMultiplier ** (k - 1)] after the failed request
    [k], and returns the body of request [n] with its own hash, not from the
    cache; the document counts as changed when [force] is set, when there
    is no cache metadata, or when the recorded hash differs. *)
Theorem fetchOpenApiSpec_first_success (w : Fetcher.World) (o : Fetcher.Options)
    (sent : list (string * string)) (n : nat) (status : Z)
    (statusText body : string) :
  Fetcher.requestHeaders w o = Ok sent ->
  (Z.of_nat (S n) <= Fetcher.maxAttempts (settings o))%Z ->
  (forall k, (1 <= k < Z.of_nat (S n))%Z ->
     failed (Fetcher.network w k sent) = true) ->
  Fetcher.network w (Z.of_nat (S n)) sent
    = Fetcher.Response true status statusText body ->
  Fetcher.fetchOpenApiSpec w o
  = (schedule (settings o) sent (S n),
     Ok {| Fetcher.buffer := body;
           Fetcher.result_hash := Fetcher.computeHash w body;
           Fetcher.hasChanged := changed w o body;
           Fetcher.fromCache := false |}).
Proof.
  exact (fetch_first_success w o sent n status statusText body).
Qed.

Lemma fetchOpenApiSpec_first_success_witness :
  Fetcher.fetchOpenApiSpec
    {| Fetcher.env := fun _ => None;
       Fetcher.existingCache :=
         Some {| Fetcher.hash := "abc"; Fetcher.timestamp := 0;
                 Fetcher.cache_endpoint := "http://localhost" |};
       Fetcher.cachedSpec := Some "{}";
       Fetcher.network := fun attempt _ =>
         if Z.eqb attempt 3 then Fetcher.Response true 200 "OK" "{}"
         else if Z.eqb attempt 2 then Fetcher.Response false 503 "Busy" EmptyString
         else Fetcher.Rejection "ECONNREFUSED";
       Fetcher.computeHash := fun _ => "abc" |}
    {| Fetcher.endpoint := "http://localhost"; Fetcher.force := None;
       Fetcher.retryConfig := None; Fetcher.headers := None |}
  = ([ Fetcher.Requested 1 [("Accept", "application/json")];
       Fetcher.Slept 1000;
       Fetcher.Requested 2 [("Accept", "application/json")];
       Fetcher.Slept 2000;
       Fetcher.Requested 3 [("Accept", "application/json")] ],
     Ok {| Fetcher.buffer := "{}"; Fetcher.result_hash := "abc";
           Fetcher.hasChanged := false; Fetcher.fromCache := false |}).
Proof.
  refine (fetchOpenApiSpec_first_success _ _ [("Accept", "application/json")]
            2 200 "OK" "{}" _ _ _ _).
  - reflexivity.
  - vm_compute. discriminate.
  - intros k Hk. cbn [Fetcher.network].
    destruct (Z.eqb_spec k 3) as [->|_]; [lia|].
    now destruct (Z.eqb k 2).
  - reflexivity.
Defined.

Lemma fetch_exhausted (w : Fetcher.World) (o : Fetcher.Options)
    (sent : list (string * string)) :
  Fetcher.requestHeaders w o = Ok sent ->
  (forall k, (1 <= k <= Fetcher.maxAttempts (settings o))%Z ->
     failed (Fetcher.network w k sent) = true) ->
  exists lastError,
    Fetcher.fetchOpenApiSpec w o
    = (schedule (settings o) sent (Z.to_nat (Fetcher.maxAttempts (settings o))),
       match Fetcher.cachedSpec w, Fetcher.existingCache w with
       | Some cached, Some cache =>
           Ok {| Fetcher.buffer := cached;
                 Fetcher.result_hash := Fetcher.hash cache;
                 Fetcher.hasChanged := false;
                 Fetcher.fromCache := true |}
       | _, _ =>
           Raise (Errors.NetworkError (Fetcher.endpoint o)
                    ("Failed to fetch OpenAPI spec after "
                       ++ Str.of_Z (Fetcher.maxAttempts (settings o))
                       ++ " attempts: " ++ Fetcher.lastMessage lastError)
                    None)
       end)
    /\ ((Fetcher.maxAttempts (settings o) < 1)%Z -> lastError = None)
    /\ ((1 <= Fetcher.maxAttempts (settings o))%Z ->
        exists e,
          Fetcher.attemptOnce w o sent (Fetcher.maxAttempts (settings o))
            = Raise e
          /\ lastError = Some e).
Proof.
  intros Hsent Hfail. unfold Fetcher.fetchOpenApiSpec.
  rewrite Hsent. fold (settings o).
  destruct (Z.ltb_spec (Fetcher.maxAttempts (settings o)) 1) as [Hnone|Hsome].
  - exists None. rewrite attempts_unfold.
    destruct (Z.leb_spec 1 (Fetcher.maxAttempts (settings o))); [lia|].
    replace (Z.to_nat (Fetcher.maxAttempts (settings o))) with O by lia.
    split; [|split; [reflexivity | lia]].
    now destruct (Fetcher.cachedSpec w), (Fetcher.existingCache w).
  - destruct (attempts_exhausted w o (settings o) sent
                (Z.to_nat (Fetcher.maxAttempts (settings o) - 1)) 1%Z None [])
      as [e [He Hrun]]; [lia | assumption |].
    exists (Some e). rewrite Hrun.
    replace (Z.to_nat (Fetcher.maxAttempts (settings o)))
      with (S (Z.to_nat (Fetcher.maxAttempts (settings o) - 1))) by lia.
    unfold schedule. cbn [List.app].
    replace (Z.of_nat (S (Z.to_nat (Fetcher.maxAttempts (settings o) - 1))))
      with (Fetcher.maxAttempts (settings o)) by lia.
    split; [|split; [lia | intros _; now exists e]].
    now destruct (Fetcher.cachedSpec w), (Fetcher.existingCache w).
Qed.

(** X17: when none of the [maxAttempts] requests gives a result,
    [fetchOpenApiSpec] has sent exactly [maxAttempts] requests (none when
    [maxAttempts] is below 1) with a wait between two of them and none after
    the last; it then returns the document on disk with the hash recorded in
    the cache metadata, marked unchanged and [fromCache], provided both the
    document and the metadata exist, and otherwise throws a [NetworkError]
    without status code whose message counts the attempts and ends with the
    message of the last failure. *)
Theorem fetchOpenApiSpec_exhausted (w : Fetcher.World) (o : Fetcher.Options)
    (sent : list (string * string)) :
  Fetcher.requestHeaders w o = Ok sent ->
  (forall k, (1 <= k <= Fetcher.maxAttempts (settings o))%Z ->
     failed (Fetcher.network w k sent) = true) ->
  exists lastError,
    Fetcher.fetchOpenApiSpec w o
    = (schedule (settings o) sent (Z.to_nat (Fetcher.maxAttempts (settings o))),
       match Fetcher.cachedSpec w, Fetcher.existingCache w with
       | Some cached, Some cache =>
           Ok {| Fetcher.buffer := cached;
                 Fetcher.result_hash := Fetcher.hash cache;
                 Fetcher.hasChanged := false;
                 Fetcher.fromCache := true |}
       | _, _ =>
           Raise (Errors.NetworkError (Fetcher.endpoint o)
                    ("Failed to fetch OpenAPI spec after "
                       ++ Str.of_Z (Fetcher.maxAttempts (settings o))
                       ++ " attempts: " ++ Fetcher.lastMessage lastError)
                    None)
       end)
    /\ ((Fetcher.maxAttempts (settings o) < 1)%Z -> lastError = None)
    /\ ((1 <= Fetcher.maxAttempts (settings o))%Z ->
        exists e,
          Fetcher.attemptOnce w o sent (Fetcher.maxAttempts (settings o))
            = Raise e
          /\ lastError = Some e).
Proof.
  exact (fetch_exhausted w o sent).
Qed.

Lemma fetchOpenApiSpec_exhausted_witness :
  exists lastError,
    Fetcher.fetchOpenApiSpec
      {| Fetcher.env := fun _ => None;
         Fetcher.existingCache :=
           Some {| Fetcher.hash := "abc"; Fetcher.timestamp := 0;
                   Fetcher.cache_endpoint := "http://localhost" |};
         Fetcher.cachedSpec := Some "{}";
         Fetcher.network := fun _ _ => Fetcher.Rejection "ECONNREFUSED";
         Fetcher.computeHash := fun _ => "def" |}
      {| Fetcher.endpoint := "http://localhost"; Fetcher.force := Some true;
         Fetcher.retryConfig := None; Fetcher.headers := None |}
    = ([ Fetcher.Requested 1 [("Accept", "application/json")];
         Fetcher.Slept 1000;
         Fetcher.Requested 2 [("Accept", "application/json")];
         Fetcher.Slept 2000;
         Fetcher.Requested 3 [("Accept", "application/json")] ],
       Ok {| Fetcher.buffer := "{}"; Fetcher.result_hash := "abc";
             Fetcher.hasChanged := false; Fetcher.fromCache := true |})
    /\ lastError = Some (Errors.Error "ECONNREFUSED").
Proof.
  destruct (fetchOpenApiSpec_exhausted
              {| Fetcher.env := fun _ => None;
                 Fetcher.existingCache :=
                   Some {| Fetcher.hash := "abc"; Fetcher.timestamp := 0;
                           Fetcher.cache_endpoint := "http://localhost" |};
                 Fetcher.cachedSpec := Some "{}";
                 Fetcher.network := fun _ _ => Fetcher.Rejection "ECONNREFUSED";
                 Fetcher.computeHash := fun _ => "def" |}
              {| Fetcher.endpoint := "http://localhost";
                 Fetcher.force := Some true;
                 Fetcher.retryConfig := None; Fetcher.headers := None |}
              [("Accept", "application/json")])
    as [lastError [Hrun [_ Hlast]]].
  - reflexivity.
  - intros k _. reflexivity.
  - exists lastError. split; [exact Hrun|].
    destruct Hlast as [e [He ->]]; [vm_compute; discriminate|].
    vm_compute in He. now injection He as <-.
Defined.

Lemma forEachHeader_raises (env : string -> option string)
    (entries : list (string * string)) :
  forall object : list (string * string),
  (exists entry e, In entry entries
     /\ Fetcher.interpolateEnvVars env (snd entry) = Raise e) ->
  exists entry e, In entry entries
    /\ Fetcher.interpolateEnvVars env (snd entry) = Raise e
    /\ Fetcher.forEachHeader env entries object = Raise e.
Proof.
  induction entries as [|entry rest IH]; intros object [bad [e [Hin Hbad]]].
  - destruct Hin.
  - cbn [Fetcher.forEachHeader]. unfold Fetcher.interpolateHeader.
    destruct (Fetcher.interpolateEnvVars env (snd entry)) as [done|e0] eqn:Ehead.
    + destruct Hin as [->|Hin]; [congruence|].
      destruct (IH (Fetcher.set_property (fst entry) done object))
        as [entry' [e' [Hin' [Hraise Hrun]]]]; [now exists bad, e|].
      exists entry', e'. split; [now right|]. split; [assumption|].
      exact Hrun.
    + exists entry, e0. split; [now left|]. now split.
Qed.

(** X18: when the value of one of the configured headers refers to an
    environment variable that is not set, [fetchOpenApiSpec] throws before
    any request is sent and before any wait: the error is a plain [Error]
    whose message starts with [Failed to interpolate headers:] and names an
    unset variable and the header value that refers to it. *)
Theorem fetchOpenApiSpec_unset_header_variable (w : Fetcher.World)
    (o : Fetcher.Options) (given : list (string * string))
    (key value e : string) :
  Fetcher.headers o = Some given ->
  In (key, value) given ->
  Fetcher.interpolateEnvVars (Fetcher.env w) value = Raise e ->
  exists varName value',
    In value' (List.map snd given)
    /\ is_name varName = true
    /\ Fetcher.env w varName = None
    /\ Fetcher.fetchOpenApiSpec w o
       = ([], Raise (Errors.Error
                       ("Failed to interpolate headers: "
                          ++ Fetcher.notSet varName value'))).
Proof.
  intros Hgiven Hin Hbad.
  destruct (forEachHeader_raises (Fetcher.env w) given [])
    as [entry [e' [Hin' [Hraise Hrun]]]]; [now exists (key, value), e|].
  destruct (replaceVariables_raises (Fetcher.env w) (snd entry)
              (String.length (snd entry)) (snd entry) e')
    as [varName [Hname [Hunset ->]]]; [lia | exact Hraise |].
  exists varName, (snd entry).
  split; [now apply in_map|]. split; [assumption|]. split; [assumption|].
  unfold Fetcher.fetchOpenApiSpec, Fetcher.requestHeaders.
  rewrite Hgiven. unfold Fetcher.interpolateHeaders. now rewrite Hrun.
Qed.

Lemma fetchOpenApiSpec_unset_header_variable_witness :
  exists varName value',
    In value' ["Bearer $API_TOKEN"]
    /\ is_name varName = true
    /\ (fun _ : string => @None string) varName = None
    /\ Fetcher.fetchOpenApiSpec
         {| Fetcher.env := fun _ => None;
            Fetcher.existingCache := None;
            Fetcher.cachedSpec := None;
            Fetcher.network := fun _ _ => Fetcher.Response true 200 "OK" "{}";
            Fetcher.computeHash := fun _ => "abc" |}
         {| Fetcher.endpoint := "http://localhost"; Fetcher.force := None;
            Fetcher.retryConfig := None;
            Fetcher.headers := Some [("Authorization", "Bearer $API_TOKEN")] |}
       = ([], Raise (Errors.Error
                       ("Failed to interpolate headers: "
                          ++ Fetcher.notSet varName value'))).
Proof.
  refine (fetchOpenApiSpec_unset_header_variable
            {| Fetcher.env := fun _ => None;
               Fetcher.existingCache := None;
               Fetcher.cachedSpec := None;
               Fetcher.network := fun _ _ => Fetcher.Response true 200 "OK" "{}";
               Fetcher.computeHash := fun _ => "abc" |}
            {| Fetcher.endpoint := "http://localhost"; Fetcher.force := None;
               Fetcher.retryConfig := None;
               Fetcher.headers := Some [("Authorization", "Bearer $API_TOKEN")] |}
            [("Authorization", "Bearer $API_TOKEN")]
            "Authorization" "Bearer $API_TOKEN"
            (Fetcher.notSet "API_TOKEN" "Bearer $API_TOKEN") _ _ _).
  - reflexivity.
  - now left.
  - vm_compute. reflexivity.
Defined.

(** ** Facts about [validateConfig] *)

Lemma textOr_not_blank (v : value) (otherwise : string) :
  Config.is_blank otherwise = false ->
  Config.is_blank (Config.textOr v otherwise) = false.
Proof.
  intros H. destruct v; try exact H.
  unfold Config.textOr. now destruct (Config.is_blank s) eqn:E.
Qed.

Lemma validateWatchConfig_raises (watch : value) (e : Config.thrown) :
  Config.validateWatchConfig watch = Raise e ->
  e = Config.Thrown
        (Errors.ConfigValidationError "watch" "watch section must be an object").
Proof.
  unfold Config.validateWatchConfig. intros H. config_unfold H.
  repeat config_step H. now injection H as <-.
Qed.

Lemma validateInstanceConfig_raises (instance : value) (e : Config.thrown) :
  Config.validateInstanceConfig instance = Raise e ->
  e = Config.Thrown
        (Errors.ConfigValidationError "instance"
           "instance section must be an object").
Proof.
  unfold Config.validateInstanceConfig. intros H. config_unfold H.
  destruct (JS.nullish instance); [discriminate H|].
  destruct (negb (String.eqb (JS.typeof instance) "object"));
    [now injection H as <- | discriminate H].
Qed.

Lemma validateInstanceConfig_returns (instance : value)
    (c : Config.InstanceConfig) :
  Config.validateInstanceConfig instance = Ok c ->
  Config.is_blank (Config.base_url_env c) = false
  /\ Config.is_blank (Config.token_key c) = false
  /\ (0 < Config.timeout c)%Z.
Proof.
  unfold Config.validateInstanceConfig. intros H. config_unfold H.
  destruct (JS.nullish instance).
  - injection H as <-. repeat split.
  - destruct (negb (String.eqb (JS.typeof instance) "object"));
      [discriminate H|].
    injection H as <-. cbn [Config.base_url_env Config.token_key Config.timeout].
    split; [now apply textOr_not_blank|].
    split; [now apply textOr_not_blank|].
    destruct (JS.prop instance "timeout"); try reflexivity.
    destruct (Z.ltb_spec 0 n); [assumption | reflexivity].
Qed.

Lemma copyHeaders_raises (entries : list (string * value)) :
  forall (copied : list (string * string)) (e : Config.thrown),
  Config.copyHeaders entries copied = Raise e ->
  exists key,
    e = Config.Thrown
          (Errors.ConfigValidationError ("fetch.headers." ++ key)
             "header value must be a string").
Proof.
  induction entries as [|[key v] rest IH]; intros copied e; [discriminate|].
  destruct v; cbn [Config.copyHeaders]; unfold Config.invalid;
    try (intros [= <-]; now exists key).
  apply IH.
Qed.

Lemma validateFetchConfig_raises (fetch : value) (e : Config.thrown) :
  Config.validateFetchConfig fetch = Raise e ->
  exists field message,
    e = Config.Thrown (Errors.ConfigValidationError field message)
    /\ (field = "fetch" \/ field = "fetch.headers"
        \/ exists key, field = "fetch.headers." ++ key).
Proof.
  unfold Config.validateFetchConfig. intros H. config_unfold H.
  destruct (JS.nullish fetch) eqn:Hf; [discriminate H|].
  destruct (negb (String.eqb (JS.typeof fetch) "object")).
  { injection H as <-. do 2 eexists. split; [reflexivity | now left]. }
  destruct (JS.nullish (JS.prop fetch "headers")) eqn:Hh; [discriminate H|].
  destruct (negb (String.eqb (JS.typeof (JS.prop fetch "headers")) "object")).
  { injection H as <-. do 2 eexists. split; [reflexivity | right; now left]. }
  unfold JS.entries in H. rewrite Hh in H.
  destruct (Config.copyHeaders (JS.own_entries (JS.prop fetch "headers")) [])
    as [copied|e'] eqn:Ec; [discriminate H|].
  injection H as <-. apply copyHeaders_raises in Ec as [key ->].
  do 2 eexists. split; [reflexivity | right; right; now exists key].
Qed.

Lemma validateFetchConfig_returns (fetch : value) (r : option Config.FetchConfig) :
  Config.validateFetchConfig fetch = Ok r ->
  forall fc, r = Some fc -> exists copied, Config.headers fc = Some copied.
Proof.
  unfold Config.validateFetchConfig. intros H. config_unfold H.
  destruct (JS.nullish fetch) eqn:Hf; [injection H as <-; discriminate|].
  destruct (negb (String.eqb (JS.typeof fetch) "object")); [discriminate H|].
  destruct (JS.nullish (JS.prop fetch "headers")) eqn:Hh;
    [injection H as <-; discriminate|].
  destruct (negb (String.eqb (JS.typeof (JS.prop fetch "headers")) "object"));
    [discriminate H|].
  unfold JS.entries in H. rewrite Hh in H.
  destruct (Config.copyHeaders (JS.own_entries (JS.prop fetch "headers")) [])
    as [copied|e'] eqn:Ec; [|discriminate H].
  injection H as <-. intros fc [= <-]. now exists copied.
Qed.

Lemma object_not_nullish (v : value) :
  negb (String.eqb (JS.typeof v) "object") || JS.strict_eq v VNull = false ->
  JS.nullish v = false.
Proof. now destruct v. Qed.

(** X19: a configuration that [validateConfig] accepts satisfies what the
    rest of the tool relies on.  The three mandatory settings are the ones
    written in the file: an endpoint and an output folder that are not
    blank, and a polling interval of at least 1000.  The optional ones are
    repaired rather than rejected: [spec_file] is absent or not blank, the
    fetch section is absent or has its headers, and the instance section
    always has a non-blank [base_url_env] and [token_key] and a positive
    [timeout], the defaults standing in for what is missing or ill-typed. *)
Theorem validateConfig_accepted (config : value) (cfg : Config.ApiConfig) :
  Config.validateConfig config = Ok cfg ->
  (JS.prop config "api_endpoint" = VStr (Config.api_endpoint cfg)
   /\ Config.is_blank (Config.api_endpoint cfg) = false)
  /\ (JS.prop config "poll_interval_ms" = VNum (Config.poll_interval_ms cfg)
      /\ (1000 <= Config.poll_interval_ms cfg)%Z)
  /\ (JS.prop (JS.prop config "output") "folder"
        = VStr (Config.output_folder cfg)
      /\ Config.is_blank (Config.output_folder cfg) = false)
  /\ (forall file, Config.spec_file cfg = Some file ->
        Config.is_blank file = false)
  /\ (forall fc, Config.fetch cfg = Some fc ->
        exists copied, Config.headers fc = Some copied)
  /\ Config.is_blank (Config.base_url_env (Config.instance cfg)) = false
  /\ Config.is_blank (Config.token_key (Config.instance cfg)) = false
  /\ (0 < Config.timeout (Config.instance cfg))%Z.
Proof.
  unfold Config.validateConfig. intros H.
  destruct (negb (String.eqb (JS.typeof config) "object")
            || JS.strict_eq config VNull) eqn:Hroot; [discriminate H|].
  apply object_not_nullish in Hroot. config_unfold H. rewrite Hroot in H.
  destruct (JS.prop config "api_endpoint") as [| | | |endpoint| |] eqn:He;
    try discriminate H.
  destruct (Config.is_blank endpoint) eqn:Hendpoint; [discriminate H|].
  destruct (JS.prop config "poll_interval_ms") as [| | |poll| | |] eqn:Hp;
    try discriminate H.
  destruct (Z.ltb_spec poll 1000) as [|Hpoll]; [discriminate H|].
  destruct (negb (String.eqb (JS.typeof (JS.prop config "output")) "object")
            || JS.strict_eq (JS.prop config "output") VNull) eqn:Hout;
    [discriminate H|].
  apply object_not_nullish in Hout. rewrite Hout in H.
  destruct (JS.prop (JS.prop config "output") "folder")
    as [| | | |folder| |] eqn:Hfolder; try discriminate H.
  destruct (Config.is_blank folder) eqn:Hblank; [discriminate H|].
  destruct (Config.validateFetchConfig (JS.prop config "fetch"))
    as [fetchConfig|] eqn:Hfetch; [|discriminate H].
  destruct (Config.validateInstanceConfig (JS.prop config "instance"))
    as [instanceConfig|] eqn:Hinstance; [|discriminate H].
  destruct (Config.validateWatchConfig (JS.prop config "watch"))
    as [watchConfig|] eqn:Hwatch; [|discriminate H].
  injection H as <-.
  cbn [Config.api_endpoint Config.poll_interval_ms Config.output_folder
       Config.spec_file Config.fetch Config.instance].
  destruct (validateInstanceConfig_returns _ _ Hinstance) as [H1 [H2 H3]].
  repeat split; try assumption.
  - intros file Hfile. destruct (JS.prop config "spec_file"); try discriminate Hfile.
    destruct (Config.is_blank s) eqn:Hs; [discriminate Hfile|].
    now injection Hfile as <-.
  - now apply (validateFetchConfig_returns _ _ Hfetch).
Qed.

(** X20: [validateConfig] never fails on a property read, whatever the parsed
    file holds: what it throws is always a [ConfigValidationError], and the
    field it names is one of [root], [api_endpoint], [poll_interval_ms],
    [output], [output.folder], [fetch], [fetch.headers], [instance] and
    [watch], or [fetch.headers.] followed by the name of a header. *)
Theorem validateConfig_rejections (config : value) (e : Config.thrown) :
  Config.validateConfig config = Raise e ->
  exists field message,
    e = Config.Thrown (Errors.ConfigValidationError field message)
    /\ (In field ["root"; "api_endpoint"; "poll_interval_ms"; "output";
                  "output.folder"; "fetch"; "fetch.headers"; "instance";
                  "watch"]
        \/ exists key, field = "fetch.headers." ++ key).
Proof.
  unfold Config.validateConfig. intros H.
  assert (Hlisted : forall field message,
            In field ["root"; "api_endpoint"; "poll_interval_ms"; "output";
                      "output.folder"; "fetch"; "fetch.headers"; "instance";
                      "watch"] ->
            @Config.invalid Config.ApiConfig field message = Raise e ->
            exists field message,
              e = Config.Thrown (Errors.ConfigValidationError field message)
              /\ (In field ["root"; "api_endpoint"; "poll_interval_ms";
                            "output"; "output.folder"; "fetch"; "fetch.headers";
                            "instance"; "watch"]
                  \/ exists key, field = "fetch.headers." ++ key)).
  { intros field message Hin [= <-]. exists field, message.
    split; [reflexivity | now left]. }
  destruct (negb (String.eqb (JS.typeof config) "object")
            || JS.strict_eq config VNull) eqn:Hroot.
  { apply (Hlisted _ _ ltac:(now left) H). }
  apply object_not_nullish in Hroot.
  unfold mbind, result_bind, Config.reading, JS.get in H. rewrite Hroot in H.
  destruct (JS.prop config "api_endpoint") as [| | | |endpoint| |];
    try (apply (Hlisted _ _ ltac:(right; now left) H)).
  destruct (Config.is_blank endpoint);
    [apply (Hlisted _ _ ltac:(right; now left) H)|].
  destruct (JS.prop config "poll_interval_ms") as [| | |poll| | |];
    try (apply (Hlisted _ _ ltac:(do 2 right; now left) H)).
  destruct (Z.ltb poll 1000);
    [apply (Hlisted _ _ ltac:(do 2 right; now left) H)|].
  destruct (negb (String.eqb (JS.typeof (JS.prop config "output")) "object")
            || JS.strict_eq (JS.prop config "output") VNull) eqn:Hout.
  { apply (Hlisted _ _ ltac:(do 3 right; now left) H). }
  apply object_not_nullish in Hout. rewrite Hout in H.
  destruct (JS.prop (JS.prop config "output") "folder") as [| | | |folder| |];
    try (apply (Hlisted _ _ ltac:(do 4 right; now left) H)).
  destruct (Config.is_blank folder);
    [apply (Hlisted _ _ ltac:(do 4 right; now left) H)|].
  destruct (Config.validateFetchConfig (JS.prop config "fetch"))
    as [fetchConfig|e1] eqn:Hfetch.
  - destruct (Config.validateInstanceConfig (JS.prop config "instance"))
      as [instanceConfig|e2] eqn:Hinstance.
    + destruct (Config.validateWatchConfig (JS.prop config "watch"))
        as [watchConfig|e3] eqn:Hwatch; [discriminate H|].
      injection H as <-. apply validateWatchConfig_raises in Hwatch as ->.
      do 2 eexists. split; [reflexivity|]. left. do 8 right. now left.
    + injection H as <-. apply validateInstanceConfig_raises in Hinstance as ->.
      do 2 eexists. split; [reflexivity|]. left. do 7 right. now left.
  - injection H as <-.
    apply validateFetchConfig_raises in Hfetch
      as [field [message [-> [->|[->|[key ->]]]]]];
      do 2 eexists; (split; [reflexivity|]).
    + left. do 5 right. now left.
    + left. do 6 right. now left.
    + right. now exists key.
Qed.

Lemma validateConfig_accepted_witness :
  (JS.prop writtenConfig "api_endpoint"
     = VStr (Config.api_endpoint validatedConfig)
   /\ Config.is_blank (Config.api_endpoint validatedConfig) = false)
  /\ (JS.prop writtenConfig "poll_interval_ms"
        = VNum (Config.poll_interval_ms validatedConfig)
      /\ (1000 <= Config.poll_interval_ms validatedConfig)%Z)
  /\ (JS.prop (JS.prop writtenConfig "output") "folder"
        = VStr (Config.output_folder validatedConfig)
      /\ Config.is_blank (Config.output_folder validatedConfig) = false)
  /\ (forall file, Config.spec_file validatedConfig = Some file ->
        Config.is_blank file = false)
  /\ (forall fc, Config.fetch validatedConfig = Some fc ->
        exists copied, Config.headers fc = Some copied)
  /\ Config.is_blank (Config.base_url_env (Config.instance validatedConfig))
     = false
  /\ Config.is_blank (Config.token_key (Config.instance validatedConfig))
     = false
  /\ (0 < Config.timeout (Config.instance validatedConfig))%Z.
Proof.
  apply (validateConfig_accepted writtenConfig validatedConfig).
  vm_compute. reflexivity.
Defined.

Lemma validateConfig_rejections_witness :
  exists field message,
    Config.Thrown
      (Errors.ConfigValidationError "fetch.headers.Accept"
         "header value must be a string")
    = Config.Thrown (Errors.ConfigValidationError field message)
    /\ (In field ["root"; "api_endpoint"; "poll_interval_ms"; "output";
                  "output.folder"; "fetch"; "fetch.headers"; "instance";
                  "watch"]
        \/ exists key, field = "fetch.headers." ++ key).
Proof.
  apply (validateConfig_rejections
           (VObj 0
              [ ("api_endpoint", VStr "https://api.example.com/openapi.json");
                ("poll_interval_ms", VNum 5000);
                ("output", VObj 1 [("folder", VStr "src/api")]);
                ("fetch", VObj 2 [("headers", VObj 3 [("Accept", VNum 1)])]) ])).
  vm_compute. reflexivity.
Defined.

(** ** Facts about the log level *)

(** X21: what a command shows, given the level [getLogLevel] chooses from
    its flags: errors always; warnings unless [quiet] is set; the lines of
    level info and debug only when [quiet] is not set and the [debug] flag or
    the configuration's debug setting is.  A command whose flags have no
    [debug] entry, called without the configuration's setting, therefore
    never shows an info line. *)
Theorem getLogLevel_visibility (flags : Logger.Flags)
    (configDebug : option bool) :
  shown flags configDebug Logger.Error = true
  /\ shown flags configDebug Logger.Warn
     = negb (Logger.set (Logger.quiet flags))
  /\ shown flags configDebug Logger.Info
     = negb (Logger.set (Logger.quiet flags))
       && (Logger.set (Logger.debug flags) || Logger.set configDebug)
  /\ shown flags configDebug Logger.Debug
     = negb (Logger.set (Logger.quiet flags))
       && (Logger.set (Logger.debug flags) || Logger.set configDebug)
  /\ (Logger.debug flags = None -> configDebug = None ->
      shown flags configDebug Logger.Info = false).
Proof.
  unfold shown, Logger.getLogLevel.
  destruct flags as [quiet debug]. cbn [Logger.quiet Logger.debug].
  repeat split;
    try (intros -> ->);
    destruct (Logger.set quiet); try reflexivity;
    destruct (Logger.set debug); try reflexivity;
    destruct (Logger.set configDebug); reflexivity.
Qed.

(** ** Facts about [formatTimeAgo] *)

Lemma div_bounds (x d : Z) :
  (0 < d)%Z -> (d * (x / d) <= x < d * (x / d + 1))%Z.
Proof.
  intros Hd. pose proof (Z.mul_div_le x d Hd).
  pose proof (Z.mul_succ_div_gt x d Hd). lia.
Qed.


(** ** Facts about [interpolatePath] *)

Lemma replacePlaceholders_cons (params : string -> option string)
    (c : ascii) (s' : string) :
  Client.replacePlaceholders params (String c s') =
  match match_placeholder (String c s') with
  | Some (key, rest) =>
      let '(done, missing) := Client.replacePlaceholders params rest in
      match params key with
      | None => ("{" ++ key ++ "}" ++ done, key :: missing)
      | Some text => (Client.encodeURIComponent text ++ done, missing)
      end
  | None =>
      let '(done, missing) := Client.replacePlaceholders params s' in
      (String c done, missing)
  end.
Proof.
  rewrite Client.replacePlaceholders_equation_2.
  destruct (Logic.inspect (match_placeholder (String c s'))) as [[[n r]|] E].
  - transitivity
      (let '(done, missing) := Client.replacePlaceholders params r in
       match params n with
       | None => ("{" ++ n ++ "}" ++ done, n :: missing)
       | Some text => (Client.encodeURIComponent text ++ done, missing)
       end); [reflexivity | now rewrite E].
  - transitivity
      (let '(done, missing) := Client.replacePlaceholders params s' in
       (String c done, missing)); [reflexivity | now rewrite E].
Qed.

Lemma match_placeholder_shorter (s key rest : string) :
  match_placeholder s = Some (key, rest) ->
  String.length rest < String.length s.
Proof.
  assert (Hspan : forall t n r, span_name t = (n, r) ->
                    String.length t = String.length n + String.length r).
  { induction t as [|x t IH]; intros n r; simpl.
    - intros [= <- <-]; reflexivity.
    - destruct (Ascii.eqb x "}").
      + intros [= <- <-]; reflexivity.
      + destruct (span_name t) as [n0 r0]. intros [= <- <-]; simpl.
        now rewrite (IH n0 r0 eq_refl). }
  destruct s as [|c s']; [discriminate|]. cbn [match_placeholder].
  destruct (Ascii.eqb c "{"); [|discriminate].
  destruct (span_name s') as [n r] eqn:Es.
  destruct n as [|n0 ns]; [discriminate|].
  destruct r as [|r0 r']; [discriminate|].
  intros [= <- <-]. apply Hspan in Es. simpl in *. lia.
Qed.

(** The callback is run on the matches [matchAll] lists, in the same order. *)
Lemma replacePlaceholders_missing (params : string -> option string) (n : nat) :
  forall s, String.length s <= n ->
  snd (Client.replacePlaceholders params s)
  = List.filter (absent params) (matchAll s).
Proof.
  induction n as [|n IH]; intros s Hlen.
  - destruct s; [|simpl in Hlen; lia].
    now rewrite Client.replacePlaceholders_equation_1, matchAll_equation_1.
  - destruct s as [|c s'].
    { now rewrite Client.replacePlaceholders_equation_1, matchAll_equation_1. }
    rewrite replacePlaceholders_cons, matchAll_cons.
    destruct (match_placeholder (String c s')) as [[key rest]|] eqn:E.
    + apply match_placeholder_shorter in E.
      specialize (IH rest ltac:(simpl in *; lia)).
      destruct (Client.replacePlaceholders params rest) as [done missing].
      cbn [snd] in IH. cbn [List.filter]. unfold absent at 1.
      destruct (params key); cbn [snd]; now rewrite IH.
    + specialize (IH s' ltac:(simpl in *; lia)).
      now destruct (Client.replacePlaceholders params s') as [done missing].
Qed.

Lemma replacePlaceholders_literal (params : string -> option string)
    (literal s : string) :
  ~ Str.mem "{" literal ->
  Client.replacePlaceholders params (literal ++ s)
  = (literal ++ fst (Client.replacePlaceholders params s),
     snd (Client.replacePlaceholders params s)).
Proof.
  induction literal as [|c literal IH]; intros Hl.
  - simpl. now destruct (Client.replacePlaceholders params s).
  - change (String c literal ++ s) with (String c (literal ++ s)).
    rewrite replacePlaceholders_cons. cbn [match_placeholder].
    destruct (Ascii.eqb_spec c "{") as [->|Hc].
    + exfalso. apply Hl. now left.
    + rewrite IH by (intros Hin; apply Hl; now right). reflexivity.
Qed.

Lemma replacePlaceholders_plain (params : string -> option string) (s : string) :
  ~ Str.mem "{" s \/ ~ Str.mem "}" s ->
  fst (Client.replacePlaceholders params s) = s.
Proof.
  intros [Hs|Hs].
  - rewrite <- (append_empty_r s) at 1.
    rewrite replacePlaceholders_literal by assumption.
    rewrite Client.replacePlaceholders_equation_1. cbn [fst].
    apply append_empty_r.
  - induction s as [|c s IH];
      [now rewrite Client.replacePlaceholders_equation_1|].
    assert (Hs' : ~ Str.mem "}" s) by (intros Hin; apply Hs; now right).
    rewrite replacePlaceholders_cons.
    replace (match_placeholder (String c s)) with (@None (string * string)).
    + specialize (IH Hs').
      destruct (Client.replacePlaceholders params s) as [done missing].
      cbn [fst] in *. now rewrite IH.
    + cbn [match_placeholder]. rewrite (span_name_no_close s Hs').
      destruct (Ascii.eqb c "{"); [now destruct s | reflexivity].
Qed.

Lemma replacePlaceholders_template (params : string -> option string)
    (segments : list (string * string)) (tail : string) :
  (forall literal name, In (literal, name) segments ->
     ~ Str.mem "{" literal /\ name <> EmptyString /\ ~ Str.mem "}" name) ->
  ~ Str.mem "{" tail \/ ~ Str.mem "}" tail ->
  fst (Client.replacePlaceholders params (template_of segments tail))
  = filled params segments tail.
Proof.
  intros Hseg Htail. induction segments as [|[literal name] more IH].
  - now apply replacePlaceholders_plain.
  - change (template_of ((literal, name) :: more) tail)
      with (literal ++ "{" ++ name ++ "}" ++ template_of more tail).
    destruct (Hseg literal name (or_introl eq_refl)) as (Hl & Hne & Hn).
    rewrite replacePlaceholders_literal by assumption. cbn [fst filled].
    f_equal.
    change ("{" ++ name ++ "}" ++ template_of more tail)
      with (String "{" (name ++ String "}" (template_of more tail))).
    rewrite replacePlaceholders_cons.
    rewrite match_placeholder_closed by assumption.
    specialize (IH ltac:(intros l n Hin; apply Hseg; now right)).
    destruct (Client.replacePlaceholders params (template_of more tail))
      as [done missing].
    cbn [fst] in IH. subst done.
    destruct (params name); cbn [fst]; [reflexivity|].
    now rewrite !append_assoc.
Qed.

Lemma matchAll_template (segments : list (string * string)) (tail : string) :
  (forall literal name, In (literal, name) segments ->
     ~ Str.mem "{" literal /\ name <> EmptyString /\ ~ Str.mem "}" name) ->
  ~ Str.mem "{" tail \/ ~ Str.mem "}" tail ->
  matchAll (template_of segments tail) = List.map snd segments.
Proof.
  intros Hseg Htail. induction segments as [|[literal name] more IH].
  - destruct Htail; [now apply matchAll_no_open | now apply matchAll_no_close].
  - change (template_of ((literal, name) :: more) tail)
      with (literal ++ "{" ++ name ++ "}" ++ template_of more tail).
    change (List.map snd ((literal, name) :: more))
      with (name :: List.map snd more).
    destruct (Hseg literal name (or_introl eq_refl)) as (Hl & Hne & Hn).
    rewrite matchAll_literal by assumption.
    rewrite matchAll_placeholder by assumption.
    f_equal. apply IH. intros l n Hin. apply Hseg. now right.
Qed.

Lemma interpolatePath_cases (params : string -> option string)
    (template : string) :
  Client.interpolatePath template (Some params)
  = match List.filter (absent params) (matchAll template) with
    | [] => Ok (fst (Client.replacePlaceholders params template))
    | key :: more =>
        Raise ("Missing required path param(s): "
                 ++ Str.join ", " (key :: more)
                 ++ " for template: " ++ template)
    end.
Proof.
  unfold Client.interpolatePath.
  pose proof (replacePlaceholders_missing params (String.length template)
                template ltac:(lia)) as Hmissing.
  destruct (Client.replacePlaceholders params template) as [path missing].
  cbn [snd] in Hmissing. rewrite <- Hmissing.
  now destruct missing.
Qed.




(** ** The two modes of the validate command *)

Lemma filter_error_incl (issues : list Validate.ValidationIssue) :
  incl (List.map ValidateCommand.report_line
          (List.filter ValidateCommand.is_error issues))
       (List.map ValidateCommand.report_line issues).
Proof.
  intros line Hin. apply in_map_iff in Hin as [issue [<- Hin]].
  apply filter_In in Hin as [Hin _]. now apply in_map.
Qed.

Lemma conclude_strict (issues : list Validate.ValidationIssue) :
  ValidateCommand.conclude true issues = ValidateCommand.Valid <-> issues = [].
Proof.
  unfold ValidateCommand.conclude, nonEmpty. cbn [andb].
  destruct issues as [|issue rest]; [split; reflexivity|].
  cbn [List.filter]. unfold ValidateCommand.is_error, ValidateCommand.is_warning.
  destruct (Validate.severity_of issue); cbn.
  - split; discriminate.
  - rewrite orb_true_r. split; discriminate.
Qed.

(** X25: [--strict] only ever adds failures.  Under [--strict] the validate
    command succeeds exactly when [validateSpec] finds no issue at all; a
    document it accepts is accepted without the flag too; and when the
    command fails without the flag it fails with it, with a report that has
    one line for every issue and contains every line of the report without
    the flag. *)
Theorem validate_strict_stricter (spec : value) :
  (ValidateCommand.validate true spec = Returns ValidateCommand.Valid
   <-> Validate.validateSpec spec = Returns [])
  /\ (ValidateCommand.validate true spec = Returns ValidateCommand.Valid ->
      ValidateCommand.validate false spec = Returns ValidateCommand.Valid)
  /\ (forall report,
        ValidateCommand.validate false spec
          = Returns (ValidateCommand.Invalid report) ->
        exists issues,
          Validate.validateSpec spec = Returns issues
          /\ ValidateCommand.validate true spec
             = Returns (ValidateCommand.Invalid
                          (List.map ValidateCommand.report_line issues))
          /\ incl report (List.map ValidateCommand.report_line issues)).
Proof.
  unfold ValidateCommand.validate. rewrite validateSpec_issues.
  change (issues ← Returns (issuesOf spec);
          Returns (ValidateCommand.conclude true issues))
    with (Returns (ValidateCommand.conclude true (issuesOf spec))).
  change (issues ← Returns (issuesOf spec);
          Returns (ValidateCommand.conclude false issues))
    with (Returns (ValidateCommand.conclude false (issuesOf spec))).
  generalize (issuesOf spec) as issues. intros issues.
  split; [|split].
  - split.
    + intros [= H]. apply conclude_strict in H. now subst.
    + intros [= ->]. reflexivity.
  - intros [= H]. apply conclude_strict in H. now subst.
  - intros report [= H]. exists issues. split; [reflexivity|].
    unfold ValidateCommand.conclude in *. cbn [andb] in H.
    rewrite orb_false_r in H.
    destruct (nonEmpty (List.filter ValidateCommand.is_error issues)) eqn:E;
      [|discriminate H].
    injection H as <-. split; [reflexivity|]. apply filter_error_incl.
Qed.


(** ** Facts about the watch cycle *)

Lemma idle_network (trace : list Fetcher.event) :
  forallb idle (List.map Watch.Network trace) = true.
Proof. induction trace as [|e trace IH]; [reflexivity | exact IH]. Qed.

(** X26: a watch cycle leaves the files alone unless a request brought
    something new.  When the first ok
    response among the three requests has the hash recorded in the cache
    metadata, the cycle does nothing after the requests.  When all three
    requests fail, the cycle has waited 1000 and then 2000 ms and neither
    saves nor generates: with the cached spec and its metadata on disk it
    ends silently, otherwise with the error line of the failed fetch. *)
Theorem runCycle_idle (w : Fetcher.World) (saving generating : option string)
    (endpoint : string) (headers : option (list (string * string)))
    (sent : list (string * string)) :
  Fetcher.requestHeaders w (cycleOptions endpoint headers) = Ok sent ->
  (forall n status statusText body cache,
     (n < 3)%nat ->
     (forall k, (1 <= k < Z.of_nat (S n))%Z ->
        failed (Fetcher.network w k sent) = true) ->
     Fetcher.network w (Z.of_nat (S n)) sent
       = Fetcher.Response true status statusText body ->
     Fetcher.existingCache w = Some cache ->
     Fetcher.hash cache = Fetcher.computeHash w body ->
     Watch.runCycle w saving generating endpoint headers
     = List.map Watch.Network
         (schedule Fetcher.DEFAULT_RETRY_CONFIG sent (S n)))
  /\ ((forall k, (1 <= k <= 3)%Z -> failed (Fetcher.network w k sent) = true) ->
      forallb idle (Watch.runCycle w saving generating endpoint headers) = true
      /\ exists ending,
           Watch.runCycle w saving generating endpoint headers
           = List.app
               (List.map Watch.Network
                  [ Fetcher.Requested 1 sent; Fetcher.Slept 1000;
                    Fetcher.Requested 2 sent; Fetcher.Slept 2000;
                    Fetcher.Requested 3 sent ])
               ending
           /\ match Fetcher.cachedSpec w, Fetcher.existingCache w with
              | Some _, Some _ => ending = []
              | _, _ => exists message, ending = [Watch.CycleFailed message]
              end).
Proof.
  intros Hsent. unfold Watch.runCycle. fold (cycleOptions endpoint headers).
  split.
  - intros n status statusText body cache Hn Hfail Hreply Hcache Hhash.
    rewrite (fetch_first_success w (cycleOptions endpoint headers) sent n
               status statusText body Hsent); [| cbn; lia | assumption | assumption].
    cbn [Fetcher.hasChanged]. unfold changed. cbn [cycleOptions Fetcher.force].
    rewrite Hcache, Hhash, String.eqb_refl. cbn [negb].
    now rewrite List.app_nil_r.
  - intros Hfail.
    destruct (fetch_exhausted w (cycleOptions endpoint headers) sent Hsent Hfail)
      as [lastError [Hrun _]].
    rewrite Hrun.
    change (schedule (settings (cycleOptions endpoint headers)) sent
              (Z.to_nat (Fetcher.maxAttempts
                           (settings (cycleOptions endpoint headers)))))
      with [ Fetcher.Requested 1 sent; Fetcher.Slept 1000;
             Fetcher.Requested 2 sent; Fetcher.Slept 2000;
             Fetcher.Requested 3 sent ].
    destruct (Fetcher.cachedSpec w) as [cached|],
             (Fetcher.existingCache w) as [cache|];
      (split; [reflexivity|]); eexists; (split; [reflexivity|]);
      try reflexivity; eexists; reflexivity.
Qed.

Lemma runCycle_idle_witness :
  Watch.runCycle
    {| Fetcher.env := fun _ => None;
       Fetcher.existingCache :=
         Some {| Fetcher.hash := "abc"; Fetcher.timestamp := 0;
                 Fetcher.cache_endpoint := "http://localhost" |};
       Fetcher.cachedSpec := Some "{}";
       Fetcher.network := fun attempt _ =>
         if Z.eqb attempt 2 then Fetcher.Response true 200 "OK" "{}"
         else Fetcher.Rejection "ECONNREFUSED";
       Fetcher.computeHash := fun _ => "abc" |}
    None None "http://localhost" None
  = [ Watch.Network (Fetcher.Requested 1 [("Accept", "application/json")]);
      Watch.Network (Fetcher.Slept 1000);
      Watch.Network (Fetcher.Requested 2 [("Accept", "application/json")]) ].
Proof.
  refine (proj1 (runCycle_idle _ None None "http://localhost" None
                   [("Accept", "application/json")] _)
            1%nat 200%Z "OK" "{}" _ _ _ _ _ _).
  - reflexivity.
  - lia.
  - intros k Hk. cbn [Fetcher.network].
    destruct (Z.eqb_spec k 2) as [->|_]; [lia | reflexivity].
  - reflexivity.
  - reflexivity.
  - reflexivity.
Defined.
